(** * Qte: the harmonic-oscillator Hamiltonian builder and the Hermitian
      eigen-solver, embedded from the C sources.

    Files embedded:
    - [qte.quantumho.c]  (module [QuantumHO]), the Hamiltonian builder:
      [compute_hamiltonian], [qte_quantumho_new], [qte_quantumho_bang] and
      their helpers;
    - [qte.eigencalc.c]  (module [Eigencalc]), the eigen-solver:
      [qte_eigencalc_new], [qte_eigencalc_dim], [qte_eigencalc_list],
      [qte_eigencalc_bang];
    - [simplemax.c]      (module [SimpleMax]), the earlier prototype of the
      builder, which registers as the object [simplemax]:
      [compute_harmonic_oscillator], [simplemax_new], [simplemax_bang].  The
      header of [qte.quantumho.c] records what changed since ("note the new
      order", "multiply entire expression by a"); Part V states the
      differences.

    Parts III to V follow the description of the objects; Parts VI to VIII
    add what the sources show beyond it: the storage layouts and the failure
    paths of the solver, the allocation failures and the algebra of the
    builder, and the behaviour of the prototype.

    Conventions of the embedding.
    - C [long] is a 64-bit two's-complement integer: a [Z] with the
      wrap-around written out ([CLong]).
    - C [double] is an abstract type [D] with the operations the sources use
      (class [Flt]); every definition is stated once for all [D].  The
      value-level theorems are proved for the instance where [D] is the field
      of real numbers, that is for exact arithmetic, without the rounding
      errors of binary floating point; the structural ones (which cell is
      written, in which order the factors are multiplied, how the output list
      is laid out) hold for every [D].  Where a statement about values fails
      in the arithmetic of the program, it is evaluated on IEEE 754 binary64
      (module [Binary64], over the kernel's primitive floats).
    - [double complex] is a pair of doubles with the C99 (Annex G) rules for
      mixed real/complex operands.
    - Heap storage is a list; storage that has not been written holds an
      arbitrary value (class [Uninit]).  The outcome of each allocation
      request is read from an oracle carried in the [world], together with
      the log of what the object sent to the host (errors, posts, outlet
      lists).
    - LAPACK's [zheev_] and the integer type [__CLPK_integer] come from the
      Accelerate framework, outside the sources: they are parameters (class
      [Eigencalc.Lapack]). *)

From Stdlib Require Import ZArith List String Bool Lia Reals Lra.
From Stdlib Require PrimFloat FloatOps SpecFloat Uint63.
Import ListNotations.
Open Scope Z_scope.

(* ================================================================== *)
(** * Part I: definitions                                              *)
(* ================================================================== *)

(** ** C [long] *)
Module CLong.

Definition LONG_MAX : Z := 2 ^ 63 - 1.
Definition LONG_MIN : Z := - 2 ^ 63.

(** Reduction of a mathematical integer to the representable range. *)
Definition wrap (z : Z) : Z := (z + 2 ^ 63) mod 2 ^ 64 - 2 ^ 63.

Definition add (a b : Z) : Z := wrap (a + b).
Definition sub (a b : Z) : Z := wrap (a - b).
Definition mul (a b : Z) : Z := wrap (a * b).

End CLong.

(** ** Loops and arrays *)

(** [for (long i = lo; i < lo + k; i++) s = body i s;] *)
Fixpoint for_from {S : Type} (k : nat) (i : Z) (body : Z -> S -> S) (s : S) : S :=
  match k with
  | O => s
  | Datatypes.S k' => for_from k' (i + 1) body (body i s)
  end.

(** [for (long i = 0; i < n; i++) s = body i s;]  (no iteration when
    [n <= 0]). *)
Definition for_long {S : Type} (n : Z) (body : Z -> S -> S) (s : S) : S :=
  for_from (Z.to_nat n) 0 body s.

Fixpoint upd_nat {A : Type} (l : list A) (i : nat) (v : A) : list A :=
  match l, i with
  | [], _ => []
  | _ :: t, O => v :: t
  | h :: t, Datatypes.S i' => h :: upd_nat t i' v
  end.

(** [l[i] = v].  A store outside the array is undefined in C; the model
    leaves the array as it is. *)
Definition upd {A : Type} (l : list A) (i : Z) (v : A) : list A :=
  if i <? 0 then l else upd_nat l (Z.to_nat i) v.

(** [l[i]].  A load outside the array is undefined in C; the model returns
    [d]. *)
Definition get {A : Type} (d : A) (l : list A) (i : Z) : A :=
  if i <? 0 then d else nth (Z.to_nat i) l d.

(** ** C [double] and [double complex] *)

(** The operations on [double] that the sources use. *)
Class Flt (D : Type) : Type := {
  of_long : Z -> D;            (* (double)z; also the literals 0.0, 1.0, 2.0, 100000.0 *)
  dhalf : D;                   (* the literal 0.5 *)
  dM_PI : D;                   (* M_PI *)
  dadd : D -> D -> D;
  dmul : D -> D -> D;
  ddiv : D -> D -> D;
  dneg : D -> D;
  dsqrt : D -> D;              (* sqrt  of <math.h> *)
  dcos : D -> D;               (* cos   of <math.h> *)
  dsin : D -> D;               (* sin   of <math.h> *)
  dround : D -> D;             (* round of <math.h>: nearest integer, halves away from zero *)
  to_long : D -> Z             (* (long)d: truncation toward zero *)
}.

Section Complex.
Context {D : Type} {Fl : Flt D}.

Definition d0 : D := of_long 0.
Definition d1 : D := of_long 1.
Definition d2 : D := of_long 2.

(** [double complex]: real and imaginary part. *)
Definition cplx : Type := (D * D)%type.

Definition creal (z : cplx) : D := fst z.
Definition cimag (z : cplx) : D := snd z.

(** Conversion of a real to complex (imaginary part [+0.0]). *)
Definition c_of_real (x : D) : cplx := (x, d0).

(** The macro [I] ([_Complex_I]): the complex constant [0 + 1i]. *)
Definition CI : cplx := (d0, d1).

Definition conj (z : cplx) : cplx := (creal z, dneg (cimag z)).

(** complex + complex *)
Definition cadd (z w : cplx) : cplx :=
  (dadd (creal z) (creal w), dadd (cimag z) (cimag w)).

(** complex * complex: [(a+ib)(c+id) = (ac - bd) + i(ad + bc)]. *)
Definition cmul (z w : cplx) : cplx :=
  (dadd (dmul (creal z) (creal w)) (dneg (dmul (cimag z) (cimag w))),
   dadd (dmul (creal z) (cimag w)) (dmul (cimag z) (creal w))).

(** real * complex and complex * real: the real operand scales both parts. *)
Definition rcmul (x : D) (z : cplx) : cplx := (dmul x (creal z), dmul x (cimag z)).
Definition crmul (z : cplx) (x : D) : cplx := (dmul (creal z) x, dmul (cimag z) x).

(** real + complex and complex + real: the real operand is added to the real
    part. *)
Definition rcadd (x : D) (z : cplx) : cplx := (dadd x (creal z), cimag z).
Definition cradd (z : cplx) (x : D) : cplx := (dadd (creal z) x, cimag z).

End Complex.

(** ** The host (Max) interface: atoms, messages to the host, allocation *)

Module Max.

(** A Max atom ([t_atom]). *)
Inductive atom (D : Type) : Type :=
| A_LONG (z : Z)
| A_FLOAT (d : D)
| A_SYM (s : string).
Arguments A_LONG {D} z.
Arguments A_FLOAT {D} d.
Arguments A_SYM {D} s.

Inductive atomtype : Type := T_LONG | T_FLOAT | T_SYM.

(** What the object sends to the host. *)
Inductive event (D : Type) : Type :=
| object_error (fmt : string) (args : list Z)
| object_post (fmt : string) (args : list Z)
| outlet_list (outlet : string) (argc : Z) (argv : list (atom D)).
Arguments object_error {D} fmt args.
Arguments object_post {D} fmt args.
Arguments outlet_list {D} outlet argc argv.

(** The part of the environment the objects interact with: [heap] gives the
    outcome of the allocation requests still to come, first request first
    ([true]: the request is served; once the list is used up every request is
    served); [log] is what has been sent to the host so far, oldest first. *)
Record world (D : Type) : Type := mkWorld {
  heap : list bool;
  log : list (event D)
}.
Arguments mkWorld {D} heap log.
Arguments heap {D} w.
Arguments log {D} w.

(** A call either returns a value or brings the process down (a store through
    a pointer that was never checked against NULL). *)
Inductive outcome (A : Type) : Type :=
| Value (a : A)
| Crash.
Arguments Value {A} a.
Arguments Crash {A}.

Definition M (D A : Type) : Type := world D -> outcome A * world D.

Definition ret {D A : Type} (a : A) : M D A := fun w => (Value a, w).

Definition bind {D A B : Type} (m : M D A) (k : A -> M D B) : M D B :=
  fun w =>
    match m w with
    | (Value a, w') => k a w'
    | (Crash, w') => (Crash, w')
    end.

Definition crash {D A : Type} : M D A := fun w => (Crash, w).

(** One allocation request: is it served? *)
Definition request {D : Type} : M D bool :=
  fun w =>
    match heap w with
    | [] => (Value true, w)
    | b :: h => (Value b, mkWorld h (log w))
    end.

Definition tell {D : Type} (e : event D) : M D unit :=
  fun w => (Value tt, mkWorld (heap w) (log w ++ [e])).

(** Every pending allocation request will be served. *)
Definition plentiful {D : Type} (w : world D) : Prop :=
  Forall (fun b => b = true) (heap w).

End Max.
Import Max.

Declare Scope cmd_scope.
Delimit Scope cmd_scope with cmd.
Notation "x <- m ;; k" := (bind m (fun x => k))
  (at level 61, m at next level, right associativity) : cmd_scope.
Notation "m ;;; k" := (bind m (fun _ => k))
  (at level 61, right associativity) : cmd_scope.

(** Contents of storage that has not been written yet. *)
Class Uninit (D : Type) : Type := {
  junk : D;
  junk_int : Z;
  junk_atom : atom D
}.

Section HostCalls.
Context {D : Type} {Fl : Flt D} {U : Uninit D}.
Local Open Scope cmd_scope.

Definition atom_gettype (a : atom D) : atomtype :=
  match a with
  | A_LONG _ => T_LONG
  | A_FLOAT _ => T_FLOAT
  | A_SYM _ => T_SYM
  end.

(** [atom_getlong]: the integer of the atom, a float truncated, 0 for a
    symbol. *)
Definition atom_getlong (a : atom D) : Z :=
  match a with
  | A_LONG z => z
  | A_FLOAT d => to_long d
  | A_SYM _ => 0
  end.

(** [atom_getfloat]: the float of the atom, an integer converted, 0 for a
    symbol. *)
Definition atom_getfloat (a : atom D) : D :=
  match a with
  | A_LONG z => of_long z
  | A_FLOAT d => d
  | A_SYM _ => d0
  end.

(** [malloc(n * sizeof(double))]: NULL, or [n] doubles of arbitrary
    content. *)
Definition malloc_doubles (n : Z) : M D (option (list D)) :=
  ok <- request ;;
  ret (if ok then Some (repeat junk (Z.to_nat n)) else None).

(** [malloc(n * sizeof(complex))]: NULL, or [n] complex numbers of arbitrary
    content. *)
Definition malloc_complex (n : Z) : M D (option (list cplx)) :=
  ok <- request ;;
  ret (if ok then Some (repeat (junk, junk) (Z.to_nat n)) else None).

(** [calloc(n, sizeof(double complex))]: NULL, or [n] zeros. *)
Definition calloc_complex (n : Z) : M D (option (list cplx)) :=
  ok <- request ;;
  ret (if ok then Some (repeat (d0, d0) (Z.to_nat n)) else None).

(** [sysmem_newptr(n * sizeof(t_atom))]: NULL, or [n] atoms of arbitrary
    content. *)
Definition sysmem_newptr_atoms (n : Z) : M D (option (list (atom D))) :=
  ok <- request ;;
  ret (if ok then Some (repeat junk_atom (Z.to_nat n)) else None).

(** [outlet_list(out, gensym("list"), argc, argv)]: the first [argc] atoms of
    the buffer are sent. *)
Definition send_list (out : string) (argc : Z) (argv : list (atom D)) : M D unit :=
  tell (outlet_list out argc (firstn (Z.to_nat argc) argv)).

End HostCalls.

(** ** qte.quantumho.c *)

Module QuantumHO.
Section Defs.
Context {D : Type} {Fl : Flt D} {U : Uninit D}.
Local Open Scope cmd_scope.

(** [t_qte_quantumho]; its outlet is the one named ["out"]. *)
Record t_qte_quantumho : Type := mk_quantumho {
  n : Z;      (* Matrix dimension *)
  a : D       (* Potential parameter *)
}.

(** [double complex **]: the rows of the matrix. *)
Definition matrix : Type := list (list (@cplx D)).

(** [M[i][j]] *)
Definition mget (M : matrix) (i j : Z) : cplx := get (d0, d0) (get [] M i) j.

(** [M[i][j] = v] *)
Definition mset (M : matrix) (i j : Z) (v : cplx) : matrix :=
  upd M i (upd (get [] M i) j v).

(** The loop of [alloc_complex_matrix]: [k] rows are still to be allocated;
    when a [calloc] fails the rows obtained so far and the row table are
    released and NULL is returned. *)
Fixpoint alloc_rows (k : nat) (n : Z) (rows : matrix) : M D (option matrix) :=
  match k with
  | O => ret (Some rows)
  | Datatypes.S k' =>
      r <- calloc_complex n ;;
      match r with
      | None => ret None
      | Some row => alloc_rows k' n (rows ++ [row])
      end
  end.

Definition alloc_complex_matrix (n : Z) : M D (option matrix) :=
  ok <- request ;;                       (* the table of n row pointers *)
  if (ok : bool) then alloc_rows (Z.to_nat n) n [] else ret None.

Definition compute_fourier_matrix (F : matrix) (n : Z) : matrix :=
  let norm := ddiv d1 (dsqrt (of_long n)) in
  for_long n (fun k F =>
    for_long n (fun l F =>
      let angle :=
        ddiv (dmul (dmul (dmul d2 dM_PI) (of_long k)) (of_long l)) (of_long n) in
      mset F k l (rcmul norm (rcadd (dcos angle) (crmul CI (dsin angle)))))
    F) F.

Definition compute_conjugate_transpose (F Finv : matrix) (n : Z) : matrix :=
  for_long n (fun i Finv =>
    for_long n (fun j Finv => mset Finv i j (conj (mget F j i))) Finv) Finv.

Definition multiply_diag_matrix (Dg : list D) (M result : matrix) (n : Z) : matrix :=
  for_long n (fun i result =>
    for_long n (fun j result =>
      mset result i j (rcmul (get d0 Dg i) (mget M i j))) result) result.

Definition multiply_complex_matrices (A B result : matrix) (n : Z) : matrix :=
  for_long n (fun i result =>
    for_long n (fun j result =>
      let sum := rcadd d0 (rcmul d0 CI) in
      let sum := for_long n (fun k sum => cadd sum (cmul (mget A i k) (mget B k j))) sum in
      mset result i j sum) result) result.

Definition round5 (x : D) : D :=
  ddiv (dround (dmul x (of_long 100000))) (of_long 100000).

(** The loop that fills [PImpulse]. *)
Definition fill_PImpulse (n : Z) (PImpulse : list D) : list D :=
  for_long n (fun i PImpulse => upd PImpulse i (of_long i)) PImpulse.

(** The loop that fills [Q_diag]. *)
Definition fill_Q_diag (n : Z) (a : D) (Q_diag : list D) : list D :=
  for_long n (fun i Q_diag =>
    upd Q_diag i
      (dmul a (dadd (dneg (ddiv (of_long (CLong.sub n 1)) d2)) (of_long i))))
    Q_diag.

(** The value [val] of one entry before rounding. *)
Definition unrounded (P2 : matrix) (Q_diag : list D) (i j : Z) : cplx :=
  let qterm := c_of_real d0 in
  let qterm :=
    if i =? j then
      let q2 := dmul (get d0 Q_diag i) (get d0 Q_diag i) in
      rcadd q2 (rcmul d0 CI)
    else qterm in
  rcmul dhalf (cadd (mget P2 i j) qterm).

(** The final loop nest, which fills [H]. *)
Definition build_H (n : Z) (P2 : matrix) (Q_diag : list D) (H : matrix) : matrix :=
  for_long n (fun i H =>
    for_long n (fun j H =>
      let val := unrounded P2 Q_diag i j in
      let rpart := round5 (creal val) in
      let ipart := round5 (cimag val) in
      mset H i j (rcadd rpart (crmul CI ipart))) H) H.

(** The locals of [compute_hamiltonian] as they are at its [// Cleanup]
    line. *)
Record locals : Type := mk_locals {
  l_F : matrix;
  l_Finv : matrix;
  l_PImpulse : list D;
  l_P_temp : matrix;
  l_P : matrix;
  l_P2 : matrix;
  l_Q_diag : list D;
  l_H : matrix
}.

(** The body of [compute_hamiltonian] up to the cleanup.  [Q_diag] is used
    without a NULL test: when that [malloc] fails the first store into it
    brings the process down. *)
Definition compute_hamiltonian_locals (x : t_qte_quantumho) : M D (option locals) :=
  let n := n x in
  let a := a x in
  H <- alloc_complex_matrix n ;;
  F <- alloc_complex_matrix n ;;
  Finv <- alloc_complex_matrix n ;;
  P_temp <- alloc_complex_matrix n ;;
  P <- alloc_complex_matrix n ;;
  P2 <- alloc_complex_matrix n ;;
  match H, F, Finv, P_temp, P, P2 with
  | Some H, Some F, Some Finv, Some P_temp, Some P, Some P2 =>
      let F := compute_fourier_matrix F n in
      let Finv := compute_conjugate_transpose F Finv n in
      PImpulse <- malloc_doubles n ;;
      match PImpulse with
      | None => ret None
      | Some PImpulse =>
          let PImpulse := fill_PImpulse n PImpulse in
          let P_temp := multiply_diag_matrix PImpulse Finv P_temp n in
          let P := multiply_complex_matrices F P_temp P n in
          let P2 := multiply_complex_matrices P P P2 n in
          Q_diag <- malloc_doubles n ;;
          Q_diag <- match Q_diag with
                    | Some Q_diag => ret Q_diag
                    | None => if 0 <? n then crash else ret []
                    end ;;
          let Q_diag := fill_Q_diag n a Q_diag in
          let H := build_H n P2 Q_diag H in
          ret (Some (mk_locals F Finv PImpulse P_temp P P2 Q_diag H))
      end
  | _, _, _, _, _, _ => ret None
  end.

Definition compute_hamiltonian (x : t_qte_quantumho) : M D (option matrix) :=
  L <- compute_hamiltonian_locals x ;;
  ret (option_map l_H L).

(** The constructor: [argv] are the creation arguments ([argc] is their
    number); NULL when [object_alloc] fails. *)
Definition qte_quantumho_new (argv : list (atom D)) : M D (option t_qte_quantumho) :=
  ok <- request ;;
  if (ok : bool) then
    let n := 8 in
    let a := d1 in
    let n :=
      match argv with
      | a0 :: _ =>
          match atom_gettype a0 with
          | T_LONG => atom_getlong a0
          | T_FLOAT => to_long (atom_getfloat a0)
          | T_SYM => n
          end
      | [] => n
      end in
    let a :=
      match argv with
      | _ :: a1 :: _ => atom_getfloat a1
      | _ => a
      end in
    ret (Some (mk_quantumho n a))
  else ret None.

(** The loop nest of [qte_quantumho_bang] that flattens [H]. *)
Definition flatten (n : Z) (H : matrix) (out_list : list (atom D)) : list (atom D) :=
  for_long n (fun i out_list =>
    for_long n (fun j out_list =>
      let idx := CLong.mul 2 (CLong.add (CLong.mul i n) j) in
      let out_list := upd out_list idx (A_FLOAT (creal (mget H i j))) in
      upd out_list (CLong.add idx 1) (A_FLOAT (cimag (mget H i j))))
    out_list) out_list.

Definition qte_quantumho_bang (x : t_qte_quantumho) : M D unit :=
  let n := n x in
  H <- compute_hamiltonian x ;;
  match H with
  | None => tell (object_error "Failed to compute Hamiltonian (out of memory?)" [])
  | Some H =>
      let list_size := CLong.mul (CLong.mul 2 n) n in
      out_list <- sysmem_newptr_atoms list_size ;;
      match out_list with
      | None => tell (object_error "Failed to allocate memory for output list" [])
      | Some out_list =>
          let out_list := flatten n H out_list in
          send_list "out" list_size out_list
      end
  end.

End Defs.
Arguments t_qte_quantumho D : clear implicits.
Arguments matrix D : clear implicits.
Arguments locals D : clear implicits.
End QuantumHO.

(** ** simplemax.c, the earlier prototype of the builder *)

Module SimpleMax.
Section Defs.
Context {D : Type} {Fl : Flt D} {U : Uninit D}.
Local Open Scope cmd_scope.
Import QuantumHO.

(** [t_simplemax]; its outlet is the one named ["out"]. *)
Record t_simplemax : Type := mk_simplemax {
  n : Z;
  a : D
}.

(** [simplemax.c] tests no pointer it obtains.  A failed request brings the
    process down at the first store through the pointer, which happens
    before anything is sent to the host whenever [n > 0]; the model lets the
    request itself crash in that case.  With [n <= 0] no loop body runs and
    the pointer is never used. *)
Definition unchecked {A : Type} (n : Z) (null : A) (m : M D (option A)) : M D A :=
  p <- m ;;
  match p with
  | Some v => ret v
  | None => if 0 <? n then crash else ret null
  end.

Fixpoint malloc_rows (k : nat) (n : Z) (rows : matrix D) : M D (matrix D) :=
  match k with
  | O => ret rows
  | Datatypes.S k' =>
      row <- unchecked n [] (malloc_complex n) ;;
      malloc_rows k' n (rows ++ [row])
  end.

(** The row table and the [n] rows of one matrix, all from [malloc]: the
    cells hold arbitrary values.  (The source requests the rows of [F] and
    [Finv] in turn, and those of [P_temp], [P] and [P2] between the
    computations of the rows; the number of requests and the outcome, a
    crash exactly when one of them fails, are the same.) *)
Definition malloc_matrix (n : Z) : M D (matrix D) :=
  unchecked n tt (ok <- request ;; ret (if (ok : bool) then Some tt else None)) ;;;
  malloc_rows (Z.to_nat n) n [].

Definition compute_fourier_matrix (F : matrix D) (n : Z) : matrix D :=
  let norm := ddiv d1 (dsqrt (of_long n)) in
  for_long n (fun k F =>
    for_long n (fun l F =>
      let angle :=
        ddiv (dmul (dmul (dmul d2 dM_PI) (of_long k)) (of_long l)) (of_long n) in
      mset F k l (rcmul norm (rcadd (dcos angle) (crmul CI (dsin angle)))))
    F) F.

Definition conjugate_transpose (n : Z) (F Finv : matrix D) : matrix D :=
  for_long n (fun i Finv =>
    for_long n (fun j Finv => mset Finv i j (conj (mget F j i))) Finv) Finv.

Definition fill_PImpulse (n : Z) (PImpulse : list D) : list D :=
  for_long n (fun i PImpulse => upd PImpulse i (of_long i)) PImpulse.

(** [P_temp[i][j] = PImpulse[i] * F[i][j]] *)
Definition fill_P_temp (n : Z) (PImpulse : list D) (F P_temp : matrix D) : matrix D :=
  for_long n (fun i P_temp =>
    for_long n (fun j P_temp =>
      mset P_temp i j (rcmul (get d0 PImpulse i) (mget F i j))) P_temp) P_temp.

(** [R[i][j] = 0; for (k ...) R[i][j] += A[i][k] * B[k][j];] *)
Definition accumulate (n : Z) (A B : matrix D) (i j : Z) (R : matrix D) : matrix D :=
  let R := mset R i j (c_of_real d0) in
  for_long n (fun k R =>
    mset R i j (cadd (mget R i j) (cmul (mget A i k) (mget B k j)))) R.

Definition product (n : Z) (A B R : matrix D) : matrix D :=
  for_long n (fun i R => for_long n (fun j R => accumulate n A B i j R) R) R.

(** [Q_diag[i] = -((n-1)*a/2.0) + i] *)
Definition fill_Q_diag (n : Z) (a : D) (Q_diag : list D) : list D :=
  for_long n (fun i Q_diag =>
    upd Q_diag i
      (dadd (dneg (ddiv (dmul (of_long (CLong.sub n 1)) a) d2)) (of_long i)))
    Q_diag.

Definition fill_Q2_diag (n : Z) (Q_diag Q2_diag : list D) : list D :=
  for_long n (fun i Q2_diag =>
    upd Q2_diag i (dmul (get d0 Q_diag i) (get d0 Q_diag i))) Q2_diag.

Definition build_H (n : Z) (P2 : matrix D) (Q2_diag : list D) (H : matrix D) : matrix D :=
  for_long n (fun i H =>
    for_long n (fun j H =>
      if i =? j then mset H i j (rcmul dhalf (cradd (mget P2 i j) (get d0 Q2_diag i)))
      else mset H i j (rcmul dhalf (mget P2 i j))) H) H.

(** [compute_harmonic_oscillator(x, H)]; the result is [H] after the call. *)
Definition compute_harmonic_oscillator (x : t_simplemax) (H : matrix D) : M D (matrix D) :=
  let n := n x in
  let a := a x in
  F <- malloc_matrix n ;;
  Finv <- malloc_matrix n ;;
  let F := compute_fourier_matrix F n in
  let Finv := conjugate_transpose n F Finv in
  PImpulse <- unchecked n [] (malloc_doubles n) ;;
  let PImpulse := fill_PImpulse n PImpulse in
  P_temp <- malloc_matrix n ;;
  let P_temp := fill_P_temp n PImpulse F P_temp in
  P <- malloc_matrix n ;;
  let P := product n Finv P_temp P in
  Q_diag <- unchecked n [] (malloc_doubles n) ;;
  let Q_diag := fill_Q_diag n a Q_diag in
  P2 <- malloc_matrix n ;;
  let P2 := product n P P P2 in
  Q2_diag <- unchecked n [] (malloc_doubles n) ;;
  let Q2_diag := fill_Q2_diag n Q_diag Q2_diag in
  ret (build_H n P2 Q2_diag H).

Definition simplemax_new (argv : list (atom D)) : M D (option t_simplemax) :=
  ok <- request ;;
  if (ok : bool) then
    let n := match argv with a0 :: _ => atom_getlong a0 | [] => 8 end in
    let a := match argv with _ :: a1 :: _ => atom_getfloat a1 | _ => d1 end in
    ret (Some (mk_simplemax n a))
  else ret None.

(** The loop nest of [simplemax_bang]: real parts only, one atom per
    entry. *)
Definition flatten (n : Z) (H : matrix D) (out_list : list (atom D)) : list (atom D) :=
  for_long n (fun i out_list =>
    for_long n (fun j out_list =>
      upd out_list (CLong.add (CLong.mul i n) j) (A_FLOAT (creal (mget H i j))))
    out_list) out_list.

Definition simplemax_bang (x : t_simplemax) : M D unit :=
  let n := n x in
  H <- malloc_matrix n ;;
  H <- compute_harmonic_oscillator x H ;;
  out_list <- unchecked n [] (sysmem_newptr_atoms (CLong.mul n n)) ;;
  let out_list := flatten n H out_list in
  send_list "out" (CLong.mul n n) out_list.

End Defs.
Arguments t_simplemax D : clear implicits.
End SimpleMax.

(** ** qte.eigencalc.c *)

Module Eigencalc.

(** What the arguments of [zheev_] point to; LAPACK takes every argument by
    reference. *)
Record zheev_frame (D : Type) : Type := mk_frame {
  z_jobz : string;
  z_uplo : string;
  z_N : Z;
  z_A : list (D * D);
  z_LDA : Z;
  z_w : list D;
  z_work : list (D * D);
  z_lwork : Z;
  z_rwork : list D;
  z_info : Z
}.
Arguments mk_frame {D}.
Arguments z_jobz {D}.
Arguments z_uplo {D}.
Arguments z_N {D}.
Arguments z_A {D}.
Arguments z_LDA {D}.
Arguments z_w {D}.
Arguments z_work {D}.
Arguments z_lwork {D}.
Arguments z_rwork {D}.
Arguments z_info {D}.

(** What [qte.eigencalc.c] takes from the Accelerate framework, whose headers
    are not among the sources: the integer type [__CLPK_integer], given by
    the reduction of an integer to its range, and the routine [zheev_], given
    by what it leaves in the storage it was handed. *)
Class Lapack (D : Type) : Type := {
  clpk_integer : Z -> Z;
  zheev_ : zheev_frame D -> zheev_frame D
}.

Section Defs.
Context {D : Type} {Fl : Flt D} {U : Uninit D} {L : Lapack D}.
Local Open Scope cmd_scope.

(** [t_qte_eigencalc]; [matrix] is NULL ([None]) or the stored matrix, in
    row-major order.  The outlets are the ones named ["out_eigenvalues"] and
    ["out_eigenvectors"]. *)
Record t_qte_eigencalc : Type := mk_eigencalc {
  n : Z;
  matrix : option (list (@cplx D))
}.

Definition qte_eigencalc_new (argv : list (atom D)) : M D (option t_qte_eigencalc) :=
  ok <- request ;;
  if (ok : bool) then
    let n := 3 in
    let n :=
      match argv with
      | a0 :: _ => let tmp := atom_getlong a0 in if 0 <? tmp then tmp else n
      | [] => n
      end in
    ret (Some (mk_eigencalc n None))
  else ret None.

(** The [dim] message; the result is the object after the call. *)
Definition qte_eigencalc_dim (x : t_qte_eigencalc) (n' : Z) : M D t_qte_eigencalc :=
  if n' <=? 0 then
    tell (object_error "dim must be > 0" []) ;;;
    ret x
  else if n x =? n' then
    ret x
  else
    tell (object_post "Dimension set to %ld" [n']) ;;;
    ret (mk_eigencalc n' None).

(** The loop of [qte_eigencalc_list] that reads the atoms. *)
Definition read_atoms (count : Z) (argv : list (atom D)) (m : list cplx) : list cplx :=
  for_long count (fun i m =>
    let re := atom_getfloat (get junk_atom argv (CLong.mul 2 i)) in
    let im := atom_getfloat (get junk_atom argv (CLong.add (CLong.mul 2 i) 1)) in
    upd m i (re, im)) m.

(** The [list] message; [argc] is the length of [argv]; the result is the
    object after the call. *)
Definition qte_eigencalc_list (x : t_qte_eigencalc) (argv : list (atom D))
  : M D t_qte_eigencalc :=
  let argc := Z.of_nat (List.length argv) in
  let n := n x in
  let total := CLong.mul (CLong.mul 2 n) n in
  if negb (argc =? total) then
    tell (object_error "Expected %ld floats for complex matrix, got %ld" [total; argc]) ;;;
    ret x
  else
    (* if (x->matrix) free(x->matrix); *)
    m <- malloc_complex (CLong.mul n n) ;;
    match m with
    | None =>
        let x := mk_eigencalc n None in
        tell (object_error "Memory allocation failed for matrix storage." []) ;;;
        ret x
    | Some m =>
        let m := read_atoms (CLong.mul n n) argv m in
        let x := mk_eigencalc n (Some m) in
        tell (object_post "Complex matrix stored (dimension %ld)." [n]) ;;;
        ret x
    end.

(** Row-major to column-major copy. *)
Definition to_column_major (n : Z) (m A : list cplx) : list cplx :=
  for_long n (fun i A =>
    for_long n (fun j A =>
      upd A (CLong.add (CLong.mul j n) i)
            (get (d0, d0) m (CLong.add (CLong.mul i n) j))) A) A.

Definition fill_eigvals (n : Z) (w : list D) (eigvals_list : list (atom D))
  : list (atom D) :=
  for_long n (fun i eigvals_list => upd eigvals_list i (A_FLOAT (get d0 w i)))
    eigvals_list.

Definition fill_eigvecs (n : Z) (A : list cplx) (eigvecs_list : list (atom D))
  : list (atom D) :=
  for_long n (fun j eigvecs_list =>
    for_long n (fun i eigvecs_list =>
      let z := get (d0, d0) A (CLong.add (CLong.mul j n) i) in
      let idx := CLong.mul 2 (CLong.add (CLong.mul j n) i) in
      let eigvecs_list := upd eigvecs_list idx (A_FLOAT (creal z)) in
      upd eigvecs_list (CLong.add idx 1) (A_FLOAT (cimag z)))
    eigvecs_list) eigvecs_list.

(** The first call of [zheev_], the workspace query ([lwork = -1], the
    one-cell [work_query] as workspace). *)
Definition workspace_query (n : Z) (A : list cplx) (w rwork : list D) : zheev_frame D :=
  let N := clpk_integer n in
  let lwork := clpk_integer (-1) in
  let work_query := (junk, junk) in
  zheev_ (mk_frame "V" "U" N A N w [work_query] lwork rwork junk_int).

(** [lwork] as it is set after the query. *)
Definition work_size (f1 : zheev_frame D) : Z :=
  let work_query := get (d0, d0) (z_work f1) 0 in
  let lwork := clpk_integer (clpk_integer (to_long (creal work_query)) + 1) in
  if lwork <? 1 then 1 else lwork.

(** The second call of [zheev_], the decomposition itself, on the storage
    the query left. *)
Definition decomposition (f1 : zheev_frame D) (work : list cplx) : zheev_frame D :=
  zheev_ (mk_frame (z_jobz f1) (z_uplo f1) (z_N f1) (z_A f1) (z_LDA f1) (z_w f1)
                   work (work_size f1) (z_rwork f1) (z_info f1)).

(** The [bang] message.  The object itself is only read. *)
Definition qte_eigencalc_bang (x : t_qte_eigencalc) : M D unit :=
  match matrix x with
  | None => tell (object_error "No matrix stored. Use a list message first." [])
  | Some m =>
      let n := n x in
      let N := clpk_integer n in
      let total := clpk_integer (N * N) in
      A <- malloc_complex total ;;
      match A with
      | None => tell (object_error "Memory allocation failed for LAPACK matrix." [])
      | Some A =>
      let A := to_column_major n m A in
      w <- malloc_doubles n ;;
      match w with
      | None => tell (object_error "Memory allocation failed for eigenvalues." [])
      | Some w =>
      let rwork_dim := clpk_integer (clpk_integer (3 * N) - 2) in
      rwork <- malloc_doubles rwork_dim ;;
      match rwork with
      | None => tell (object_error "Memory allocation failed for rwork." [])
      | Some rwork =>
      let f1 := workspace_query n A w rwork in
      if negb (z_info f1 =? 0) then
        tell (object_error "zheev_ workspace query error: info=%d" [z_info f1])
      else
      work <- malloc_complex (work_size f1) ;;
      match work with
      | None => tell (object_error "Memory allocation failed for work." [])
      | Some work =>
      let f2 := decomposition f1 work in
      if negb (z_info f2 =? 0) then
        tell (object_error "Eigen-decomposition failed: info=%d" [z_info f2])
      else
      eigvals_list <- sysmem_newptr_atoms n ;;
      match eigvals_list with
      | None =>
          tell (object_error "Memory allocation failed for eigenvalue output list." [])
      | Some eigvals_list =>
      let eigvals_list := fill_eigvals n (z_w f2) eigvals_list in
      send_list "out_eigenvalues" n eigvals_list ;;;
      eigvecs_list <- sysmem_newptr_atoms (clpk_integer (2 * total)) ;;
      match eigvecs_list with
      | None =>
          tell (object_error "Memory allocation failed for eigenvector output list." [])
      | Some eigvecs_list =>
      let eigvecs_list := fill_eigvecs n (z_A f2) eigvecs_list in
      send_list "out_eigenvectors" (clpk_integer (2 * total)) eigvecs_list ;;;
      tell (object_post "Eigen-decomposition completed successfully." [])
      end end end end end end
  end.

(** The messages the class registers in [ext_main]. *)
Inductive message : Type :=
| msg_dim (n : Z)
| msg_list (argv : list (atom D))
| msg_bang.

(** One message handled by the object [x]; the result is the object after
    the call.  No statement of [qte_eigencalc_bang] stores into the object or
    into the matrix it points to. *)
Definition handle (x : t_qte_eigencalc) (msg : message) : M D t_qte_eigencalc :=
  match msg with
  | msg_dim n' => qte_eigencalc_dim x n'
  | msg_list argv => qte_eigencalc_list x argv
  | msg_bang => qte_eigencalc_bang x ;;; ret x
  end.

End Defs.
Arguments t_qte_eigencalc D : clear implicits.
Arguments message D : clear implicits.
End Eigencalc.

(** ** Exact arithmetic: [D] is the field of real numbers *)

Module Exact.

(** [round]: nearest integer, halves away from zero. *)
Definition Rround (x : R) : R :=
  if Rle_dec 0 x then IZR (Int_part (x + / 2)) else (- IZR (Int_part (- x + / 2)))%R.

(** Conversion to [long]: truncation toward zero.  Outside the range of
    [long] the conversion is undefined in C; the model leaves the integer
    unbounded there, and no statement below rests on such an argument. *)
Definition Rtrunc (x : R) : Z :=
  if Rle_dec 0 x then Int_part x else - Int_part (- x).

#[export] Instance RealFlt : Flt R := {|
  of_long := IZR;
  dhalf := (1 / 2)%R;
  dM_PI := PI;
  dadd := Rplus;
  dmul := Rmult;
  ddiv := Rdiv;
  dneg := Ropp;
  dsqrt := sqrt;
  dcos := cos;
  dsin := sin;
  dround := Rround;
  to_long := Rtrunc
|}.

(** Complex numbers over the reals, as the formulas of the documentation use
    them. *)
Definition C : Type := (R * R)%type.
Definition Cplus (z w : C) : C := (fst z + fst w, snd z + snd w)%R.
Definition Cmult (z w : C) : C :=
  (fst z * fst w - snd z * snd w, fst z * snd w + snd z * fst w)%R.
Definition Cconj (z : C) : C := (fst z, - snd z)%R.
Definition Cscal (x : R) (z : C) : C := (x * fst z, x * snd z)%R.
Definition RtoC (x : R) : C := (x, 0%R).

(** [sum_{k = 0}^{m - 1} f k] *)
Fixpoint Csum_nat (m : nat) (f : Z -> C) : C :=
  match m with
  | O => (0%R, 0%R)
  | Datatypes.S m' => Cplus (Csum_nat m' f) (f (Z.of_nat m'))
  end.
Definition Csum (n : Z) (f : Z -> C) : C := Csum_nat (Z.to_nat n) f.

(** The discrete Fourier matrix of the documentation:
    [F[k][l] = n^(-1/2) * exp(2 pi i k l / n)]. *)
Definition Fourier (n k l : Z) : C :=
  Cscal (/ sqrt (IZR n))
        (cos (2 * PI * IZR k * IZR l / IZR n), sin (2 * PI * IZR k * IZR l / IZR n))%R.

(** The momentum operator of the documentation, [F diag(0..n-1) F^*]:
    [P[i][j] = sum_k F[i][k] * k * conj(F[j][k])]. *)
Definition Momentum (n i j : Z) : C :=
  Csum n (fun k => Cmult (Cmult (Fourier n i k) (RtoC (IZR k))) (Cconj (Fourier n j k))).

(** The position operator of the documentation:
    [Q[i] = a * (-(n-1)/2 + i)]. *)
Definition Position (n : Z) (a : R) (i : Z) : R :=
  (a * (- (IZR n - 1) / 2 + IZR i))%R.

(** A number with at most five decimals. *)
Definition five_decimals (v : R) : Prop := exists k : Z, (v * 100000)%R = IZR k.

(** [v] is [x] rounded to five decimals: the multiple of [10^-5] nearest to
    [x], the one away from zero when [x] lies halfway between two.  (Stated
    without [round]: this is what the rounding is meant to achieve.) *)
Definition nearest_five_decimals (x v : R) : Prop :=
  five_decimals v /\
  (Rabs (v - x) <= 1 / 200000)%R /\
  (Rabs (v - x) = 1 / 200000 -> Rabs x < Rabs v)%R.

End Exact.

(** ** The entries the loops of [compute_hamiltonian] compute *)

Module Entries.
Section Defs.
Context {D : Type} {Fl : Flt D}.

Definition F_entry (n k l : Z) : cplx :=
  let norm := ddiv d1 (dsqrt (of_long n)) in
  let angle := ddiv (dmul (dmul (dmul d2 dM_PI) (of_long k)) (of_long l)) (of_long n) in
  rcmul norm (rcadd (dcos angle) (crmul CI (dsin angle))).

Definition Finv_entry (n i j : Z) : cplx := conj (F_entry n j i).

Definition P_temp_entry (n i j : Z) : cplx := rcmul (of_long i) (Finv_entry n i j).

(** The accumulation loop of [multiply_complex_matrices] for cell [(i, j)]. *)
Definition dot (n : Z) (A B : Z -> Z -> cplx) (i j : Z) : cplx :=
  for_long n (fun k sum => cadd sum (cmul (A i k) (B k j))) (rcadd d0 (rcmul d0 CI)).

Definition P_entry (n i j : Z) : cplx := dot n (F_entry n) (P_temp_entry n) i j.

Definition P2_entry (n i j : Z) : cplx := dot n (P_entry n) (P_entry n) i j.

Definition Q_entry (n : Z) (a : D) (i : Z) : D :=
  dmul a (dadd (dneg (ddiv (of_long (CLong.sub n 1)) d2)) (of_long i)).

Definition val_entry (n : Z) (a : D) (i j : Z) : cplx :=
  let qterm :=
    if i =? j then rcadd (dmul (Q_entry n a i) (Q_entry n a i)) (rcmul d0 CI)
    else c_of_real d0 in
  rcmul dhalf (cadd (P2_entry n i j) qterm).

Definition H_entry (n : Z) (a : D) (i j : Z) : cplx :=
  let val := val_entry n a i j in
  rcadd (QuantumHO.round5 (creal val)) (crmul CI (QuantumHO.round5 (cimag val))).

End Defs.
End Entries.

(** ** The rounding as the documentation words it *)

Module Documented.
Section Defs.
Context {D : Type} {Fl : Flt D}.

(** "Multiply by 10^5, round to nearest integer, divide by 10^5", in the
    arithmetic of the program. *)
Definition times_round_divide (x : D) : D :=
  ddiv (dround (dmul x (of_long 100000))) (of_long 100000).

End Defs.
End Documented.

(** ** Shapes and summaries used in the statements *)

Module Shape.
Section Defs.
Context {D : Type} {Fl : Flt D}.

(** [M] has [n] rows of [n] cells. *)
Definition square (n : Z) (M : QuantumHO.matrix D) : Prop :=
  List.length M = Z.to_nat n /\ Forall (fun r => List.length r = Z.to_nat n) M.

(** Every local of [compute_hamiltonian] holds, cell by cell, the entry its
    loop computes. *)
Record locals_ok (n : Z) (a : D) (L : QuantumHO.locals D) : Prop := {
  ok_F : forall k l, 0 <= k < n -> 0 <= l < n ->
      QuantumHO.mget (QuantumHO.l_F L) k l = Entries.F_entry n k l;
  ok_Finv : forall i j, 0 <= i < n -> 0 <= j < n ->
      QuantumHO.mget (QuantumHO.l_Finv L) i j = Entries.Finv_entry n i j;
  ok_PImpulse : forall i, 0 <= i < n ->
      get d0 (QuantumHO.l_PImpulse L) i = of_long i;
  ok_P_temp : forall i j, 0 <= i < n -> 0 <= j < n ->
      QuantumHO.mget (QuantumHO.l_P_temp L) i j = Entries.P_temp_entry n i j;
  ok_P : forall i j, 0 <= i < n -> 0 <= j < n ->
      QuantumHO.mget (QuantumHO.l_P L) i j = Entries.P_entry n i j;
  ok_P2 : forall i j, 0 <= i < n -> 0 <= j < n ->
      QuantumHO.mget (QuantumHO.l_P2 L) i j = Entries.P2_entry n i j;
  ok_Q_diag : forall i, 0 <= i < n ->
      get d0 (QuantumHO.l_Q_diag L) i = Entries.Q_entry n a i;
  ok_H : forall i j, 0 <= i < n -> 0 <= j < n ->
      QuantumHO.mget (QuantumHO.l_H L) i j = Entries.H_entry n a i j;
  ok_H_square : square n (QuantumHO.l_H L)
}.

(** The list [l] is the row-major, interleaved image of the [n] x [n] matrix
    with entries [h]. *)
Definition row_major_interleaved (n : Z) (h : Z -> Z -> cplx) (l : list (atom D)) : Prop :=
  Z.of_nat (List.length l) = 2 * n * n /\
  forall i j, 0 <= i < n -> 0 <= j < n ->
    get (A_SYM "") l (2 * (i * n + j)) = A_FLOAT (creal (h i j)) /\
    get (A_SYM "") l (2 * (i * n + j) + 1) = A_FLOAT (cimag (h i j)).

(** The command [m] sends nothing to the host, whatever its outcome. *)
Definition quiet {A : Type} (m : M D A) : Prop :=
  forall w r w', m w = (r, w') -> log w' = log w.

(** The command [m] returns, whatever the allocations do. *)
Definition returns {A : Type} (m : M D A) : Prop :=
  forall w, exists a w', m w = (Value a, w').

(** Run twice with every allocation served, the command [m] has the same
    outcome and sends the same events. *)
Definition steady {A : Type} (m : M D A) : Prop :=
  forall w v, plentiful w -> plentiful v ->
    exists r evs w' v',
      m w = (r, w') /\ m v = (r, v') /\
      log w' = log w ++ evs /\ log v' = log v ++ evs /\
      plentiful w' /\ plentiful v'.

End Defs.
End Shape.

(** ** Concrete inputs, for the examples *)

Module Sample.
Import Exact.

(** Unwritten storage that happens to hold zeros. *)
Definition zeros : Uninit R := {|
  junk := 0%R;
  junk_int := 0;
  junk_atom := A_SYM ""
|}.

(** A stand-in for the Accelerate framework, only to have an instance at
    hand: a 32-bit [__CLPK_integer], and a routine that reports success and
    leaves the storage as it found it.  Nothing is proved about LAPACK from
    it. *)
Definition idle_lapack : Eigencalc.Lapack R := {|
  Eigencalc.clpk_integer := fun z => (z + 2 ^ 31) mod 2 ^ 32 - 2 ^ 31;
  Eigencalc.zheev_ := fun f =>
    Eigencalc.mk_frame (Eigencalc.z_jobz f) (Eigencalc.z_uplo f) (Eigencalc.z_N f)
      (Eigencalc.z_A f) (Eigencalc.z_LDA f) (Eigencalc.z_w f) (Eigencalc.z_work f)
      (Eigencalc.z_lwork f) (Eigencalc.z_rwork f) 0
|}.

(** A world where nothing was sent yet and no allocation will fail. *)
Definition calm : world R := mkWorld [] [].

(** A world where the next allocation fails. *)
Definition exhausted : world R := mkWorld [false] [].

(** [qte.quantumho 2 1.] *)
Definition ho_2 : QuantumHO.t_qte_quantumho R := QuantumHO.mk_quantumho 2 1%R.

(** [qte.quantumho 1 1.] *)
Definition ho_1 : QuantumHO.t_qte_quantumho R := QuantumHO.mk_quantumho 1 1%R.

(** [qte.eigencalc 1] holding the 1 x 1 matrix [(5)]. *)
Definition ready_1 : Eigencalc.t_qte_eigencalc R :=
  Eigencalc.mk_eigencalc 1 (Some [(5%R, 0%R)]).

(** [qte.eigencalc 3] before any list message. *)
Definition empty_3 : Eigencalc.t_qte_eigencalc R := Eigencalc.mk_eigencalc 3 None.

End Sample.

(** ** Sequences of messages to the eigen-solver *)

Module Session.
Section Defs.
Context {D : Type} {Fl : Flt D} {U : Uninit D} {L : Eigencalc.Lapack D}.

(** The messages of [msgs] handled one after the other, first one first. *)
Fixpoint handle_all (x : Eigencalc.t_qte_eigencalc D) (msgs : list (Eigencalc.message D))
  : M D (Eigencalc.t_qte_eigencalc D) :=
  match msgs with
  | [] => ret x
  | msg :: rest => bind (Eigencalc.handle x msg) (fun x' => handle_all x' rest)
  end.

(** The dimension is positive and the stored matrix, if there is one, has
    the [n * n] cells (as [long] arithmetic computes the product) that [bang]
    reads. *)
Definition well_formed (x : Eigencalc.t_qte_eigencalc D) : Prop :=
  0 < Eigencalc.n x /\
  forall m, Eigencalc.matrix x = Some m ->
    List.length m = Z.to_nat (CLong.mul (Eigencalc.n x) (Eigencalc.n x)).

(** A dimension the solver is built for: positive, and with [2 n^2] within
    the 32 bits of [__CLPK_integer] and of the [long] products.  For such a
    dimension every index the loops of the solver compute lies inside the
    array it is used on. *)
Definition fits (n : Z) : Prop := 0 < n /\ 2 * n * n < 2 ^ 31.

(** A [dim] message that is not rejected asks for such a dimension. *)
Definition message_fits (msg : Eigencalc.message D) : Prop :=
  match msg with
  | Eigencalc.msg_dim n' => 0 < n' -> fits n'
  | _ => True
  end.

(** The stored matrix, if there is one, has [n * n] cells. *)
Definition sized (x : Eigencalc.t_qte_eigencalc D) : Prop :=
  forall m, Eigencalc.matrix x = Some m ->
    Z.of_nat (List.length m) = Eigencalc.n x * Eigencalc.n x.

(** The storage [zheev_] leaves after the workspace query of [bang], when
    the object holds [m] and every allocation is served. *)
Definition query_frame (x : Eigencalc.t_qte_eigencalc D) (m : list cplx)
  : Eigencalc.zheev_frame D :=
  let N := Eigencalc.clpk_integer (Eigencalc.n x) in
  let total := Eigencalc.clpk_integer (N * N) in
  let A := Eigencalc.to_column_major (Eigencalc.n x) m
             (repeat (junk, junk) (Z.to_nat total)) in
  Eigencalc.workspace_query (Eigencalc.n x) A (repeat junk (Z.to_nat (Eigencalc.n x)))
    (repeat junk
       (Z.to_nat (Eigencalc.clpk_integer (Eigencalc.clpk_integer (3 * N) - 2)))).

(** The storage [zheev_] leaves after the decomposition of [bang], in the
    same circumstances. *)
Definition solved_frame (x : Eigencalc.t_qte_eigencalc D) (m : list cplx)
  : Eigencalc.zheev_frame D :=
  let f1 := query_frame x m in
  Eigencalc.decomposition f1 (repeat (junk, junk) (Z.to_nat (Eigencalc.work_size f1))).

(** [__CLPK_integer] holds the integers of 32 bits as they are. *)
Definition clpk_32 : Prop :=
  forall z, - 2 ^ 31 <= z < 2 ^ 31 -> Eigencalc.clpk_integer z = z.

(** [zheev_] leaves the arguments it only reads: [jobz], [uplo], [N], [LDA]
    and [lwork]. *)
Definition in_arguments_kept : Prop :=
  forall f : Eigencalc.zheev_frame D,
    Eigencalc.z_jobz (Eigencalc.zheev_ f) = Eigencalc.z_jobz f /\
    Eigencalc.z_uplo (Eigencalc.zheev_ f) = Eigencalc.z_uplo f /\
    Eigencalc.z_N (Eigencalc.zheev_ f) = Eigencalc.z_N f /\
    Eigencalc.z_LDA (Eigencalc.zheev_ f) = Eigencalc.z_LDA f /\
    Eigencalc.z_lwork (Eigencalc.zheev_ f) = Eigencalc.z_lwork f.

(** What [zheev_] returns is determined by the arguments it reads ([jobz],
    [uplo], [N], [A], [LDA], [lwork]) and not by what [w], [work], [rwork]
    and [info] hold on entry, which LAPACK documents as output or workspace:
    two calls that agree on the former agree on [A] and [info] afterwards
    and, when [info = 0], on the size left in [work[0]] and (unless the call
    is a workspace query, [lwork = -1]) on the [N] eigenvalues in [w]. *)
Definition outputs_from_inputs : Prop :=
  forall f g : Eigencalc.zheev_frame D,
    Eigencalc.z_jobz f = Eigencalc.z_jobz g ->
    Eigencalc.z_uplo f = Eigencalc.z_uplo g ->
    Eigencalc.z_N f = Eigencalc.z_N g ->
    Eigencalc.z_A f = Eigencalc.z_A g ->
    Eigencalc.z_LDA f = Eigencalc.z_LDA g ->
    Eigencalc.z_lwork f = Eigencalc.z_lwork g ->
    Eigencalc.z_A (Eigencalc.zheev_ f) = Eigencalc.z_A (Eigencalc.zheev_ g) /\
    Eigencalc.z_info (Eigencalc.zheev_ f) = Eigencalc.z_info (Eigencalc.zheev_ g) /\
    (Eigencalc.z_info (Eigencalc.zheev_ f) = 0 ->
       creal (get (d0, d0) (Eigencalc.z_work (Eigencalc.zheev_ f)) 0)
       = creal (get (d0, d0) (Eigencalc.z_work (Eigencalc.zheev_ g)) 0)) /\
    (Eigencalc.z_info (Eigencalc.zheev_ f) = 0 -> Eigencalc.z_lwork f <> -1 ->
       forall i, 0 <= i < Eigencalc.z_N f ->
         get d0 (Eigencalc.z_w (Eigencalc.zheev_ f)) i
         = get d0 (Eigencalc.z_w (Eigencalc.zheev_ g)) i).

(** What one [bang] can send, in this order. *)
Inductive bang_events (n : Z) : list (event D) -> Prop :=
| only_error (fmt : string) (args : list Z) :
    bang_events n [object_error fmt args]
| eigenvalues_then_error (vals : list (atom D)) :
    bang_events n
      [outlet_list "out_eigenvalues" n vals;
       object_error "Memory allocation failed for eigenvector output list." []]
| both_lists (vals vecs : list (atom D)) (argc : Z) :
    bang_events n
      [outlet_list "out_eigenvalues" n vals;
       outlet_list "out_eigenvectors" argc vecs;
       object_post "Eigen-decomposition completed successfully." []].

End Defs.
End Session.

(** ** The entries the loops of the prototype compute *)

Module ProtoEntries.
Section Defs.
Context {D : Type} {Fl : Flt D}.

Definition P_temp_entry (n i j : Z) : cplx :=
  rcmul (of_long i) (Entries.F_entry n i j).

(** The accumulation of [simplemax.c] for cell [(i, j)], started from the
    integer 0. *)
Definition dot (n : Z) (A B : Z -> Z -> cplx) (i j : Z) : cplx :=
  for_long n (fun k sum => cadd sum (cmul (A i k) (B k j))) (c_of_real d0).

Definition P_entry (n i j : Z) : cplx :=
  dot n (Entries.Finv_entry n) (P_temp_entry n) i j.

Definition Q_entry (n : Z) (a : D) (i : Z) : D :=
  dadd (dneg (ddiv (dmul (of_long (CLong.sub n 1)) a) d2)) (of_long i).

Definition P2_entry (n i j : Z) : cplx := dot n (P_entry n) (P_entry n) i j.

Definition H_entry (n : Z) (a : D) (i j : Z) : cplx :=
  if i =? j
  then rcmul dhalf (cradd (P2_entry n i j) (dmul (Q_entry n a i) (Q_entry n a i)))
  else rcmul dhalf (P2_entry n i j).

End Defs.
End ProtoEntries.

(** ** Further concrete inputs: refused allocations, failing LAPACK calls *)

Module Faults.
Import Exact.

(** A world where the first [k] allocations are served and the next one is
    refused. *)
Definition refusing_after (k : nat) : world R := mkWorld (repeat true k ++ [false]) [].

(** A stand-in for [zheev_] that fails already at the workspace query: every
    call reports [info = 1]. *)
Definition stalled_lapack : Eigencalc.Lapack R := {|
  Eigencalc.clpk_integer := fun z => (z + 2 ^ 31) mod 2 ^ 32 - 2 ^ 31;
  Eigencalc.zheev_ := fun f =>
    Eigencalc.mk_frame (Eigencalc.z_jobz f) (Eigencalc.z_uplo f) (Eigencalc.z_N f)
      (Eigencalc.z_A f) (Eigencalc.z_LDA f) (Eigencalc.z_w f) (Eigencalc.z_work f)
      (Eigencalc.z_lwork f) (Eigencalc.z_rwork f) 1
|}.

(** A stand-in for [zheev_] that answers the workspace query (a call with a
    negative [lwork]) and fails to converge in the decomposition: that call
    reports [info = 2]. *)
Definition diverging_lapack : Eigencalc.Lapack R := {|
  Eigencalc.clpk_integer := fun z => (z + 2 ^ 31) mod 2 ^ 32 - 2 ^ 31;
  Eigencalc.zheev_ := fun f =>
    Eigencalc.mk_frame (Eigencalc.z_jobz f) (Eigencalc.z_uplo f) (Eigencalc.z_N f)
      (Eigencalc.z_A f) (Eigencalc.z_LDA f) (Eigencalc.z_w f) (Eigencalc.z_work f)
      (Eigencalc.z_lwork f) (Eigencalc.z_rwork f)
      (if Eigencalc.z_lwork f <? 0 then 0 else 2)
|}.

(** [qte.eigencalc 2] before any list message. *)
Definition empty_2 : Eigencalc.t_qte_eigencalc R := Eigencalc.mk_eigencalc 2 None.

(** The 2 x 2 matrix [(1, 2+i; 2-i, 3)] as a list message carries it. *)
Definition cells_2 : list (atom R) :=
  [A_FLOAT 1%R; A_FLOAT 0%R; A_FLOAT 2%R; A_FLOAT 1%R;
   A_FLOAT 2%R; A_FLOAT (-1)%R; A_FLOAT 3%R; A_FLOAT 0%R].

(** The same matrix in row-major storage. *)
Definition stored_2 : list (R * R) :=
  [(1%R, 0%R); (2%R, 1%R); (2%R, (-1)%R); (3%R, 0%R)].

(** The same matrix as rows, and a second one. *)
Definition rows_2 : QuantumHO.matrix R :=
  [[(1%R, 0%R); (2%R, 1%R)]; [(2%R, (-1)%R); (3%R, 0%R)]].

Definition rows_2' : QuantumHO.matrix R :=
  [[(0%R, 1%R); (1%R, 0%R)]; [(5%R, 0%R); (0%R, (-2)%R)]].

(** A 2 x 2 matrix of zeros, to be written to. *)
Definition blank_2 : QuantumHO.matrix R :=
  [[(0%R, 0%R); (0%R, 0%R)]; [(0%R, 0%R); (0%R, 0%R)]].

(** [simplemax 2 1.] *)
Definition proto_2 : SimpleMax.t_simplemax R := SimpleMax.mk_simplemax 2 1%R.

(** The 2 x 2 diagonal matrix [diag(5, 7)] in row-major storage. *)
Definition stored_diagonal_2 : list (R * R) :=
  [(5%R, 0%R); (0%R, 0%R); (0%R, 0%R); (7%R, 0%R)].

(** Unwritten storage that happens to hold ones, not zeros. *)
Definition ones : Uninit R := {|
  junk := 1%R;
  junk_int := 1;
  junk_atom := A_LONG 1
|}.

(** A stand-in for [zheev_] that is right for diagonal matrices and reads
    what LAPACK reads.  A workspace query ([lwork = -1]) writes the size 1
    into [work[0]] and reports success.  Any other call writes the real parts
    of the diagonal of [A] into the first [N] cells of [w], overwrites [A]
    with the identity matrix (the eigenvectors) and reports success.  [jobz],
    [uplo], [N], [LDA] and [lwork] are left as they are. *)
Definition diagonal_lapack : Eigencalc.Lapack R := {|
  Eigencalc.clpk_integer := fun z => (z + 2 ^ 31) mod 2 ^ 32 - 2 ^ 31;
  Eigencalc.zheev_ := fun f =>
    let N := Eigencalc.z_N f in
    if Eigencalc.z_lwork f =? -1 then
      Eigencalc.mk_frame (Eigencalc.z_jobz f) (Eigencalc.z_uplo f) N
        (Eigencalc.z_A f) (Eigencalc.z_LDA f) (Eigencalc.z_w f)
        ((1%R, 0%R) :: tl (Eigencalc.z_work f))
        (Eigencalc.z_lwork f) (Eigencalc.z_rwork f) 0
    else
      Eigencalc.mk_frame (Eigencalc.z_jobz f) (Eigencalc.z_uplo f) N
        (map (fun p : nat =>
                if (Z.of_nat p) mod (N + 1) =? 0 then (1%R, 0%R) else (0%R, 0%R))
             (seq 0 (List.length (Eigencalc.z_A f))))
        (Eigencalc.z_LDA f)
        (map (fun i : nat => fst (get (0%R, 0%R) (Eigencalc.z_A f) (Z.of_nat i * (N + 1))))
             (seq 0 (Z.to_nat N))
         ++ skipn (Z.to_nat N) (Eigencalc.z_w f))
        ((1%R, 0%R) :: tl (Eigencalc.z_work f))
        (Eigencalc.z_lwork f) (Eigencalc.z_rwork f) 0
|}.

End Faults.

(** ** Binary floating point: [D] is IEEE 754 binary64 *)

(** C [double] on the platforms the objects are built for.  Addition,
    multiplication, division and square root are the kernel's primitive
    floats (binary64, round to nearest even), each operation rounded on its
    own (no fused multiply-add); [round] and the conversions are computed
    exactly from the mantissa and the exponent.  [cos] and [sin]
    belong to the C library and IEEE 754 does not fix their results: the
    table below gives them at the two arguments a run with [n = 2] reaches,
    [0] (where C Annex F prescribes [cos 0 = 1] and [sin 0 = 0]) and [M_PI]
    (where the doubles nearest to the true values are [-1] and
    [0x1.1a62633145c07p-53], about [1.2246e-16]); every other argument is
    outside the table and gives NaN, so this instance says nothing about
    runs with [n > 2]. *)
Module Binary64.
Import PrimFloat FloatOps SpecFloat.

(** [(double)z] for a [long] [z]. *)
Definition double_of_long (z : Z) : float :=
  if z =? - 2 ^ 63 then (-0x1p+63)%float
  else if z <? 0 then PrimFloat.opp (PrimFloat.of_uint63 (Uint63.of_Z (- z)))
  else PrimFloat.of_uint63 (Uint63.of_Z z).

(** [round]: nearest integer, halves away from zero; exact. *)
Definition round (x : float) : float :=
  match Prim2SF x with
  | S754_finite s m e =>
      if 0 <=? e then x
      else
        let q := Z.pos m / 2 ^ (- e) in
        let r := Z.pos m mod 2 ^ (- e) in
        let k := if 2 ^ (- e) <=? 2 * r then q + 1 else q in
        if s then PrimFloat.opp (double_of_long k) else double_of_long k
  | _ => x
  end.

(** [(long)x]: truncation toward zero; outside the range of [long] the
    conversion is undefined in C (x86-64 gives [LONG_MIN]). *)
Definition long_of_double (x : float) : Z :=
  match Prim2SF x with
  | S754_zero _ => 0
  | S754_finite s m e =>
      let k := if 0 <=? e then Z.pos m * 2 ^ e else Z.pos m / 2 ^ (- e) in
      let z := if s then - k else k in
      if (- 2 ^ 63 <=? z) && (z <? 2 ^ 63) then z else - 2 ^ 63
  | _ => - 2 ^ 63
  end.

Definition M_PI : float := 0x1.921fb54442d18p+1%float.

Definition libm_cos (x : float) : float :=
  if PrimFloat.eqb x 0%float then 1%float
  else if PrimFloat.eqb x M_PI then (-1)%float
  else PrimFloat.nan.

Definition libm_sin (x : float) : float :=
  if PrimFloat.eqb x 0%float then x
  else if PrimFloat.eqb x M_PI then 0x1.1a62633145c07p-53%float
  else PrimFloat.nan.

Definition double : Flt float := {|
  of_long := double_of_long;
  dhalf := 0.5%float;
  dM_PI := M_PI;
  dadd := PrimFloat.add;
  dmul := PrimFloat.mul;
  ddiv := PrimFloat.div;
  dneg := PrimFloat.opp;
  dsqrt := PrimFloat.sqrt;
  dcos := libm_cos;
  dsin := libm_sin;
  dround := round;
  to_long := long_of_double
|}.

(** Unwritten storage; NaN makes a read of it visible. *)
Definition unwritten : Uninit float := {|
  junk := PrimFloat.nan;
  junk_int := 0;
  junk_atom := A_SYM ""
|}.

(** The double [x] is an integer. *)
Definition is_integer (x : float) : bool :=
  match Prim2SF x with
  | S754_zero _ => true
  | S754_finite _ m e => if 0 <=? e then true else Z.pos m mod 2 ^ (- e) =? 0
  | _ => false
  end.

(** The real number [v * 10^5], [v] a double, is an integer. *)
Definition is_multiple_of_1e_5 (v : float) : bool :=
  match Prim2SF v with
  | S754_zero _ => true
  | S754_finite _ m e =>
      if 0 <=? e then true else (Z.pos m * 100000) mod 2 ^ (- e) =? 0
  | _ => false
  end.

(** The double [x] is finite. *)
Definition is_finite (x : float) : bool :=
  match Prim2SF x with
  | S754_zero _ | S754_finite _ _ _ => true
  | _ => false
  end.

(** [v * 100000.0] in doubles. *)
Definition times_100000 (v : float) : float := PrimFloat.mul v 100000%float.

(** Nothing sent yet, every allocation served. *)
Definition calm : world float := mkWorld [] [].

(** [qte.quantumho 2 2.75] *)
Definition ho_2_plain : QuantumHO.t_qte_quantumho float :=
  QuantumHO.mk_quantumho 2 2.75%float.

(** [qte.quantumho 2 a] with [a = 2^506], about [2.1e152]. *)
Definition ho_2_large : QuantumHO.t_qte_quantumho float :=
  QuantumHO.mk_quantumho 2 0x1p+506%float.

End Binary64.

(* ================================================================== *)
(** * Part II: properties                                              *)
(* ================================================================== *)

(** ** C [long]: no wrap-around inside the range *)

Lemma wrap_small (z : Z) :
  CLong.LONG_MIN <= z <= CLong.LONG_MAX -> CLong.wrap z = z.
Proof.
  unfold CLong.LONG_MIN, CLong.LONG_MAX, CLong.wrap. intros Hz.
  rewrite Z.mod_small; lia.
Qed.

(** ** Loops *)

Lemma for_from_inv {S : Type} (Inv : Z -> S -> Prop) (body : Z -> S -> S) :
  forall (k : nat) (i : Z) (s : S),
    Inv i s ->
    (forall j t, i <= j < i + Z.of_nat k -> Inv j t -> Inv (j + 1) (body j t)) ->
    Inv (i + Z.of_nat k) (for_from k i body s).
Proof.
  induction k as [|k IH]; intros i s H0 Hstep.
  - simpl. now replace (i + 0) with i by lia.
  - cbn [for_from].
    replace (i + Z.of_nat (Datatypes.S k)) with ((i + 1) + Z.of_nat k) by lia.
    apply IH.
    + apply Hstep; [lia | exact H0].
    + intros j t Hj. apply Hstep. lia.
Qed.

Lemma for_long_inv {S : Type} (Inv : Z -> S -> Prop) (body : Z -> S -> S) (n : Z) (s : S) :
  0 <= n ->
  Inv 0 s ->
  (forall j t, 0 <= j < n -> Inv j t -> Inv (j + 1) (body j t)) ->
  Inv n (for_long n body s).
Proof.
  intros Hn H0 Hstep. unfold for_long.
  replace n with (0 + Z.of_nat (Z.to_nat n)) at 1 by lia.
  apply for_from_inv; [exact H0|].
  intros j t Hj. apply Hstep. lia.
Qed.

Lemma for_long_nonpos {S : Type} (body : Z -> S -> S) (n : Z) (s : S) :
  n <= 0 -> for_long n body s = s.
Proof.
  intros Hn. unfold for_long. now replace (Z.to_nat n) with O by lia.
Qed.

(** A property that every iteration preserves holds after the loop. *)
Lemma for_long_preserves {S : Type} (P : S -> Prop) (body : Z -> S -> S) (n : Z) (s : S) :
  (forall j t, P t -> P (body j t)) -> P s -> P (for_long n body s).
Proof.
  intros Hstep. unfold for_long. generalize 0 as i. revert s.
  induction (Z.to_nat n) as [|k IH]; intros s i Hs; [exact Hs|].
  cbn [for_from]. apply IH. now apply Hstep.
Qed.

(** Two bodies that agree on the indices the loop visits give the same
    result. *)
Lemma for_from_ext {S : Type} (f g : Z -> S -> S) :
  forall (k : nat) (i : Z) (s : S),
    (forall j t, i <= j < i + Z.of_nat k -> f j t = g j t) ->
    for_from k i f s = for_from k i g s.
Proof.
  induction k as [|k IH]; intros i s Hfg; [reflexivity|].
  cbn [for_from]. rewrite (Hfg i s) by lia.
  apply IH. intros j t Hj. apply Hfg. lia.
Qed.

Lemma for_long_ext {S : Type} (f g : Z -> S -> S) (n : Z) (s : S) :
  (forall j t, 0 <= j < n -> f j t = g j t) ->
  for_long n f s = for_long n g s.
Proof.
  intros Hfg. unfold for_long. apply for_from_ext.
  intros j t Hj. apply Hfg. lia.
Qed.

(** ** Arrays *)

Lemma length_upd_nat {A : Type} (v : A) :
  forall (l : list A) (i : nat), List.length (upd_nat l i v) = List.length l.
Proof.
  induction l as [|h t IH]; intros [|i]; simpl; auto.
Qed.

Lemma length_upd {A : Type} (l : list A) (i : Z) (v : A) :
  List.length (upd l i v) = List.length l.
Proof.
  unfold upd. destruct (i <? 0); [reflexivity | apply length_upd_nat].
Qed.

Lemma nth_upd_nat_same {A : Type} (d v : A) :
  forall (l : list A) (i : nat),
    (i < List.length l)%nat -> nth i (upd_nat l i v) d = v.
Proof.
  induction l as [|h t IH]; intros [|i] Hi; simpl in *; try lia; auto.
  apply IH. lia.
Qed.

Lemma nth_upd_nat_other {A : Type} (d v : A) :
  forall (l : list A) (i j : nat),
    i <> j -> nth j (upd_nat l i v) d = nth j l d.
Proof.
  induction l as [|h t IH]; intros [|i] [|j] Hij; simpl; auto; try congruence.
Qed.

Lemma get_upd_same {A : Type} (d v : A) (l : list A) (i : Z) :
  0 <= i < Z.of_nat (List.length l) -> get d (upd l i v) i = v.
Proof.
  intros Hi. unfold get, upd.
  destruct (Z.ltb_spec i 0); [lia|].
  apply nth_upd_nat_same. lia.
Qed.

Lemma get_upd_other {A : Type} (d v : A) (l : list A) (i j : Z) :
  i <> j -> get d (upd l i v) j = get d l j.
Proof.
  intros Hij. unfold get, upd.
  destruct (Z.ltb_spec j 0); [reflexivity|].
  destruct (Z.ltb_spec i 0); [reflexivity|].
  apply nth_upd_nat_other. lia.
Qed.

Lemma Forall_upd_nat {A : Type} (P : A -> Prop) (v : A) :
  forall (l : list A) (i : nat),
    Forall P l -> ((i < List.length l)%nat -> P v) -> Forall P (upd_nat l i v).
Proof.
  induction l as [|h t IH]; intros [|i] Hl Hv; simpl in *; auto.
  - inversion Hl; subst. constructor; [apply Hv; lia | assumption].
  - inversion Hl; subst. constructor; [assumption|].
    apply IH; [assumption|]. intros Hi. apply Hv. lia.
Qed.

Lemma Forall_get {A : Type} (P : A -> Prop) (d : A) (l : list A) (i : Z) :
  Forall P l -> 0 <= i < Z.of_nat (List.length l) -> P (get d l i).
Proof.
  intros Hl Hi. unfold get. destruct (Z.ltb_spec i 0); [lia|].
  rewrite Forall_forall in Hl. apply Hl, nth_In. lia.
Qed.

(** A loop that stores [f i] at index [i], for every [i] below the length. *)
Lemma fill_array {A : Type} (d : A) (f : Z -> A) (n : Z) (l : list A) :
  List.length l = Z.to_nat n ->
  let l' := for_long n (fun i l => upd l i (f i)) l in
  List.length l' = Z.to_nat n /\
  forall i, 0 <= i < n -> get d l' i = f i.
Proof.
  intros Hlen. cbv zeta.
  destruct (Z.le_gt_cases n 0) as [Hn|Hn].
  - rewrite for_long_nonpos by assumption. split; [assumption | lia].
  - pose (Inv := fun (i : Z) (t : list A) =>
        List.length t = Z.to_nat n /\ forall i', 0 <= i' < i -> get d t i' = f i').
    apply (for_long_inv Inv); [lia | split; [assumption | lia] |].
    intros j t Hj [Ht Hpre]. split.
    + now rewrite length_upd.
    + intros i' Hi'. destruct (Z.eq_dec i' j) as [->|Hne].
      * apply get_upd_same. lia.
      * rewrite get_upd_other by congruence. apply Hpre. lia.
Qed.

(** A loop nest that writes cell [(i, j)] at step [(i, j)], one generic
    argument for the matrices and for the flat output lists. *)
Section NestedFill.
Variables (S V : Type) (n : Z).
Variable ok : S -> Prop.
Variable cell : S -> Z -> Z -> V.
Variable write : Z -> Z -> S -> S.
Variable val : Z -> Z -> V.

Hypothesis write_ok :
  forall i j s, 0 <= i < n -> 0 <= j < n -> ok s -> ok (write i j s).
Hypothesis write_same :
  forall i j s, 0 <= i < n -> 0 <= j < n -> ok s -> cell (write i j s) i j = val i j.
Hypothesis write_other :
  forall i j i' j' s,
    0 <= i < n -> 0 <= j < n -> 0 <= i' < n -> 0 <= j' < n ->
    (i', j') <> (i, j) -> ok s -> cell (write i j s) i' j' = cell s i' j'.

Lemma nested_fill (s : S) :
  ok s ->
  let s' := for_long n (fun i s => for_long n (fun j s => write i j s) s) s in
  ok s' /\ forall i j, 0 <= i < n -> 0 <= j < n -> cell s' i j = val i j.
Proof.
  intros Hs. cbv zeta.
  destruct (Z.le_gt_cases n 0) as [Hn|Hn].
  { rewrite for_long_nonpos by assumption. split; [assumption | lia]. }
  pose (Out := fun (i : Z) (t : S) =>
      ok t /\ forall i' j', 0 <= i' < i -> 0 <= j' < n -> cell t i' j' = val i' j').
  assert (HOut : Out n (for_long n (fun i s => for_long n (fun j s => write i j s) s) s)).
  { apply (for_long_inv Out); [lia | split; [assumption | lia] |].
    intros i t Hi [Ht Hrows].
    pose (In := fun (j : Z) (u : S) =>
        ok u /\
        (forall i' j', 0 <= i' < i -> 0 <= j' < n -> cell u i' j' = val i' j') /\
        (forall j', 0 <= j' < j -> cell u i j' = val i j')).
    assert (HIn : In n (for_long n (fun j s => write i j s) t)).
    { apply (for_long_inv In); [lia | repeat split; [assumption | assumption | lia] |].
      intros j u Hj (Hu & Hdone & Hrow). repeat split.
      - now apply write_ok.
      - intros i' j' Hi' Hj'. rewrite write_other; try assumption; try lia.
        + now apply Hdone.
        + intros E. inversion E. lia.
      - intros j' Hj'. destruct (Z.eq_dec j' j) as [->|Hne].
        + now apply write_same.
        + rewrite write_other; try assumption; try lia.
          * apply Hrow. lia.
          * intros E. inversion E. lia. }
    destruct HIn as (Hu & Hdone & Hrow). split; [assumption|].
    intros i' j' Hi' Hj'. destruct (Z.eq_dec i' i) as [->|Hne].
    - now apply Hrow.
    - apply Hdone; lia. }
  destruct HOut as [Hok Hall]. split; [assumption|].
  intros i j Hi Hj. now apply Hall.
Qed.

End NestedFill.

(** ** Running commands *)

Lemma bind_Value {D A B : Type} (m : M D A) (k : A -> M D B) (w w' : world D) (b : B) :
  bind m k w = (Value b, w') ->
  exists a w1, m w = (Value a, w1) /\ k a w1 = (Value b, w').
Proof.
  unfold bind. destruct (m w) as [[a|] w1]; intros E; [eauto | discriminate].
Qed.

Lemma bind_run {D A B : Type} (m : M D A) (k : A -> M D B) (w w1 : world D) (a : A) :
  m w = (Value a, w1) -> bind m k w = k a w1.
Proof. unfold bind. now intros ->. Qed.

(** Splits a hypothesis [H : (x <- m ;; k) w = (Value b, w')] into the run
    of [m] and the run of [k]. *)
Tactic Notation "split_bind" hyp(H) ident(a) ident(w1) ident(E1) :=
  apply bind_Value in H; destruct H as (a & w1 & E1 & H).

(** ** Allocation *)

Section AllocationFacts.
Context {D : Type} {Fl : Flt D} {U : Uninit D}.

Lemma request_Value (w w' : world D) (b : bool) :
  request w = (Value b, w') -> log w' = log w.
Proof.
  unfold request. destruct (heap w); intros E; inversion E; reflexivity.
Qed.

Lemma request_plentiful (w : world D) :
  plentiful w ->
  exists w', request w = (Value true, w') /\ plentiful w' /\ log w' = log w.
Proof.
  unfold plentiful, request. intros Hw.
  destruct (heap w) as [|b h] eqn:E.
  - exists w. rewrite E. repeat split. constructor.
  - inversion Hw; subst. exists (mkWorld h (log w)). repeat split. assumption.
Qed.

(** An allocation of [count] cells filled with [fill]: NULL or the cells; the
    log is not touched. *)
Lemma allocation_Value {A : Type} (fill : A) (count : Z) (o : option (list A))
      (w w' : world D) :
  bind request (fun ok : bool =>
    ret (if ok then Some (repeat fill (Z.to_nat count)) else None)) w = (Value o, w') ->
  log w' = log w /\ forall l, o = Some l -> List.length l = Z.to_nat count.
Proof.
  intros E. split_bind E b w1 Er. apply request_Value in Er.
  unfold ret in E. inversion E; subst. split; [assumption|].
  intros l Hl. destruct b; inversion Hl. apply repeat_length.
Qed.

Lemma allocation_plentiful {A : Type} (fill : A) (count : Z) (w : world D) :
  plentiful w ->
  exists l w',
    bind request (fun ok : bool =>
      ret (if ok then Some (repeat fill (Z.to_nat count)) else None)) w
    = (Value (Some l), w') /\ plentiful w' /\ log w' = log w.
Proof.
  intros Hw. destruct (request_plentiful w Hw) as (w1 & Er & Hw1 & Hlog).
  rewrite (bind_run _ _ _ _ _ Er). unfold ret. eauto.
Qed.

Lemma alloc_rows_Value (n : Z) :
  forall (k : nat) (rows : QuantumHO.matrix D) (o : option (QuantumHO.matrix D))
         (w w' : world D),
    QuantumHO.alloc_rows k n rows w = (Value o, w') ->
    Forall (fun r => List.length r = Z.to_nat n) rows ->
    log w' = log w /\
    forall M, o = Some M ->
      List.length M = (List.length rows + k)%nat /\
      Forall (fun r => List.length r = Z.to_nat n) M.
Proof.
  induction k as [|k IH]; intros rows o w w' E Hrows.
  - inversion E; subst. split; [reflexivity|].
    intros M HM. inversion HM; subst. split; [lia | assumption].
  - cbn [QuantumHO.alloc_rows] in E. split_bind E r w1 Er.
    apply allocation_Value in Er. destruct Er as [Hlog Hr].
    destruct r as [row|].
    + apply IH in E.
      * destruct E as [Hlog' HM]. split; [congruence|].
        intros M EM. destruct (HM M EM) as [Hlen Hall].
        rewrite length_app in Hlen. simpl in Hlen. split; [lia | assumption].
      * apply Forall_app. split; [assumption|]. constructor; [now apply Hr | constructor].
    + inversion E; subst. split; [assumption | discriminate].
Qed.

Lemma alloc_rows_plentiful (n : Z) :
  forall (k : nat) (rows : QuantumHO.matrix D) (w : world D),
    plentiful w ->
    exists M w', QuantumHO.alloc_rows k n rows w = (Value (Some M), w') /\ plentiful w'.
Proof.
  induction k as [|k IH]; intros rows w Hw.
  - exists rows, w. split; [reflexivity | assumption].
  - cbn [QuantumHO.alloc_rows].
    destruct (allocation_plentiful (d0, d0) n w Hw) as (row & w1 & Er & Hw1 & _).
    unfold calloc_complex. rewrite (bind_run _ _ _ _ _ Er). now apply IH.
Qed.

Lemma alloc_complex_matrix_Value (n : Z) (o : option (QuantumHO.matrix D))
      (w w' : world D) :
  QuantumHO.alloc_complex_matrix n w = (Value o, w') ->
  log w' = log w /\ forall M, o = Some M -> Shape.square n M.
Proof.
  unfold QuantumHO.alloc_complex_matrix. intros E.
  split_bind E b w1 Er. apply request_Value in Er.
  destruct b.
  - apply alloc_rows_Value in E; [|constructor].
    destruct E as [Hlog HM]. split; [congruence|].
    intros M EM. destruct (HM M EM) as [Hlen Hall]. simpl in Hlen. now split.
  - inversion E; subst. split; [assumption | discriminate].
Qed.

Lemma alloc_complex_matrix_plentiful (n : Z) (w : world D) :
  plentiful w ->
  exists M w', QuantumHO.alloc_complex_matrix n w = (Value (Some M), w') /\ plentiful w'.
Proof.
  intros Hw. unfold QuantumHO.alloc_complex_matrix.
  destruct (request_plentiful w Hw) as (w1 & Er & Hw1 & _).
  rewrite (bind_run _ _ _ _ _ Er). now apply alloc_rows_plentiful.
Qed.

End AllocationFacts.

(** ** Matrices *)

Section MatrixFacts.
Context {D : Type} {Fl : Flt D}.
Import QuantumHO Shape.

Lemma mset_square (n : Z) (M : matrix D) (i j : Z) (v : cplx) :
  square n M -> square n (mset M i j v).
Proof.
  intros [Hlen Hrows]. unfold mset, square. rewrite length_upd. split; [assumption|].
  unfold upd at 1. destruct (Z.ltb_spec i 0); [assumption|].
  apply Forall_upd_nat; [assumption|]. intros Hi.
  rewrite length_upd. apply (Forall_get _ [] M i Hrows). lia.
Qed.

Lemma mget_mset_same (n : Z) (M : matrix D) (i j : Z) (v : cplx) :
  square n M -> 0 <= i < n -> 0 <= j < n -> mget (mset M i j v) i j = v.
Proof.
  intros [Hlen Hrows] Hi Hj. unfold mget, mset.
  rewrite get_upd_same by lia. apply get_upd_same.
  assert (Hr : List.length (get [] M i) = Z.to_nat n)
    by (apply (Forall_get _ [] M i Hrows); lia).
  lia.
Qed.

Lemma mget_mset_other (n : Z) (M : matrix D) (i j i' j' : Z) (v : cplx) :
  square n M -> 0 <= i < n -> (i', j') <> (i, j) ->
  mget (mset M i j v) i' j' = mget M i' j'.
Proof.
  intros [Hlen Hrows] Hi Hne. unfold mget, mset.
  destruct (Z.eq_dec i' i) as [->|Hi'].
  - rewrite get_upd_same by lia. apply get_upd_other. congruence.
  - now rewrite get_upd_other by congruence.
Qed.

(** A loop nest that stores [f i j] in cell [(i, j)] of a square matrix. *)
Lemma matrix_fill (n : Z) (f : Z -> Z -> cplx) (M : matrix D) :
  square n M ->
  let M' := for_long n (fun i M => for_long n (fun j M => mset M i j (f i j)) M) M in
  square n M' /\ forall i j, 0 <= i < n -> 0 <= j < n -> mget M' i j = f i j.
Proof.
  intros HM.
  apply (nested_fill (matrix D) cplx n (square n) mget (fun i j M => mset M i j (f i j)) f).
  - intros i j s _ _. apply mset_square.
  - intros i j s Hi Hj Hs. now apply (mget_mset_same n).
  - intros i j i' j' s Hi Hj Hi' Hj' Hne Hs. now apply (mget_mset_other n).
  - assumption.
Qed.

Lemma compute_fourier_matrix_spec (n : Z) (F : matrix D) :
  square n F ->
  square n (compute_fourier_matrix F n) /\
  forall k l, 0 <= k < n -> 0 <= l < n ->
    mget (compute_fourier_matrix F n) k l = Entries.F_entry n k l.
Proof. intros HF. exact (matrix_fill n (Entries.F_entry n) F HF). Qed.

Lemma compute_conjugate_transpose_spec (n : Z) (F Finv : matrix D) :
  square n Finv ->
  square n (compute_conjugate_transpose F Finv n) /\
  forall i j, 0 <= i < n -> 0 <= j < n ->
    mget (compute_conjugate_transpose F Finv n) i j = conj (mget F j i).
Proof. intros HF. exact (matrix_fill n (fun i j => conj (mget F j i)) Finv HF). Qed.

Lemma multiply_diag_matrix_spec (n : Z) (Dg : list D) (M result : matrix D) :
  square n result ->
  square n (multiply_diag_matrix Dg M result n) /\
  forall i j, 0 <= i < n -> 0 <= j < n ->
    mget (multiply_diag_matrix Dg M result n) i j = rcmul (get d0 Dg i) (mget M i j).
Proof.
  intros HR. exact (matrix_fill n (fun i j => rcmul (get d0 Dg i) (mget M i j)) result HR).
Qed.

Lemma multiply_complex_matrices_spec (n : Z) (A B result : matrix D) :
  square n result ->
  square n (multiply_complex_matrices A B result n) /\
  forall i j, 0 <= i < n -> 0 <= j < n ->
    mget (multiply_complex_matrices A B result n) i j = Entries.dot n (mget A) (mget B) i j.
Proof. intros HR. exact (matrix_fill n (Entries.dot n (mget A) (mget B)) result HR). Qed.

(** The accumulation loop only reads row [i] of [A] and column [j] of [B]. *)
Lemma dot_ext (n : Z) (A A' B B' : Z -> Z -> cplx) (i j : Z) :
  (forall k, 0 <= k < n -> A i k = A' i k) ->
  (forall k, 0 <= k < n -> B k j = B' k j) ->
  Entries.dot n A B i j = Entries.dot n A' B' i j.
Proof.
  intros HA HB. unfold Entries.dot. apply for_long_ext.
  intros k t Hk. now rewrite HA, HB.
Qed.

Lemma build_H_spec (n : Z) (P2 : matrix D) (Q_diag : list D) (H : matrix D) :
  square n H ->
  square n (build_H n P2 Q_diag H) /\
  forall i j, 0 <= i < n -> 0 <= j < n ->
    mget (build_H n P2 Q_diag H) i j =
    rcadd (round5 (creal (unrounded P2 Q_diag i j)))
          (crmul CI (round5 (cimag (unrounded P2 Q_diag i j)))).
Proof.
  intros HH.
  exact (matrix_fill n
    (fun i j => rcadd (round5 (creal (unrounded P2 Q_diag i j)))
                      (crmul CI (round5 (cimag (unrounded P2 Q_diag i j))))) H HH).
Qed.

End MatrixFacts.

(** ** [compute_hamiltonian] *)

Section HamiltonianFacts.
Context {D : Type} {Fl : Flt D} {U : Uninit D}.
Import QuantumHO Shape.

(** The stages of [compute_hamiltonian], run on storage of the right shape,
    leave in every local the entries of [Entries]. *)
Lemma stages_ok (n : Z) (a : D) (H F Finv P_temp P P2 : matrix D) (PImpulse Q_diag : list D) :
  square n H -> square n F -> square n Finv ->
  square n P_temp -> square n P -> square n P2 ->
  List.length PImpulse = Z.to_nat n -> List.length Q_diag = Z.to_nat n ->
  let F' := compute_fourier_matrix F n in
  let Finv' := compute_conjugate_transpose F' Finv n in
  let PImpulse' := fill_PImpulse n PImpulse in
  let P_temp' := multiply_diag_matrix PImpulse' Finv' P_temp n in
  let P' := multiply_complex_matrices F' P_temp' P n in
  let P2' := multiply_complex_matrices P' P' P2 n in
  let Q_diag' := fill_Q_diag n a Q_diag in
  let H' := build_H n P2' Q_diag' H in
  locals_ok n a (mk_locals F' Finv' PImpulse' P_temp' P' P2' Q_diag' H').
Proof.
  intros HH HF HFinv HPt HP HP2 HPI HQ F' Finv' PImpulse' P_temp' P' P2' Q_diag' H'.
  destruct (compute_fourier_matrix_spec n F HF) as [_ EF]. fold F' in EF.
  destruct (compute_conjugate_transpose_spec n F' Finv HFinv) as [_ EFinv].
  fold Finv' in EFinv.
  destruct (fill_array d0 of_long n PImpulse HPI) as [_ EPI].
  change (for_long n _ PImpulse) with PImpulse' in EPI.
  destruct (multiply_diag_matrix_spec n PImpulse' Finv' P_temp HPt) as [_ EPt].
  fold P_temp' in EPt.
  destruct (multiply_complex_matrices_spec n F' P_temp' P HP) as [_ EP]. fold P' in EP.
  destruct (multiply_complex_matrices_spec n P' P' P2 HP2) as [_ EP2]. fold P2' in EP2.
  destruct (fill_array d0 (Entries.Q_entry n a) n Q_diag HQ) as [_ EQ].
  change (for_long n _ Q_diag) with Q_diag' in EQ.
  destruct (build_H_spec n P2' Q_diag' H HH) as [SH EH]. fold H' in SH, EH.
  assert (Finv_ok : forall i j, 0 <= i < n -> 0 <= j < n ->
            mget Finv' i j = Entries.Finv_entry n i j).
  { intros i j Hi Hj. rewrite EFinv by assumption. unfold Entries.Finv_entry.
    now rewrite EF. }
  assert (Pt_ok : forall i j, 0 <= i < n -> 0 <= j < n ->
            mget P_temp' i j = Entries.P_temp_entry n i j).
  { intros i j Hi Hj. rewrite EPt by assumption. unfold Entries.P_temp_entry.
    now rewrite EPI, Finv_ok. }
  assert (P_ok : forall i j, 0 <= i < n -> 0 <= j < n ->
            mget P' i j = Entries.P_entry n i j).
  { intros i j Hi Hj. rewrite EP by assumption. unfold Entries.P_entry.
    apply dot_ext; intros k Hk; [now apply EF | now apply Pt_ok]. }
  assert (P2_ok : forall i j, 0 <= i < n -> 0 <= j < n ->
            mget P2' i j = Entries.P2_entry n i j).
  { intros i j Hi Hj. rewrite EP2 by assumption. unfold Entries.P2_entry.
    apply dot_ext; intros k Hk; now apply P_ok. }
  constructor; cbn [l_F l_Finv l_PImpulse l_P_temp l_P l_P2 l_Q_diag l_H];
    try assumption.
  intros i j Hi Hj. rewrite EH by assumption. unfold Entries.H_entry.
  assert (Ev : unrounded P2' Q_diag' i j = Entries.val_entry n a i j).
  { unfold unrounded, Entries.val_entry. rewrite P2_ok by assumption.
    now rewrite EQ. }
  now rewrite Ev.
Qed.

Lemma compute_hamiltonian_locals_Some (x : t_qte_quantumho D) (L : locals D)
      (w w' : world D) :
  compute_hamiltonian_locals x w = (Value (Some L), w') ->
  locals_ok (n x) (a x) L /\ log w' = log w.
Proof.
  unfold compute_hamiltonian_locals. cbv zeta. intros E.
  split_bind E oH w1 E1. split_bind E oF w2 E2. split_bind E oFinv w3 E3.
  split_bind E oPt w4 E4. split_bind E oP w5 E5. split_bind E oP2 w6 E6.
  apply alloc_complex_matrix_Value in E1, E2, E3, E4, E5, E6.
  destruct E1 as [L1 S1], E2 as [L2 S2], E3 as [L3 S3],
           E4 as [L4 S4], E5 as [L5 S5], E6 as [L6 S6].
  destruct oH as [H|]; [|discriminate]. destruct oF as [F|]; [|discriminate].
  destruct oFinv as [Finv|]; [|discriminate]. destruct oPt as [P_temp|]; [|discriminate].
  destruct oP as [P|]; [|discriminate]. destruct oP2 as [P2|]; [|discriminate].
  split_bind E oPI w7 E7. apply allocation_Value in E7. destruct E7 as [L7 S7].
  destruct oPI as [PImpulse|]; [|discriminate].
  split_bind E oQ w8 E8. apply allocation_Value in E8. destruct E8 as [L8 S8].
  split_bind E Q_diag w9 E9.
  assert (HQ : List.length Q_diag = Z.to_nat (n x) /\ w9 = w8).
  { destruct oQ as [Q|].
    - inversion E9; subst. split; [now apply S8 | reflexivity].
    - destruct (Z.ltb_spec 0 (n x)); [discriminate|].
      inversion E9; subst. split; [simpl; lia | reflexivity]. }
  destruct HQ as [HQ ->].
  inversion E; subst. split; [|congruence].
  apply stages_ok; auto.
Qed.

Lemma compute_hamiltonian_locals_plentiful (x : t_qte_quantumho D) (w : world D) :
  plentiful w ->
  exists L w', compute_hamiltonian_locals x w = (Value (Some L), w') /\ plentiful w'.
Proof.
  intros Hw. unfold compute_hamiltonian_locals. cbv zeta.
  destruct (alloc_complex_matrix_plentiful (n x) w Hw) as (H & w1 & E1 & Hw1).
  destruct (alloc_complex_matrix_plentiful (n x) w1 Hw1) as (F & w2 & E2 & Hw2).
  destruct (alloc_complex_matrix_plentiful (n x) w2 Hw2) as (Finv & w3 & E3 & Hw3).
  destruct (alloc_complex_matrix_plentiful (n x) w3 Hw3) as (Pt & w4 & E4 & Hw4).
  destruct (alloc_complex_matrix_plentiful (n x) w4 Hw4) as (P & w5 & E5 & Hw5).
  destruct (alloc_complex_matrix_plentiful (n x) w5 Hw5) as (P2 & w6 & E6 & Hw6).
  rewrite (bind_run _ _ _ _ _ E1), (bind_run _ _ _ _ _ E2), (bind_run _ _ _ _ _ E3),
          (bind_run _ _ _ _ _ E4), (bind_run _ _ _ _ _ E5), (bind_run _ _ _ _ _ E6).
  destruct (allocation_plentiful junk (n x) w6 Hw6) as (PI & w7 & E7 & Hw7 & _).
  unfold malloc_doubles at 1. rewrite (bind_run _ _ _ _ _ E7).
  destruct (allocation_plentiful junk (n x) w7 Hw7) as (Q & w8 & E8 & Hw8 & _).
  unfold malloc_doubles at 1. rewrite (bind_run _ _ _ _ _ E8).
  unfold bind, ret. eauto.
Qed.

(** [compute_hamiltonian] returns the local [H]. *)
Lemma compute_hamiltonian_Some (x : t_qte_quantumho D) (H : matrix D) (w w' : world D) :
  compute_hamiltonian x w = (Value (Some H), w') ->
  exists L, compute_hamiltonian_locals x w = (Value (Some L), w') /\ H = l_H L.
Proof.
  unfold compute_hamiltonian. intros E. split_bind E o w1 E1.
  destruct o as [L|]; inversion E; subst. eauto.
Qed.

Lemma compute_hamiltonian_plentiful (x : t_qte_quantumho D) (w : world D) :
  plentiful w ->
  exists H w', compute_hamiltonian x w = (Value (Some H), w') /\ plentiful w'.
Proof.
  intros Hw. destruct (compute_hamiltonian_locals_plentiful x w Hw) as (L & w' & E & Hw').
  unfold compute_hamiltonian. rewrite (bind_run _ _ _ _ _ E). unfold ret. simpl. eauto.
Qed.

End HamiltonianFacts.

(** ** Commands that send nothing to the host *)

Section QuietFacts.
Context {D : Type} {Fl : Flt D} {U : Uninit D}.
Import Shape.

Lemma quiet_ret {A : Type} (a : A) : quiet (D := D) (ret a).
Proof. intros w r w' E. inversion E; reflexivity. Qed.

Lemma quiet_crash {A : Type} : quiet (D := D) (A := A) crash.
Proof. intros w r w' E. inversion E; reflexivity. Qed.

Lemma quiet_request : quiet (D := D) request.
Proof.
  intros w r w'. unfold request. destruct (heap w); intros E; inversion E; reflexivity.
Qed.

Lemma quiet_bind {A B : Type} (m : M D A) (k : A -> M D B) :
  quiet m -> (forall a, quiet (k a)) -> quiet (bind m k).
Proof.
  intros Hm Hk w r w'. unfold bind.
  destruct (m w) as [[a|] w1] eqn:E1; intros E.
  - rewrite (Hk a _ _ _ E). eapply Hm; eassumption.
  - inversion E; subst. eapply Hm; eassumption.
Qed.

Lemma quiet_alloc_rows (n : Z) :
  forall (k : nat) (rows : QuantumHO.matrix D), quiet (QuantumHO.alloc_rows k n rows).
Proof.
  induction k as [|k IH]; intros rows; cbn [QuantumHO.alloc_rows].
  - apply quiet_ret.
  - apply quiet_bind.
    + apply quiet_bind; [apply quiet_request | intros; apply quiet_ret].
    + intros [row|]; [apply IH | apply quiet_ret].
Qed.

Lemma quiet_alloc_complex_matrix (n : Z) : quiet (QuantumHO.alloc_complex_matrix (D := D) n).
Proof.
  apply quiet_bind; [apply quiet_request|].
  intros [|]; [apply quiet_alloc_rows | apply quiet_ret].
Qed.

Lemma quiet_malloc_doubles (n : Z) : quiet (malloc_doubles (D := D) n).
Proof. apply quiet_bind; [apply quiet_request | intros; apply quiet_ret]. Qed.

Lemma quiet_compute_hamiltonian (x : QuantumHO.t_qte_quantumho D) :
  quiet (QuantumHO.compute_hamiltonian x).
Proof.
  unfold QuantumHO.compute_hamiltonian, QuantumHO.compute_hamiltonian_locals.
  cbv zeta.
  apply quiet_bind; [|intros; apply quiet_ret].
  do 6 (apply quiet_bind; [apply quiet_alloc_complex_matrix | intros ?o]).
  destruct o as [?|]; [|apply quiet_ret]. destruct o0 as [?|]; [|apply quiet_ret].
  destruct o1 as [?|]; [|apply quiet_ret]. destruct o2 as [?|]; [|apply quiet_ret].
  destruct o3 as [?|]; [|apply quiet_ret]. destruct o4 as [?|]; [|apply quiet_ret].
  apply quiet_bind; [apply quiet_malloc_doubles | intros [PI|]; [|apply quiet_ret]].
  apply quiet_bind; [apply quiet_malloc_doubles | intros oQ].
  apply quiet_bind; [|intros; apply quiet_ret].
  destruct oQ; [apply quiet_ret|].
  destruct (0 <? _); [apply quiet_crash | apply quiet_ret].
Qed.

End QuietFacts.

(** ** The output list of [qte_quantumho_bang] *)

Section BangFacts.
Context {D : Type} {Fl : Flt D} {U : Uninit D}.
Import QuantumHO Shape.

Lemma index_inj (n i j i' j' : Z) :
  0 <= j < n -> 0 <= j' < n -> i * n + j = i' * n + j' -> i = i' /\ j = j'.
Proof.
  intros Hj Hj' E.
  assert (Hi : i = i').
  { destruct (Z.lt_trichotomy i i') as [Hlt|[Heq|Hgt]]; [nia | assumption | nia]. }
  subst i'. split; [reflexivity | lia].
Qed.

Lemma index_no_wrap (n i j : Z) :
  2 * n * n <= CLong.LONG_MAX -> 0 <= i < n -> 0 <= j < n ->
  CLong.mul 2 (CLong.add (CLong.mul i n) j) = 2 * (i * n + j) /\
  CLong.add (2 * (i * n + j)) 1 = 2 * (i * n + j) + 1 /\
  0 <= 2 * (i * n + j) /\ 2 * (i * n + j) + 1 < 2 * n * n.
Proof.
  intros Hmax Hi Hj. unfold CLong.mul, CLong.add.
  assert (Hin : 0 <= i * n + j < n * n) by nia.
  assert (B : CLong.LONG_MIN < 0) by (unfold CLong.LONG_MIN; lia).
  rewrite (wrap_small (i * n)) by nia.
  rewrite (wrap_small (i * n + j)) by nia.
  rewrite (wrap_small (2 * (i * n + j))) by nia.
  rewrite (wrap_small (2 * (i * n + j) + 1)) by nia.
  repeat split; nia.
Qed.

Lemma list_size_no_wrap (n : Z) :
  0 <= n -> 2 * n * n <= CLong.LONG_MAX ->
  CLong.mul (CLong.mul 2 n) n = 2 * n * n.
Proof.
  intros Hn Hmax. unfold CLong.mul.
  assert (B : CLong.LONG_MIN < 0) by (unfold CLong.LONG_MIN; lia).
  rewrite (wrap_small (2 * n)) by nia. apply wrap_small. nia.
Qed.

Lemma flatten_spec (n : Z) (H : matrix D) (out_list : list (atom D)) :
  0 <= n -> 2 * n * n <= CLong.LONG_MAX ->
  Z.of_nat (List.length out_list) = 2 * n * n ->
  row_major_interleaved n (mget H) (flatten n H out_list).
Proof.
  intros Hn Hmax Hlen.
  pose (ok := fun s : list (atom D) => Z.of_nat (List.length s) = 2 * n * n).
  pose (cell := fun (s : list (atom D)) (i j : Z) =>
      (get (A_SYM "") s (2 * (i * n + j)), get (A_SYM "") s (2 * (i * n + j) + 1))).
  pose (write := fun (i j : Z) (s : list (atom D)) =>
      let idx := CLong.mul 2 (CLong.add (CLong.mul i n) j) in
      let s := upd s idx (A_FLOAT (creal (mget H i j))) in
      upd s (CLong.add idx 1) (A_FLOAT (cimag (mget H i j)))).
  pose (val := fun i j : Z => (A_FLOAT (creal (mget H i j)), A_FLOAT (cimag (mget H i j)))).
  destruct (nested_fill (list (atom D)) (atom D * atom D) n ok cell write val)
    with (s := out_list) as [Hok Hcells].
  - intros i j s Hi Hj Hs. unfold ok, write. cbv zeta. now rewrite !length_upd.
  - intros i j s Hi Hj Hs. unfold ok in Hs. unfold cell, write, val. cbv zeta.
    destruct (index_no_wrap n i j Hmax Hi Hj) as (-> & -> & Hlo & Hhi).
    f_equal.
    + rewrite get_upd_other by lia. apply get_upd_same. lia.
    + apply get_upd_same. rewrite length_upd. lia.
  - intros i j i' j' s Hi Hj Hi' Hj' Hne Hs. unfold cell, write. cbv zeta.
    destruct (index_no_wrap n i j Hmax Hi Hj) as (-> & -> & Hlo & Hhi).
    assert (Hidx : i' * n + j' <> i * n + j).
    { intros E. apply index_inj in E; [|assumption|assumption].
      destruct E; subst. now apply Hne. }
    f_equal; rewrite !get_upd_other by lia; reflexivity.
  - exact Hlen.
  - split; [exact Hok|].
    intros i j Hi Hj. specialize (Hcells i j Hi Hj).
    unfold cell, val in Hcells. inversion Hcells. split; reflexivity.
Qed.

(** With every allocation served, [bang] sends exactly one list, laid out
    row-major with interleaved parts. *)
Lemma bang_plentiful (x : t_qte_quantumho D) (w : world D) :
  0 <= n x -> 2 * n x * n x <= CLong.LONG_MAX -> plentiful w ->
  exists l w',
    qte_quantumho_bang x w = (Value tt, w') /\
    log w' = log w ++ [outlet_list "out" (2 * n x * n x) l] /\
    row_major_interleaved (n x) (Entries.H_entry (n x) (a x)) l.
Proof.
  intros Hn Hmax Hw. unfold qte_quantumho_bang. cbv zeta.
  destruct (compute_hamiltonian_plentiful x w Hw) as (H & w1 & E1 & Hw1).
  rewrite (bind_run _ _ _ _ _ E1).
  destruct (compute_hamiltonian_Some x H w w1 E1) as (L & EL & ->).
  apply compute_hamiltonian_locals_Some in EL. destruct EL as [HL Hlog1].
  rewrite (list_size_no_wrap (n x) Hn Hmax).
  destruct (allocation_plentiful junk_atom (2 * n x * n x) w1 Hw1)
    as (out & w2 & E2 & Hw2 & Hlog2).
  unfold sysmem_newptr_atoms. rewrite (bind_run _ _ _ _ _ E2).
  apply allocation_Value in E2. destruct E2 as [_ Hout].
  specialize (Hout out eq_refl).
  assert (Hflat : row_major_interleaved (n x) (mget (l_H L)) (flatten (n x) (l_H L) out)).
  { apply flatten_spec; try assumption. nia. }
  exists (flatten (n x) (l_H L) out), (mkWorld (heap w2)
     (log w2 ++ [outlet_list "out" (2 * n x * n x) (flatten (n x) (l_H L) out)])).
  destruct Hflat as [Hlen Hcells].
  split; [|split].
  - unfold send_list, tell. rewrite firstn_all2 by lia. reflexivity.
  - cbn [log]. congruence.
  - split; [exact Hlen|]. intros i j Hi Hj.
    rewrite <- (ok_H _ _ _ HL i j Hi Hj). now apply Hcells.
Qed.

(** Whatever the allocations do, a list sent by [bang] has that layout. *)
Lemma bang_sends_only_that (x : t_qte_quantumho D) (w w' : world D) (r : outcome unit) :
  0 <= n x -> 2 * n x * n x <= CLong.LONG_MAX ->
  qte_quantumho_bang x w = (r, w') ->
  log w' = log w \/
  (exists msg, log w' = log w ++ [object_error msg []]) \/
  (exists l, log w' = log w ++ [outlet_list "out" (2 * n x * n x) l] /\
             row_major_interleaved (n x) (Entries.H_entry (n x) (a x)) l).
Proof.
  intros Hn Hmax. unfold qte_quantumho_bang. cbv zeta. unfold bind at 1.
  destruct (compute_hamiltonian x w) as [[oH|] w1] eqn:E1.
  2:{ intros E. inversion E; subst. left.
      eapply quiet_compute_hamiltonian; eassumption. }
  pose proof (quiet_compute_hamiltonian x _ _ _ E1) as Hlog1.
  destruct oH as [H|].
  2:{ intros E. inversion E; subst. right. left. cbn [log]. rewrite Hlog1. eauto. }
  destruct (compute_hamiltonian_Some x H w w1 E1) as (L & EL & ->).
  apply compute_hamiltonian_locals_Some in EL. destruct EL as [HL _].
  rewrite (list_size_no_wrap (n x) Hn Hmax). unfold bind.
  destruct (sysmem_newptr_atoms (2 * n x * n x) w1) as [[oout|] w2] eqn:E2.
  2:{ unfold sysmem_newptr_atoms in E2. unfold bind, ret in E2.
      destruct (request w1) as [[b|] w3] eqn:Er; [discriminate|].
      unfold request in Er. destruct (heap w1); discriminate. }
  apply allocation_Value in E2. destruct E2 as [Hlog2 Hout].
  destruct oout as [out|].
  2:{ intros E. inversion E; subst. right. left. cbn [log]. rewrite Hlog2, Hlog1. eauto. }
  specialize (Hout out eq_refl).
  unfold send_list, tell. intros E. apply pair_equal_spec in E. destruct E as [<- <-].
  right. right.
  assert (Hflat : row_major_interleaved (n x) (mget (l_H L)) (flatten (n x) (l_H L) out)).
  { apply flatten_spec; try assumption. nia. }
  destruct Hflat as [Hlen Hcells].
  exists (flatten (n x) (l_H L) out). cbn [log]. rewrite firstn_all2 by lia.
  split; [congruence|]. split; [exact Hlen|].
  intros i j Hi Hj. rewrite <- (ok_H _ _ _ HL i j Hi Hj). now apply Hcells.
Qed.

End BangFacts.

(** ** Exact arithmetic *)

Section ExactFacts.
Import Exact QuantumHO Shape.

(** Unfolds the operations of [double] and [double complex] to those of the
    reals. *)
Ltac to_reals :=
  cbv [cadd cmul conj rcmul crmul rcadd c_of_real CI creal cimag d0 d1 d2
       Cplus Cmult Cconj Cscal RtoC];
  cbn [dadd dmul ddiv dneg dhalf of_long dM_PI dsqrt dcos dsin dround RealFlt
       fst snd].

Ltac pair_ring := to_reals; apply (f_equal2 (@pair R R)); unfold Rdiv; ring.

Lemma for_from_last {S : Type} (body : Z -> S -> S) :
  forall (k : nat) (i : Z) (s : S),
    for_from (Datatypes.S k) i body s = body (i + Z.of_nat k) (for_from k i body s).
Proof.
  induction k as [|k IH]; intros i s.
  - simpl. now replace (i + 0) with i by lia.
  - change (for_from (Datatypes.S (Datatypes.S k)) i body s)
      with (for_from (Datatypes.S k) (i + 1) body (body i s)).
    rewrite IH. cbn [for_from].
    now replace (i + 1 + Z.of_nat k) with (i + Z.of_nat (Datatypes.S k)) by lia.
Qed.

(** The accumulation loop is the sum of its terms. *)
Lemma dot_is_sum (n : Z) (A B : Z -> Z -> C) (i j : Z) :
  Entries.dot n A B i j = Csum n (fun k => Cmult (A i k) (B k j)).
Proof.
  unfold Entries.dot, Csum, for_long.
  induction (Z.to_nat n) as [|m IH].
  - simpl. pair_ring.
  - rewrite for_from_last, IH. cbn [Csum_nat]. reflexivity.
Qed.

Lemma Csum_nat_ext (m : nat) (f g : Z -> C) :
  (forall k, 0 <= k < Z.of_nat m -> f k = g k) -> Csum_nat m f = Csum_nat m g.
Proof.
  induction m as [|m IH]; intros Hfg; [reflexivity|].
  cbn [Csum_nat]. rewrite IH, (Hfg (Z.of_nat m)) by (intros; try apply Hfg; lia).
  reflexivity.
Qed.

Lemma Csum_ext (n : Z) (f g : Z -> C) :
  (forall k, 0 <= k < n -> f k = g k) -> Csum n f = Csum n g.
Proof.
  intros Hfg. apply Csum_nat_ext. intros k Hk. apply Hfg. lia.
Qed.

Lemma Csum_conj (n : Z) (f : Z -> C) :
  Cconj (Csum n f) = Csum n (fun k => Cconj (f k)).
Proof.
  unfold Csum. induction (Z.to_nat n) as [|m IH]; cbn [Csum_nat].
  - pair_ring.
  - rewrite <- IH. pair_ring.
Qed.

(** The entries of [F] are those of the Fourier matrix. *)
Lemma F_entry_Fourier (n k l : Z) : Entries.F_entry n k l = Fourier n k l.
Proof. unfold Entries.F_entry, Fourier. pair_ring. Qed.

(** The entries of [P] are those of [F diag(0..n-1) F^*]. *)
Lemma P_entry_Momentum (n i j : Z) : Entries.P_entry n i j = Momentum n i j.
Proof.
  unfold Entries.P_entry, Momentum. rewrite dot_is_sum. apply Csum_ext. intros k Hk.
  unfold Entries.P_temp_entry, Entries.Finv_entry. rewrite !F_entry_Fourier.
  pair_ring.
Qed.

Lemma P_entry_hermitian (n i j : Z) :
  Entries.P_entry n i j = Cconj (Entries.P_entry n j i).
Proof.
  rewrite !P_entry_Momentum. unfold Momentum. rewrite Csum_conj.
  apply Csum_ext. intros k Hk. pair_ring.
Qed.

Lemma P2_entry_hermitian (n i j : Z) :
  Entries.P2_entry n i j = Cconj (Entries.P2_entry n j i).
Proof.
  unfold Entries.P2_entry. rewrite !dot_is_sum, Csum_conj.
  apply Csum_ext. intros k Hk.
  rewrite (P_entry_hermitian n i k), (P_entry_hermitian n k j). pair_ring.
Qed.

Lemma Int_part_half : Int_part (0 + / 2) = 0.
Proof. symmetry. apply Int_part_spec. simpl. lra. Qed.

(** [round] is odd: halves are rounded away from zero on both sides. *)
Lemma Rround_opp (x : R) : Rround (- x) = (- Rround x)%R.
Proof.
  unfold Rround.
  destruct (Rle_dec 0 x) as [Hx|Hx], (Rle_dec 0 (- x)) as [Hx'|Hx'].
  - assert (x = 0%R) by lra. subst x. rewrite Ropp_0, Int_part_half. simpl. lra.
  - now rewrite Ropp_involutive.
  - now rewrite Ropp_involutive.
  - lra.
Qed.

Lemma Rround_integer (x : R) : exists k : Z, Rround x = IZR k.
Proof.
  unfold Rround. destruct (Rle_dec 0 x).
  - eauto.
  - eexists. symmetry. apply opp_IZR.
Qed.

Lemma round5_opp (x : R) : round5 (- x)%R = (- round5 x)%R.
Proof.
  unfold round5. to_reals.
  replace (- x * 100000)%R with (- (x * 100000))%R by ring.
  rewrite Rround_opp. unfold Rdiv. ring.
Qed.

Lemma round5_five_decimals (x : R) : five_decimals (round5 x).
Proof.
  unfold five_decimals, round5. to_reals.
  destruct (Rround_integer (x * 100000)) as [k Hk]. exists k. rewrite Hk. field.
Qed.

Lemma val_entry_hermitian (n : Z) (a : R) (i j : Z) :
  Entries.val_entry n a i j = Cconj (Entries.val_entry n a j i).
Proof.
  unfold Entries.val_entry. rewrite (P2_entry_hermitian n i j).
  rewrite (Z.eqb_sym j i).
  destruct (Z.eqb_spec i j) as [->|Hne]; pair_ring.
Qed.

(** The entries of [H], rounded, are Hermitian. *)
Lemma H_entry_hermitian (n : Z) (a : R) (i j : Z) :
  Entries.H_entry n a i j = Cconj (Entries.H_entry n a j i).
Proof.
  unfold Entries.H_entry. cbv zeta. rewrite (val_entry_hermitian n a i j).
  destruct (Entries.val_entry n a j i) as [re im].
  to_reals. rewrite round5_opp. apply (f_equal2 (@pair R R)); ring.
Qed.

(** Each part of an entry of [H] is the rounding of the corresponding part
    of [val]. *)
Lemma H_entry_rounded (n : Z) (a : R) (i j : Z) :
  Entries.H_entry n a i j =
  (round5 (fst (Entries.val_entry n a i j)), round5 (snd (Entries.val_entry n a i j))).
Proof. unfold Entries.H_entry. pair_ring. Qed.

Lemma Q_entry_Position (n : Z) (a : R) (i : Z) :
  CLong.LONG_MIN < n <= CLong.LONG_MAX ->
  Entries.Q_entry n a i = Position n a i.
Proof.
  intros Hn. unfold Entries.Q_entry, Position, CLong.sub.
  rewrite wrap_small by lia. to_reals. rewrite minus_IZR. unfold Rdiv. ring.
Qed.

End ExactFacts.

(** ** Commands that return, and commands that repeat themselves *)

Section SteadyFacts.
Context {D : Type} {Fl : Flt D} {U : Uninit D}.
Import Shape.

Lemma returns_ret {A : Type} (a : A) : returns (D := D) (ret a).
Proof. intros w. unfold ret. eauto. Qed.

Lemma returns_tell (e : event D) : returns (tell e).
Proof. intros w. unfold tell. eauto. Qed.

Lemma returns_request : returns (D := D) request.
Proof. intros w. unfold request. destruct (heap w); eauto. Qed.

Lemma returns_bind {A B : Type} (m : M D A) (k : A -> M D B) :
  returns m -> (forall a, returns (k a)) -> returns (bind m k).
Proof.
  intros Hm Hk w. destruct (Hm w) as (a & w1 & E1).
  rewrite (bind_run _ _ _ _ _ E1). apply Hk.
Qed.

Lemma steady_ret {A : Type} (a : A) : steady (D := D) (ret a).
Proof.
  intros w v Hw Hv. exists (Value a), [], w, v. unfold ret.
  rewrite !app_nil_r. auto 10.
Qed.

Lemma steady_tell (e : event D) : steady (tell e).
Proof.
  intros w v Hw Hv. unfold tell.
  exists (Value tt), [e], (mkWorld (heap w) (log w ++ [e])), (mkWorld (heap v) (log v ++ [e])).
  auto 10.
Qed.

Lemma steady_request : steady (D := D) request.
Proof.
  intros w v Hw Hv.
  destruct (request_plentiful w Hw) as (w' & Ew & Hw' & Lw).
  destruct (request_plentiful v Hv) as (v' & Ev & Hv' & Lv).
  exists (Value true), [], w', v'. rewrite !app_nil_r. auto 10.
Qed.

Lemma steady_bind {A B : Type} (m : M D A) (k : A -> M D B) :
  steady m -> (forall a, steady (k a)) -> steady (bind m k).
Proof.
  intros Hm Hk w v Hw Hv.
  destruct (Hm w v Hw Hv) as (r & evs & w1 & v1 & Ew & Ev & Lw & Lv & Hw1 & Hv1).
  unfold bind. rewrite Ew, Ev. destruct r as [a|].
  - destruct (Hk a w1 v1 Hw1 Hv1) as (r' & evs' & w2 & v2 & Ew' & Ev' & Lw' & Lv' & Hw2 & Hv2).
    exists r', (evs ++ evs'), w2, v2.
    rewrite Lw', Lv', Lw, Lv, !app_assoc. auto 10.
  - exists Crash, evs, w1, v1. auto 10.
Qed.

End SteadyFacts.

(** ** qte.eigencalc.c *)

Section EigencalcFacts.
Context {D : Type} {Fl : Flt D} {U : Uninit D} {L : Eigencalc.Lapack D}.
Import Eigencalc Shape.

(** Closes goals [returns m] and [steady m] by following the structure of
    the command. *)
Ltac by_structure :=
  cbv zeta;
  repeat first
    [ apply returns_ret | apply returns_tell | apply returns_request
    | apply steady_ret | apply steady_tell | apply steady_request
    | apply returns_bind; [|intros ?]
    | apply steady_bind; [|intros ?]
    | match goal with
      | |- returns (match ?o with _ => _ end) => destruct o
      | |- steady (match ?o with _ => _ end) => destruct o
      end ].

Lemma returns_bang (x : t_qte_eigencalc D) : returns (qte_eigencalc_bang x).
Proof.
  unfold qte_eigencalc_bang, malloc_complex, malloc_doubles, sysmem_newptr_atoms,
    send_list.
  by_structure.
Qed.

Lemma steady_bang (x : t_qte_eigencalc D) : steady (qte_eigencalc_bang x).
Proof.
  unfold qte_eigencalc_bang, malloc_complex, malloc_doubles, sysmem_newptr_atoms,
    send_list.
  by_structure.
Qed.

(** [bang] hands the object back as it was. *)
Lemma handle_bang_Value (x : t_qte_eigencalc D) (w : world D) :
  exists w', handle x msg_bang w = (Value x, w') /\
             w' = snd (qte_eigencalc_bang x w).
Proof.
  destruct (returns_bang x w) as ([] & w' & E).
  exists w'. cbn [handle]. rewrite (bind_run _ _ _ _ _ E), E. split; reflexivity.
Qed.

(** A freshly constructed solver holds no matrix, and a positive
    dimension. *)
Lemma new_is_empty (argv : list (atom D)) (x : t_qte_eigencalc D) (w w' : world D) :
  qte_eigencalc_new argv w = (Value (Some x), w') -> matrix x = None /\ 0 < n x.
Proof.
  unfold qte_eigencalc_new. intros E. split_bind E ok w1 Er.
  destruct ok; [|discriminate]. cbv zeta in E. unfold ret in E.
  apply pair_equal_spec in E. destruct E as [E _].
  assert (Ex : Some x = Some (mk_eigencalc
     match argv with
     | [] => 3
     | a0 :: _ => if 0 <? atom_getlong a0 then atom_getlong a0 else 3
     end None)) by congruence.
  injection Ex as ->. cbn [matrix n]. split; [reflexivity|].
  destruct argv as [|a0 ?]; [lia|]. destruct (Z.ltb_spec 0 (atom_getlong a0)); lia.
Qed.

(** An allocation that is served. *)
Lemma allocation_served {A : Type} (fill : A) (count : Z) (w : world D) :
  plentiful w ->
  exists w',
    bind request (fun ok : bool =>
      ret (if ok then Some (repeat fill (Z.to_nat count)) else None)) w
    = (Value (Some (repeat fill (Z.to_nat count))), w') /\ plentiful w' /\ log w' = log w.
Proof.
  intros Hw. destruct (request_plentiful w Hw) as (w1 & Er & Hw1 & Hlog).
  rewrite (bind_run _ _ _ _ _ Er). unfold ret. eauto.
Qed.

(** What a successful [bang] sends: the eigenvalues on the left outlet, then
    the eigenvectors on the right one, then the post. *)
Lemma bang_success (x : t_qte_eigencalc D) (m : list cplx) (w : world D) :
  plentiful w ->
  matrix x = Some m ->
  let N := clpk_integer (n x) in
  let total := clpk_integer (N * N) in
  let A := to_column_major (n x) m (repeat (junk, junk) (Z.to_nat total)) in
  let f1 := workspace_query (n x) A (repeat junk (Z.to_nat (n x)))
              (repeat junk (Z.to_nat (clpk_integer (clpk_integer (3 * N) - 2)))) in
  let f2 := decomposition f1 (repeat (junk, junk) (Z.to_nat (work_size f1))) in
  z_info f1 = 0 -> z_info f2 = 0 ->
  exists w',
    qte_eigencalc_bang x w = (Value tt, w') /\
    log w' = log w ++
      [outlet_list "out_eigenvalues" (n x)
         (firstn (Z.to_nat (n x))
            (fill_eigvals (n x) (z_w f2) (repeat junk_atom (Z.to_nat (n x)))));
       outlet_list "out_eigenvectors" (clpk_integer (2 * total))
         (firstn (Z.to_nat (clpk_integer (2 * total)))
            (fill_eigvecs (n x) (z_A f2)
               (repeat junk_atom (Z.to_nat (clpk_integer (2 * total))))));
       object_post "Eigen-decomposition completed successfully." []].
Proof.
  intros Hw Hm N total A f1 f2 H1 H2.
  unfold qte_eigencalc_bang. rewrite Hm. cbv zeta.
  fold N. fold total.
  destruct (allocation_served (junk, junk) total w Hw) as (w1 & E1 & Hw1 & L1).
  unfold malloc_complex at 1. rewrite (bind_run _ _ _ _ _ E1). fold A.
  destruct (allocation_served junk (n x) w1 Hw1) as (w2 & E2 & Hw2 & L2).
  unfold malloc_doubles at 1. rewrite (bind_run _ _ _ _ _ E2).
  destruct (allocation_served junk (clpk_integer (clpk_integer (3 * N) - 2)) w2 Hw2)
    as (w3 & E3 & Hw3 & L3).
  unfold malloc_doubles at 1. rewrite (bind_run _ _ _ _ _ E3). fold f1.
  rewrite H1. cbn [Z.eqb negb].
  destruct (allocation_served (junk, junk) (work_size f1) w3 Hw3) as (w4 & E4 & Hw4 & L4).
  unfold malloc_complex at 1. rewrite (bind_run _ _ _ _ _ E4). fold f2.
  rewrite H2. cbn [Z.eqb negb].
  destruct (allocation_served junk_atom (n x) w4 Hw4) as (w5 & E5 & Hw5 & L5).
  unfold sysmem_newptr_atoms at 1. rewrite (bind_run _ _ _ _ _ E5).
  unfold send_list at 1. unfold tell at 1. unfold bind at 1.
  match goal with
  | |- context [ bind (sysmem_newptr_atoms ?c) ?k ?w0 ] =>
      destruct (allocation_served junk_atom c w0 Hw5) as (w6 & E6 & Hw6 & L6);
      unfold sysmem_newptr_atoms; rewrite (bind_run _ _ _ _ _ E6)
  end.
  unfold send_list, tell, bind. eexists. split; [reflexivity|].
  cbn [log heap]. cbn [log] in L6. rewrite L6, L5, L4, L3, L2, L1.
  rewrite <- !app_assoc. reflexivity.
Qed.

End EigencalcFacts.

(* ================================================================== *)
(** * Part III: the Hamiltonian builder (qte.quantumho.c)              *)
(* ================================================================== *)

Section Builder.
Import Exact QuantumHO Shape.

(** X19.  In exact arithmetic, for every dimension [n >= 2] and every real
    [a], the matrix [H] that [compute_hamiltonian] returns is Hermitian,
    [H[i][j] = conj(H[j][i])] for all [i], [j] in [[0, n)], its entries being
    the ones rounded to five decimals ([round] is odd); and the matrix is
    returned whenever the allocations are served.  In the arithmetic of the
    program the two roundings of [H[i][j]] and [H[j][i]] are made on values
    that differ by rounding errors, and nothing of the kind is claimed. *)
Theorem hamiltonian_hermitian (U : Uninit R) (x : t_qte_quantumho R) (w : world R) :
  2 <= n x ->
  (plentiful w -> exists H w', compute_hamiltonian x w = (Value (Some H), w')) /\
  (forall H w', compute_hamiltonian x w = (Value (Some H), w') ->
     forall i j, 0 <= i < n x -> 0 <= j < n x ->
       mget H i j = Entries.H_entry (n x) (a x) i j /\
       mget H i j = Cconj (mget H j i)).
Proof.
  intros Hn. split.
  - intros Hw. destruct (compute_hamiltonian_plentiful x w Hw) as (H & w' & E & _). eauto.
  - intros H w' E i j Hi Hj.
    destruct (compute_hamiltonian_Some x H w w' E) as (L & EL & ->).
    apply compute_hamiltonian_locals_Some in EL. destruct EL as [HL _].
    rewrite (ok_H _ _ _ HL i j Hi Hj), (ok_H _ _ _ HL j i Hj Hi).
    split; [reflexivity | apply H_entry_hermitian].
Qed.

Lemma hamiltonian_hermitian_witness :
  exists H w',
    compute_hamiltonian (U := Sample.zeros) Sample.ho_2 Sample.calm = (Value (Some H), w') /\
    mget H 0 1 = Cconj (mget H 1 0).
Proof.
  destruct (hamiltonian_hermitian Sample.zeros Sample.ho_2 Sample.calm) as [Hex Hh].
  - simpl. lia.
  - destruct Hex as (H & w' & E); [constructor|].
    exists H, w'. split; [exact E|].
    apply (Hh H w' E 0 1); simpl; lia.
Defined.

(** C2.  The momentum operator [P] of [compute_hamiltonian] is
    [F * diag(PImpulse) * Finv], in that order: for [n >= 2],
    [P[i][j] = sum_k F[i][k] * k * conj(F[j][k])], where [F] is the Fourier
    matrix [F[k][l] = n^(-1/2) exp(2 pi i k l / n)], [Finv] its conjugate
    transpose and [PImpulse[i] = i].  (Exact arithmetic.) *)
Theorem momentum_is_F_diag_Finv (U : Uninit R) (x : t_qte_quantumho R) (w : world R) :
  2 <= n x ->
  (plentiful w ->
     exists L w', compute_hamiltonian_locals x w = (Value (Some L), w')) /\
  (forall L w', compute_hamiltonian_locals x w = (Value (Some L), w') ->
     forall i j, 0 <= i < n x -> 0 <= j < n x ->
       mget (l_F L) i j = Fourier (n x) i j /\
       mget (l_Finv L) i j = Cconj (Fourier (n x) j i) /\
       get 0%R (l_PImpulse L) i = IZR i /\
       mget (l_P L) i j = Momentum (n x) i j).
Proof.
  intros Hn. split.
  - intros Hw. destruct (compute_hamiltonian_locals_plentiful x w Hw) as (L & w' & E & _).
    eauto.
  - intros L w' E i j Hi Hj.
    apply compute_hamiltonian_locals_Some in E. destruct E as [HL _].
    rewrite (ok_F _ _ _ HL i j Hi Hj), (ok_Finv _ _ _ HL i j Hi Hj),
            (ok_P _ _ _ HL i j Hi Hj).
    repeat split.
    + apply F_entry_Fourier.
    + unfold Entries.Finv_entry. now rewrite F_entry_Fourier.
    + exact (ok_PImpulse _ _ _ HL i Hi).
    + apply P_entry_Momentum.
Qed.

Lemma momentum_is_F_diag_Finv_witness :
  exists L w',
    compute_hamiltonian_locals (U := Sample.zeros) Sample.ho_2 Sample.calm
      = (Value (Some L), w') /\
    mget (l_P L) 0 1 = Momentum 2 0 1.
Proof.
  destruct (momentum_is_F_diag_Finv Sample.zeros Sample.ho_2 Sample.calm) as [Hex Hp].
  - simpl. lia.
  - destruct Hex as (L & w' & E); [constructor|].
    exists L, w'. split; [exact E|].
    apply (Hp L w' E 0 1); simpl; lia.
Defined.

(** C3.  For [n >= 2] and real [a], the diagonal position operator that
    enters [H] is [Q[i] = a * (-(n-1)/2 + i)]: the factor [a] multiplies the
    whole expression, the index term included; its square is what is added
    on the diagonal before the rounding.  (Exact arithmetic.) *)
Theorem position_diagonal (U : Uninit R) (x : t_qte_quantumho R) (w : world R) :
  2 <= n x <= CLong.LONG_MAX ->
  (plentiful w ->
     exists L w', compute_hamiltonian_locals x w = (Value (Some L), w')) /\
  (forall L w', compute_hamiltonian_locals x w = (Value (Some L), w') ->
     forall i, 0 <= i < n x ->
       get 0%R (l_Q_diag L) i = Position (n x) (a x) i /\
       unrounded (l_P2 L) (l_Q_diag L) i i =
         Cscal (1 / 2)
           (Cplus (mget (l_P2 L) i i)
                  (RtoC (Position (n x) (a x) i * Position (n x) (a x) i)))).
Proof.
  intros Hn. split.
  - intros Hw. destruct (compute_hamiltonian_locals_plentiful x w Hw) as (L & w' & E & _).
    eauto.
  - intros L w' E i Hi.
    apply compute_hamiltonian_locals_Some in E. destruct E as [HL _].
    assert (HQ : get 0%R (l_Q_diag L) i = Position (n x) (a x) i).
    { rewrite <- Q_entry_Position by (unfold CLong.LONG_MIN; lia).
      exact (ok_Q_diag _ _ _ HL i Hi). }
    split; [exact HQ|].
    unfold unrounded. rewrite Z.eqb_refl.
    change (get d0 (l_Q_diag L) i) with (get 0%R (l_Q_diag L) i). rewrite HQ.
    destruct (mget (l_P2 L) i i) as [re im].
    unfold Cscal, Cplus, RtoC, rcmul, cadd, rcadd, CI, c_of_real, creal, cimag, d0, d1.
    cbn [dadd dmul dhalf of_long RealFlt fst snd].
    apply (f_equal2 (@pair R R)); ring.
Qed.

Lemma position_diagonal_witness :
  exists L w',
    compute_hamiltonian_locals (U := Sample.zeros) Sample.ho_2 Sample.calm
      = (Value (Some L), w') /\
    get 0%R (l_Q_diag L) 1 = Position 2 1 1.
Proof.
  destruct (position_diagonal Sample.zeros Sample.ho_2 Sample.calm) as [Hex Hq].
  - unfold CLong.LONG_MAX. simpl. lia.
  - destruct Hex as (L & w' & E); [constructor|].
    exists L, w'. split; [exact E|].
    apply (Hq L w' E 1); simpl; lia.
Defined.

End Builder.

Section OutputFacts.
Context {D : Type} {Fl : Flt D}.
Import Shape.

(** Every atom of a row-major interleaved list is one part of one entry. *)
Lemma row_major_interleaved_In (n : Z) (h : Z -> Z -> cplx) (l : list (atom D)) (e : atom D) :
  0 <= n -> row_major_interleaved n h l -> In e l ->
  exists i j, 0 <= i < n /\ 0 <= j < n /\
    (e = A_FLOAT (creal (h i j)) \/ e = A_FLOAT (cimag (h i j))).
Proof.
  intros Hn0 [Hlen Hcells] He.
  destruct (In_nth l e (A_SYM "") He) as (p & Hp & Hnth).
  assert (Hn : 0 < n) by nia.
  set (q := Z.of_nat p / 2).
  assert (Hq : 0 <= q < n * n).
  { unfold q. split; [apply Z.div_pos; lia|]. apply Z.div_lt_upper_bound; lia. }
  assert (Hi : 0 <= q / n < n).
  { split; [apply Z.div_pos; lia|]. apply Z.div_lt_upper_bound; lia. }
  assert (Hj : 0 <= q mod n < n) by (apply Z.mod_pos_bound; lia).
  assert (Eq : q = q / n * n + q mod n).
  { rewrite (Z.mul_comm (q / n) n). apply Z.div_mod. lia. }
  assert (Ep : Z.of_nat p = 2 * q + Z.of_nat p mod 2) by (apply Z.div_mod; lia).
  assert (Hr : Z.of_nat p mod 2 = 0 \/ Z.of_nat p mod 2 = 1).
  { pose proof (Z.mod_pos_bound (Z.of_nat p) 2). lia. }
  assert (Hget : get (A_SYM "") l (Z.of_nat p) = e).
  { unfold get. destruct (Z.ltb_spec (Z.of_nat p) 0); [lia|].
    now rewrite Nat2Z.id. }
  exists (q / n), (q mod n). split; [assumption|]. split; [assumption|].
  destruct (Hcells (q / n) (q mod n) Hi Hj) as [Hre Him].
  rewrite <- Eq in Hre, Him.
  destruct Hr as [Hr|Hr]; rewrite Hr in Ep.
  - left. rewrite <- Hget, <- Hre. f_equal. lia.
  - right. rewrite <- Hget, <- Him. f_equal. lia.
Qed.

End OutputFacts.

Section BuilderOutput.
Import Exact QuantumHO Shape.

(** [round] is the nearest integer, the one away from zero at a half. *)
Lemma Rround_nearest (y : R) :
  exists k : Z,
    Rround y = IZR k /\
    (Rabs (IZR k - y) <= 1 / 2)%R /\
    (Rabs (IZR k - y) = 1 / 2 -> Rabs y < Rabs (IZR k))%R.
Proof.
  unfold Rround. destruct (Rle_dec 0 y) as [Hy|Hy].
  - exists (Int_part (y + / 2)). split; [reflexivity|].
    destruct (base_Int_part (y + / 2)) as [Hle Hgt].
    set (k := IZR (Int_part (y + / 2))) in *.
    split.
    + apply Rabs_le. lra.
    + intros Htie. unfold Rabs in *.
      destruct (Rcase_abs (k - y)); destruct (Rcase_abs y); destruct (Rcase_abs k); lra.
  - exists (- Int_part (- y + / 2)). rewrite opp_IZR. split; [reflexivity|].
    destruct (base_Int_part (- y + / 2)) as [Hle Hgt].
    set (k := IZR (Int_part (- y + / 2))) in *.
    split.
    + apply Rabs_le. lra.
    + intros Htie. unfold Rabs in *.
      destruct (Rcase_abs (- k - y)); destruct (Rcase_abs y); destruct (Rcase_abs (- k)); lra.
Qed.

(** In exact arithmetic the code's [round5] rounds to five decimals. *)
Lemma round5_nearest (x : R) : nearest_five_decimals x (round5 x).
Proof.
  split; [apply round5_five_decimals|].
  unfold round5. cbn [dround dmul ddiv of_long RealFlt].
  destruct (Rround_nearest (x * 100000)) as (k & -> & Hclose & Htie).
  assert (E : forall t : R, (Rabs (t / 100000) = Rabs t / 100000)%R).
  { intros t. unfold Rdiv. rewrite Rabs_mult, (Rabs_pos_eq (/ 100000)); [reflexivity|].
    lra. }
  assert (Ed : (IZR k / 100000 - x = (IZR k - x * 100000) / 100000)%R) by (field; lra).
  rewrite Ed, E. split.
  - lra.
  - intros H. rewrite E.
    assert (Hx : (Rabs x = Rabs (x * 100000) / 100000)%R).
    { rewrite <- E. f_equal. field. }
    rewrite Hx. assert (Hlt : (Rabs (x * 100000) < Rabs (IZR k))%R) by (apply Htie; lra).
    lra.
Qed.

Lemma H_entry_times_round_divide {D : Type} {Fl : Flt D} (n : Z) (a : D) (i j : Z) :
  Entries.H_entry n a i j
  = rcadd (Documented.times_round_divide (creal (Entries.val_entry n a i j)))
          (crmul CI (Documented.times_round_divide (cimag (Entries.val_entry n a i j)))).
Proof. reflexivity. Qed.

(** The value [val] of the final loop nest, from the locals of the run. *)
Lemma unrounded_val_entry {D : Type} {Fl : Flt D} (n : Z) (a : D) (L : locals D) (i j : Z) :
  locals_ok n a L -> 0 <= i < n -> 0 <= j < n ->
  unrounded (l_P2 L) (l_Q_diag L) i j = Entries.val_entry n a i j.
Proof.
  intros HL Hi Hj. unfold unrounded, Entries.val_entry.
  rewrite (ok_P2 _ _ _ HL i j Hi Hj), (ok_Q_diag _ _ _ HL i Hi). reflexivity.
Qed.

(** C4, as the code has it.  For every arithmetic: the matrix
    [compute_hamiltonian] returns has, in each entry, the real and the
    imaginary part of the value [val] of the final loop nest, each multiplied
    by [10^5], rounded to the nearest integer and divided by [10^5], in the
    arithmetic of the program.  In exact arithmetic that is [val] rounded to
    five decimals, part by part: a multiple of [10^-5] at most [0.000005]
    away, the one away from zero at a tie; and every number [v] that [bang]
    sends has [v * 10^5] integral. *)
Theorem entries_rounded_to_five_decimals :
  (forall (D : Type) (Fl : Flt D) (U : Uninit D) (x : t_qte_quantumho D)
          (H : matrix D) (w w' : world D),
     compute_hamiltonian x w = (Value (Some H), w') ->
     exists L,
       compute_hamiltonian_locals x w = (Value (Some L), w') /\ H = l_H L /\
       forall i j, 0 <= i < n x -> 0 <= j < n x ->
         let val := unrounded (l_P2 L) (l_Q_diag L) i j in
         mget H i j
         = rcadd (Documented.times_round_divide (creal val))
                 (crmul CI (Documented.times_round_divide (cimag val)))) /\
  (forall (U : Uninit R) (x : t_qte_quantumho R) (w : world R),
     2 <= n x -> 2 * n x * n x <= CLong.LONG_MAX ->
     (forall L w', compute_hamiltonian_locals x w = (Value (Some L), w') ->
        forall i j, 0 <= i < n x -> 0 <= j < n x ->
          let val := unrounded (l_P2 L) (l_Q_diag L) i j in
          nearest_five_decimals (fst val) (fst (mget (l_H L) i j)) /\
          nearest_five_decimals (snd val) (snd (mget (l_H L) i j))) /\
     (forall r w' l, qte_quantumho_bang x w = (r, w') ->
        log w' = log w ++ [outlet_list "out" (2 * n x * n x) l] ->
        Forall (fun e => exists v, e = A_FLOAT v /\ five_decimals v) l) /\
     (plentiful w -> exists w' l,
        qte_quantumho_bang x w = (Value tt, w') /\
        log w' = log w ++ [outlet_list "out" (2 * n x * n x) l])).
Proof.
  split.
  - intros D Fl U x H w w' E.
    destruct (compute_hamiltonian_Some x H w w' E) as (L & EL & ->).
    exists L. split; [exact EL|]. split; [reflexivity|].
    intros i j Hi Hj. cbv zeta.
    destruct (compute_hamiltonian_locals_Some x L w w' EL) as [HL _].
    rewrite (ok_H _ _ _ HL i j Hi Hj), (unrounded_val_entry _ _ L i j HL Hi Hj).
    apply H_entry_times_round_divide.
  - intros U x w Hn Hmax. split; [|split].
    + intros L w' EL i j Hi Hj. cbv zeta.
      destruct (compute_hamiltonian_locals_Some x L w w' EL) as [HL _].
      rewrite (ok_H _ _ _ HL i j Hi Hj), (unrounded_val_entry _ _ L i j HL Hi Hj).
      rewrite H_entry_rounded. cbn [fst snd]. split; apply round5_nearest.
    + intros r w' l E Hlog.
      destruct (bang_sends_only_that x w w' r ltac:(lia) Hmax E)
        as [Hsame | [(msg & Herr) | (l' & Hsent & Hrm)]].
      * rewrite Hsame in Hlog. exfalso.
        apply (f_equal (@List.length _)) in Hlog. rewrite length_app in Hlog.
        simpl in Hlog. lia.
      * rewrite Herr in Hlog. apply app_inv_head in Hlog. discriminate.
      * rewrite Hsent in Hlog. apply app_inv_head in Hlog.
        assert (l' = l) by congruence. subst l'.
        apply Forall_forall. intros e He.
        assert (Hn0 : 0 <= n x) by lia.
        destruct (row_major_interleaved_In _ _ _ e Hn0 Hrm He)
          as (i & j & Hi & Hj & [->| ->]).
        -- eexists. split; [reflexivity|].
           rewrite H_entry_rounded. apply round5_five_decimals.
        -- eexists. split; [reflexivity|].
           rewrite H_entry_rounded. apply round5_five_decimals.
    + intros Hw.
      destruct (bang_plentiful x w ltac:(lia) Hmax Hw) as (l & w' & E & Hlog & _).
      eauto.
Qed.

End BuilderOutput.

Section BuilderOutputExamples.
Import Exact QuantumHO.
#[local] Existing Instance Binary64.double.

(** C4 as stated fails in the arithmetic of the program.
    [[qte.quantumho 2 2.75]]: the first number sent is the double nearest to
    [1.19531]; multiplied by [10^5] in doubles it gives
    [119531.00000000001], and as a real number it is no multiple of [10^-5]
    either.  [[qte.quantumho 2 0x1p+506]]: the value [val] of entry [(0, 0)]
    is finite, [2^1009], the multiplication by [10^5] overflows and the number
    sent is [+infinity]. *)
Lemma rounded_entries_counterexample :
  (exists l w' v,
     qte_quantumho_bang (Fl := Binary64.double) (U := Binary64.unwritten)
       Binary64.ho_2_plain Binary64.calm = (Value tt, w') /\
     log w' = [outlet_list "out" 8 l] /\
     nth 0 l (A_SYM "") = A_FLOAT v /\
     Binary64.is_finite v = true /\
     Binary64.is_integer (Binary64.times_100000 v) = false /\
     Binary64.is_multiple_of_1e_5 v = false) /\
  (exists L l w1 w2,
     compute_hamiltonian_locals (Fl := Binary64.double) (U := Binary64.unwritten)
       Binary64.ho_2_large Binary64.calm = (Value (Some L), w1) /\
     Binary64.is_finite
       (fst (unrounded (Fl := Binary64.double) (l_P2 L) (l_Q_diag L) 0 0)) = true /\
     qte_quantumho_bang (Fl := Binary64.double) (U := Binary64.unwritten)
       Binary64.ho_2_large Binary64.calm = (Value tt, w2) /\
     log w2 = [outlet_list "out" 8 l] /\
     nth 0 l (A_SYM "") = A_FLOAT PrimFloat.infinity).
Proof.
  split.
  - eexists. eexists. eexists.
    split; [vm_compute; reflexivity|].
    split; [reflexivity|]. split; [reflexivity|].
    repeat split; vm_compute; reflexivity.
  - eexists. eexists. eexists. eexists.
    split; [vm_compute; reflexivity|].
    split; [vm_compute; reflexivity|].
    split; [vm_compute; reflexivity|].
    split; reflexivity.
Qed.

Lemma entries_rounded_to_five_decimals_witness :
  (exists H w',
     compute_hamiltonian (Fl := Binary64.double) (U := Binary64.unwritten)
       Binary64.ho_2_plain Binary64.calm = (Value (Some H), w') /\
     exists L,
       H = l_H L /\
       mget (Fl := Binary64.double) H 0 0
       = rcadd (Documented.times_round_divide
                  (creal (unrounded (l_P2 L) (l_Q_diag L) 0 0)))
               (crmul CI (Documented.times_round_divide
                            (cimag (unrounded (l_P2 L) (l_Q_diag L) 0 0))))) /\
  (exists w' l,
     qte_quantumho_bang (U := Sample.zeros) Sample.ho_2 Sample.calm = (Value tt, w') /\
     log w' = [outlet_list "out" 8 l] /\
     Forall (fun e => exists v, e = A_FLOAT v /\ five_decimals v) l).
Proof.
  destruct entries_rounded_to_five_decimals as [Hany Hexact]. split.
  - assert (Erun : exists H w',
              compute_hamiltonian (Fl := Binary64.double) (U := Binary64.unwritten)
                Binary64.ho_2_plain Binary64.calm = (Value (Some H), w'))
      by (eexists; eexists; vm_compute; reflexivity).
    destruct Erun as (H & w' & E).
    destruct (Hany _ Binary64.double Binary64.unwritten Binary64.ho_2_plain
                H Binary64.calm w' E) as (L & _ & EH & Hcells).
    exists H, w'. split; [exact E|]. exists L. split; [exact EH|].
    apply (Hcells 0 0); split; [apply Z.le_refl | reflexivity | apply Z.le_refl | reflexivity].
  - destruct (Hexact Sample.zeros Sample.ho_2 Sample.calm) as (_ & Hall & Hex).
    + simpl. lia.
    + unfold CLong.LONG_MAX. simpl. lia.
    + destruct Hex as (w' & l & E & Hlog); [constructor|].
      exists w', l. split; [exact E|]. split; [exact Hlog|].
      exact (Hall _ w' l E Hlog).
Defined.

End BuilderOutputExamples.

Section BuilderLayout.
Context {D : Type} {Fl : Flt D} {U : Uninit D}.
Import QuantumHO Shape.

(** C5.  For every [n >= 2] and every [a], what [bang] sends is one flat
    list of exactly [2 n n] numbers, row-major with interleaved parts: entry
    [(i, j)] of [H] gives its real part at index [2 (i n + j)] and its
    imaginary part at index [2 (i n + j) + 1].  This holds for every
    arithmetic [D]; the list is sent whenever the allocations are served,
    and no other list is ever sent. *)
Theorem output_row_major_interleaved (x : t_qte_quantumho D) (w : world D) :
  2 <= n x -> 2 * n x * n x <= CLong.LONG_MAX ->
  (plentiful w ->
     exists l w',
       qte_quantumho_bang x w = (Value tt, w') /\
       log w' = log w ++ [outlet_list "out" (2 * n x * n x) l] /\
       row_major_interleaved (n x) (Entries.H_entry (n x) (a x)) l) /\
  (forall r w' out argc l,
     qte_quantumho_bang x w = (r, w') ->
     In (outlet_list out argc l) (log w') ->
     In (outlet_list out argc l) (log w) \/
     (out = "out"%string /\ argc = 2 * n x * n x /\
      row_major_interleaved (n x) (Entries.H_entry (n x) (a x)) l)).
Proof.
  intros Hn Hmax. split.
  - intros Hw. apply bang_plentiful; [lia | assumption | assumption].
  - intros r w' out argc l E Hin.
    destruct (bang_sends_only_that x w w' r ltac:(lia) Hmax E)
      as [Hsame | [(msg & Herr) | (l' & Hsent & Hrm)]].
    + left. now rewrite <- Hsame.
    + rewrite Herr in Hin. apply in_app_or in Hin. destruct Hin as [Hin|[Hin|[]]].
      * now left.
      * discriminate.
    + rewrite Hsent in Hin. apply in_app_or in Hin. destruct Hin as [Hin|[Hin|[]]].
      * now left.
      * right. injection Hin as <- <- <-. auto.
Qed.

End BuilderLayout.

Section BuilderLayoutExample.
Import Exact.

Lemma output_row_major_interleaved_witness :
  exists l w',
    QuantumHO.qte_quantumho_bang (U := Sample.zeros) Sample.ho_2 Sample.calm
      = (Value tt, w') /\
    log w' = [outlet_list "out" 8 l] /\
    Shape.row_major_interleaved 2 (Entries.H_entry 2 1%R) l.
Proof.
  destruct (output_row_major_interleaved (U := Sample.zeros) Sample.ho_2 Sample.calm)
    as [Hex _].
  - simpl. lia.
  - unfold CLong.LONG_MAX. simpl. lia.
  - apply Hex. constructor.
Defined.

End BuilderLayoutExample.

Section BuilderDimension.
Import Exact QuantumHO Shape.

Lemma Rround_0 : Rround 0 = 0%R.
Proof.
  unfold Rround. destruct (Rle_dec 0 0) as [_|H]; [|lra].
  now rewrite Int_part_half.
Qed.

Lemma round5_0 : round5 0%R = 0%R.
Proof.
  unfold round5. cbn [dround dmul ddiv of_long RealFlt].
  rewrite Rmult_0_l, Rround_0. unfold Rdiv. ring.
Qed.

(** The only entry of the 1 x 1 Hamiltonian is zero. *)
Lemma H_entry_dimension_one (a : R) : Entries.H_entry 1 a 0 0 = (0%R, 0%R).
Proof.
  rewrite H_entry_rounded.
  assert (Ev : Entries.val_entry 1 a 0 0 = (0%R, 0%R)).
  { unfold Entries.val_entry, Entries.P2_entry. rewrite dot_is_sum.
    unfold Csum. change (Z.to_nat 1) with 1%nat. cbn [Csum_nat Z.of_nat].
    rewrite !P_entry_Momentum. unfold Momentum, Csum, Entries.Q_entry.
    change (Z.to_nat 1) with 1%nat. change (CLong.sub 1 1) with 0.
    cbn [Csum_nat Z.of_nat Z.eqb].
    destruct (Fourier 1 0 0) as [fr fi].
    cbv [cadd cmul conj rcmul crmul rcadd c_of_real CI creal cimag d0 d1 d2
         Cplus Cmult Cconj Cscal RtoC];
    cbn [dadd dmul ddiv dneg dhalf of_long RealFlt fst snd].
    apply (f_equal2 (@pair R R)); unfold Rdiv; ring. }
  rewrite Ev. cbn [fst snd]. now rewrite round5_0.
Qed.

(** C9, on the code.  [qte.quantumho 1 1.] is constructed with dimension 1,
    and its [bang] builds the 1 x 1 matrix and sends it: nothing rejects a
    dimension below 2. *)
Theorem dimension_one_is_built_and_sent :
  qte_quantumho_new [A_LONG 1; A_FLOAT 1%R] Sample.calm
    = (Value (Some Sample.ho_1), Sample.calm) /\
  exists w',
    qte_quantumho_bang (U := Sample.zeros) Sample.ho_1 Sample.calm = (Value tt, w') /\
    log w' = [outlet_list "out" 2 [A_FLOAT 0%R; A_FLOAT 0%R]].
Proof.
  split; [reflexivity|].
  destruct (bang_plentiful (U := Sample.zeros) Sample.ho_1 Sample.calm)
    as (l & w' & E & Hlog & Hlen & Hcells).
  - simpl. lia.
  - unfold CLong.LONG_MAX. simpl. lia.
  - constructor.
  - exists w'. split; [exact E|].
    cbn [n a Sample.ho_1] in Hlog, Hlen, Hcells.
    destruct (Hcells 0 0 ltac:(lia) ltac:(lia)) as [Hre Him].
    rewrite H_entry_dimension_one in Hre, Him.
    destruct l as [|e0 [|e1 [|e2 l]]]; cbn [List.length] in Hlen; try lia.
    cbn in Hre, Him. change (Pos.to_nat 1) with 1%nat in Him. cbv iota in Him.
    subst e0 e1. exact Hlog.
Qed.

End BuilderDimension.

(** ** A worked case: [n = 2], [a = 1]

    [F = 2^(-1/2) [[1, 1], [1, -1]]], since [exp(pi i) = -1]. *)

Section WorkedCase.
Import Exact QuantumHO Shape.

Lemma inv_sqrt2_sqr : (/ sqrt 2 * / sqrt 2 = / 2)%R.
Proof.
  rewrite <- Rinv_mult. now rewrite sqrt_sqrt by lra.
Qed.

Lemma Fourier_2_0 (l : Z) : Fourier 2 0 l = (/ sqrt 2, 0)%R.
Proof.
  unfold Fourier, Cscal. cbn [fst snd].
  replace (2 * PI * 0 * IZR l / 2)%R with 0%R by (unfold Rdiv; ring).
  rewrite cos_0, sin_0. apply (f_equal2 (@pair R R)); ring.
Qed.

Lemma Fourier_2_l_0 (k : Z) : Fourier 2 k 0 = (/ sqrt 2, 0)%R.
Proof.
  unfold Fourier, Cscal. cbn [fst snd].
  replace (2 * PI * IZR k * 0 / 2)%R with 0%R by (unfold Rdiv; ring).
  rewrite cos_0, sin_0. apply (f_equal2 (@pair R R)); ring.
Qed.

Lemma Fourier_2_1_1 : Fourier 2 1 1 = (- / sqrt 2, 0)%R.
Proof.
  unfold Fourier, Cscal. cbn [fst snd].
  replace (2 * PI * 1 * 1 / 2)%R with PI by field.
  rewrite cos_PI, sin_PI. apply (f_equal2 (@pair R R)); ring.
Qed.

(** Unfolds a sum of two terms. *)
Ltac two_terms :=
  unfold Csum; change (Z.to_nat 2) with 2%nat;
  cbn [Csum_nat]; change (Z.of_nat 1) with 1; change (Z.of_nat 0) with 0.

(** [P = [[1/2, -1/2], [-1/2, 1/2]]], and [P * P = P]. *)
Lemma Momentum_2 :
  Momentum 2 0 0 = (1 / 2, 0)%R /\ Momentum 2 0 1 = (- (1 / 2), 0)%R /\
  Momentum 2 1 0 = (- (1 / 2), 0)%R /\ Momentum 2 1 1 = (1 / 2, 0)%R.
Proof.
  pose proof inv_sqrt2_sqr as Hr.
  unfold Momentum. two_terms.
  rewrite !Fourier_2_0, !Fourier_2_l_0, Fourier_2_1_1.
  unfold Cplus, Cmult, Cconj, RtoC. cbn [fst snd].
  set (r := (/ sqrt 2)%R) in *.
  repeat split; apply (f_equal2 (@pair R R)); nra.
Qed.

Lemma P_entry_2 :
  Entries.P_entry 2 0 0 = (1 / 2, 0)%R /\ Entries.P_entry 2 0 1 = (- (1 / 2), 0)%R /\
  Entries.P_entry 2 1 0 = (- (1 / 2), 0)%R /\ Entries.P_entry 2 1 1 = (1 / 2, 0)%R.
Proof. rewrite !P_entry_Momentum. exact Momentum_2. Qed.

Lemma P2_entry_2 :
  Entries.P2_entry 2 0 0 = (1 / 2, 0)%R /\ Entries.P2_entry 2 0 1 = (- (1 / 2), 0)%R /\
  Entries.P2_entry 2 1 0 = (- (1 / 2), 0)%R /\ Entries.P2_entry 2 1 1 = (1 / 2, 0)%R.
Proof.
  destruct P_entry_2 as (E00 & E01 & E10 & E11).
  unfold Entries.P2_entry. rewrite !dot_is_sum. two_terms.
  rewrite E00, E01, E10, E11.
  unfold Cplus, Cmult. cbn [fst snd].
  repeat split; apply (f_equal2 (@pair R R)); lra.
Qed.

Lemma Rround_IZR (z : Z) : Rround (IZR z) = IZR z.
Proof.
  unfold Rround. destruct (Rle_dec 0 (IZR z)) as [Hz|Hz].
  - f_equal. symmetry. apply Int_part_spec. lra.
  - rewrite <- opp_IZR. f_equal.
    assert (E : (- z)%Z = Int_part (- IZR z + / 2)).
    { apply Int_part_spec. rewrite opp_IZR. lra. }
    rewrite <- E. lia.
Qed.

Lemma round5_exact (z : Z) : round5 (IZR z / 100000)%R = (IZR z / 100000)%R.
Proof.
  unfold round5. cbn [dround dmul ddiv of_long RealFlt].
  replace (IZR z / 100000 * 100000)%R with (IZR z) by field.
  now rewrite Rround_IZR.
Qed.

(** The matrix is [[0.375, -0.25], [-0.25, 0.375]]. *)
Lemma H_entry_2 :
  Entries.H_entry 2 1%R 0 0 = (0.375, 0)%R /\ Entries.H_entry 2 1%R 0 1 = (-0.25, 0)%R /\
  Entries.H_entry 2 1%R 1 0 = (-0.25, 0)%R /\ Entries.H_entry 2 1%R 1 1 = (0.375, 0)%R.
Proof.
  destruct P2_entry_2 as (E00 & E01 & E10 & E11).
  rewrite !H_entry_rounded. unfold Entries.val_entry. rewrite E00, E01, E10, E11.
  rewrite !Q_entry_Position by (unfold CLong.LONG_MIN, CLong.LONG_MAX; lia).
  unfold Position. cbn [Z.eqb Pos.eqb].
  cbv [cadd rcmul rcadd c_of_real CI creal cimag d0 d1];
  cbn [dadd dmul dhalf of_long RealFlt fst snd].
  replace (1 / 2 * (1 / 2 + (1 * (- (2 - 1) / 2 + 0) * (1 * (- (2 - 1) / 2 + 0)) + 0 * 0)))%R
    with (IZR 37500 / 100000)%R by field.
  replace (1 / 2 * (1 / 2 + (1 * (- (2 - 1) / 2 + 1) * (1 * (- (2 - 1) / 2 + 1)) + 0 * 0)))%R
    with (IZR 37500 / 100000)%R by field.
  replace (1 / 2 * (- (1 / 2) + 0))%R with (IZR (-25000) / 100000)%R by field.
  replace (1 / 2 * (0 + 0 * 1))%R with (IZR 0 / 100000)%R by field.
  replace (1 / 2 * (0 + 0))%R with (IZR 0 / 100000)%R by field.
  rewrite !round5_exact.
  repeat split; apply (f_equal2 (@pair R R)); lra.
Qed.

(** What [qte.quantumho 2 1.] sends on [bang]. *)
Lemma bang_2 :
  exists w',
    qte_quantumho_bang (U := Sample.zeros) Sample.ho_2 Sample.calm = (Value tt, w') /\
    log w' =
      [outlet_list "out" 8
         [A_FLOAT 0.375%R; A_FLOAT 0%R; A_FLOAT (-0.25)%R; A_FLOAT 0%R;
          A_FLOAT (-0.25)%R; A_FLOAT 0%R; A_FLOAT 0.375%R; A_FLOAT 0%R]].
Proof.
  destruct (bang_plentiful (U := Sample.zeros) Sample.ho_2 Sample.calm)
    as (l & w' & E & Hlog & Hlen & Hcells).
  - simpl. lia.
  - unfold CLong.LONG_MAX. simpl. lia.
  - constructor.
  - exists w'. split; [exact E|].
    cbn [n a Sample.ho_2] in Hlog, Hlen, Hcells.
    destruct H_entry_2 as (E00 & E01 & E10 & E11).
    destruct (Hcells 0 0 ltac:(lia) ltac:(lia)) as [R00 I00].
    destruct (Hcells 0 1 ltac:(lia) ltac:(lia)) as [R01 I01].
    destruct (Hcells 1 0 ltac:(lia) ltac:(lia)) as [R10 I10].
    destruct (Hcells 1 1 ltac:(lia) ltac:(lia)) as [R11 I11].
    rewrite E00 in R00, I00. rewrite E01 in R01, I01.
    rewrite E10 in R10, I10. rewrite E11 in R11, I11.
    destruct l as [|e0 [|e1 [|e2 [|e3 [|e4 [|e5 [|e6 [|e7 [|e8 l]]]]]]]]];
      cbn [List.length] in Hlen; try lia.
    unfold get in *. cbn [creal cimag fst snd] in *.
    change (Z.to_nat (2 * (0 * 2 + 0))) with 0%nat in R00.
    change (Z.to_nat (2 * (0 * 2 + 0) + 1)) with 1%nat in I00.
    change (Z.to_nat (2 * (0 * 2 + 1))) with 2%nat in R01.
    change (Z.to_nat (2 * (0 * 2 + 1) + 1)) with 3%nat in I01.
    change (Z.to_nat (2 * (1 * 2 + 0))) with 4%nat in R10.
    change (Z.to_nat (2 * (1 * 2 + 0) + 1)) with 5%nat in I10.
    change (Z.to_nat (2 * (1 * 2 + 1))) with 6%nat in R11.
    change (Z.to_nat (2 * (1 * 2 + 1) + 1)) with 7%nat in I11.
    cbn [nth Z.ltb Z.compare Z.mul Z.add Pos.mul Pos.add Pos.compare Pos.compare_cont]
      in R00, I00, R01, I01, R10, I10, R11, I11.
    subst. exact Hlog.
Qed.

End WorkedCase.

(* ================================================================== *)
(** * Part IV: the eigen-solver (qte.eigencalc.c)                      *)
(* ================================================================== *)

Section Solver.
Context {D : Type} {Fl : Flt D} {U : Uninit D} {L : Eigencalc.Lapack D}.
Import Eigencalc Shape.

(** The dimension of a solver stays positive. *)
Lemma handle_keeps_positive (x x' : t_qte_eigencalc D) (msg : message D) (w w' : world D) :
  0 < n x -> handle x msg w = (Value x', w') -> 0 < n x'.
Proof.
  intros Hx. destruct msg as [n'|argv|]; cbn [handle].
  - unfold qte_eigencalc_dim.
    destruct (Z.leb_spec n' 0); [|destruct (Z.eqb_spec (n x) n')].
    + unfold bind, tell, ret. intros E. apply pair_equal_spec in E.
      destruct E as [E _]. now inversion E; subst.
    + unfold ret. intros E. apply pair_equal_spec in E.
      destruct E as [E _]. now inversion E; subst.
    + unfold bind, tell, ret. intros E. apply pair_equal_spec in E.
      destruct E as [E _]. inversion E; subst. cbn [n]. lia.
  - unfold qte_eigencalc_list. cbv zeta.
    destruct (negb _).
    + unfold bind, tell, ret. intros E. apply pair_equal_spec in E.
      destruct E as [E _]. now inversion E; subst.
    + intros E. split_bind E o w1 E1. destruct o as [m|];
        unfold bind, tell, ret in E; apply pair_equal_spec in E;
        destruct E as [E _]; inversion E; subst; exact Hx.
  - destruct (handle_bang_Value x w) as (w1 & E & _). cbn [handle] in E.
    rewrite E. intros E'. apply pair_equal_spec in E'.
    destruct E' as [E' _]. now inversion E'; subst.
Qed.

(** C10.  A [dim] message whose argument is the current dimension changes
    nothing: dimension and stored matrix are kept and nothing is sent.  A
    non-positive argument is rejected with an error and no change of the
    object.  The stored matrix is discarded only by a positive argument that
    differs from the current dimension. *)
Theorem dim_message_cases (x : t_qte_eigencalc D) (n' : Z) (w : world D) :
  (0 < n' -> n' = n x -> handle x (msg_dim n') w = (Value x, w)) /\
  (n' <= 0 ->
     handle x (msg_dim n') w
     = (Value x, mkWorld (heap w) (log w ++ [object_error "dim must be > 0" []]))) /\
  (0 < n' -> n' <> n x ->
     handle x (msg_dim n') w
     = (Value (mk_eigencalc n' None),
        mkWorld (heap w) (log w ++ [object_post "Dimension set to %ld" [n']]))) /\
  (forall x' w', handle x (msg_dim n') w = (Value x', w') ->
     matrix x' <> matrix x -> 0 < n' /\ n' <> n x).
Proof.
  cbn [handle]. unfold qte_eigencalc_dim.
  split; [|split; [|split]].
  - intros Hpos ->. destruct (Z.leb_spec (n x) 0); [lia|]. now rewrite Z.eqb_refl.
  - intros Hneg. destruct (Z.leb_spec n' 0); [reflexivity | lia].
  - intros Hpos Hne. destruct (Z.leb_spec n' 0); [lia|].
    destruct (Z.eqb_spec (n x) n'); [congruence | reflexivity].
  - intros x' w' E Hm.
    destruct (Z.leb_spec n' 0) as [Hle|Hgt].
    + unfold bind, tell, ret in E. apply pair_equal_spec in E. destruct E as [E _].
      inversion E; subst. congruence.
    + destruct (Z.eqb_spec (n x) n') as [Heq|Hne].
      * unfold ret in E. apply pair_equal_spec in E. destruct E as [E _].
        inversion E; subst. congruence.
      * split; [lia | congruence].
Qed.

(** C7.  [bang] on a solver that holds no matrix reports "No matrix
    stored", sends nothing to either outlet and leaves the solver as it was,
    without a matrix. *)
Theorem decompose_on_empty (x : t_qte_eigencalc D) (w : world D) :
  matrix x = None ->
  handle x msg_bang w
  = (Value x,
     mkWorld (heap w)
       (log w ++ [object_error "No matrix stored. Use a list message first." []])).
Proof.
  intros Hx. cbn [handle]. unfold qte_eigencalc_bang. rewrite Hx. reflexivity.
Qed.

(** C6, as the code has it.  A [list] message of the wrong length changes
    nothing and reports the two counts.  One of the right length whose
    allocation fails stores nothing, reports the failure and leaves the
    solver without a matrix, the dimension unchanged.  Otherwise a matrix is
    stored. *)
Theorem accept_outcomes (x : t_qte_eigencalc D) (argv : list (atom D)) (w : world D) :
  let argc := Z.of_nat (List.length argv) in
  let total := CLong.mul (CLong.mul 2 (n x)) (n x) in
  (0 <= n x -> 2 * n x * n x <= CLong.LONG_MAX -> total = 2 * n x * n x) /\
  (argc <> total ->
     handle x (msg_list argv) w
     = (Value x,
        mkWorld (heap w)
          (log w ++ [object_error "Expected %ld floats for complex matrix, got %ld"
                       [total; argc]]))) /\
  (argc = total -> forall h, heap w = false :: h ->
     handle x (msg_list argv) w
     = (Value (mk_eigencalc (n x) None),
        mkWorld h (log w ++ [object_error "Memory allocation failed for matrix storage." []]))) /\
  (argc = total -> forall h, heap w = [] \/ heap w = true :: h ->
     exists m w',
       handle x (msg_list argv) w = (Value (mk_eigencalc (n x) (Some m)), w') /\
       log w' = log w ++ [object_post "Complex matrix stored (dimension %ld)." [n x]]).
Proof.
  cbv zeta. cbn [handle]. unfold qte_eigencalc_list. cbv zeta.
  split; [|split; [|split]].
  - intros Hn Hmax. now apply list_size_no_wrap.
  - intros Hne. destruct (Z.eqb_spec (Z.of_nat (List.length argv))
                            (CLong.mul (CLong.mul 2 (n x)) (n x))); [contradiction|].
    reflexivity.
  - intros -> h Hh. rewrite Z.eqb_refl. cbn [negb].
    unfold malloc_complex, bind, request, ret, tell. rewrite Hh. reflexivity.
  - intros -> h Hh. rewrite Z.eqb_refl. cbn [negb].
    unfold malloc_complex, bind, request, ret, tell.
    destruct Hh as [Hh|Hh]; rewrite Hh; eexists; eexists; split; reflexivity.
Qed.

End Solver.

Section SolverExamples.
Import Exact Eigencalc.

Lemma dim_message_cases_witness :
  handle (U := Sample.zeros) (L := Sample.idle_lapack) Sample.ready_1 (msg_dim 1) Sample.calm
    = (Value Sample.ready_1, Sample.calm) /\
  handle (U := Sample.zeros) (L := Sample.idle_lapack) Sample.ready_1 (msg_dim 0) Sample.calm
    = (Value Sample.ready_1, mkWorld [] [object_error "dim must be > 0" []]) /\
  handle (U := Sample.zeros) (L := Sample.idle_lapack) Sample.ready_1 (msg_dim 4) Sample.calm
    = (Value (mk_eigencalc 4 None), mkWorld [] [object_post "Dimension set to %ld" [4]]).
Proof.
  split; [|split].
  - apply (dim_message_cases (U := Sample.zeros) (L := Sample.idle_lapack)
             Sample.ready_1 1 Sample.calm); simpl; lia.
  - apply (dim_message_cases (U := Sample.zeros) (L := Sample.idle_lapack)
             Sample.ready_1 0 Sample.calm); simpl; lia.
  - apply (dim_message_cases (U := Sample.zeros) (L := Sample.idle_lapack)
             Sample.ready_1 4 Sample.calm); simpl; lia.
Defined.

Lemma decompose_on_empty_witness :
  handle (U := Sample.zeros) (L := Sample.idle_lapack) Sample.empty_3 msg_bang Sample.calm
  = (Value Sample.empty_3,
     mkWorld [] [object_error "No matrix stored. Use a list message first." []]).
Proof.
  apply (decompose_on_empty (U := Sample.zeros) (L := Sample.idle_lapack)
           Sample.empty_3 Sample.calm).
  reflexivity.
Defined.

(** C6 as stated fails: the list has the right length, the allocation
    fails, and the matrix that was stored is gone. *)
Lemma accept_allocation_failure_counterexample :
  matrix Sample.ready_1 = Some [(5%R, 0%R)] /\
  handle (U := Sample.zeros) (L := Sample.idle_lapack) Sample.ready_1
         (msg_list [A_FLOAT 7%R; A_FLOAT 0%R]) Sample.exhausted
  = (Value (mk_eigencalc 1 None),
     mkWorld [] [object_error "Memory allocation failed for matrix storage." []]).
Proof. split; reflexivity. Qed.

Lemma accept_outcomes_witness :
  handle (U := Sample.zeros) (L := Sample.idle_lapack) Sample.ready_1
         (msg_list [A_FLOAT 7%R]) Sample.calm
  = (Value Sample.ready_1,
     mkWorld [] [object_error "Expected %ld floats for complex matrix, got %ld" [2; 1]]).
Proof.
  apply (accept_outcomes (U := Sample.zeros) (L := Sample.idle_lapack)
           Sample.ready_1 [A_FLOAT 7%R] Sample.calm).
  vm_compute. discriminate.
Defined.

End SolverExamples.

(* ================================================================== *)
(** * Part V: the prototype (simplemax.c) against the builder          *)
(* ================================================================== *)

Section PrototypeStages.
Context {D : Type} {Fl : Flt D} {U : Uninit D}.
Import Shape.

Lemma upd_nat_twice {A : Type} (u v : A) :
  forall (l : list A) (i : nat), upd_nat (upd_nat l i u) i v = upd_nat l i v.
Proof.
  induction l as [|h t IH]; intros [|i]; simpl; auto. now rewrite IH.
Qed.

Lemma upd_twice {A : Type} (l : list A) (i : Z) (u v : A) :
  upd (upd l i u) i v = upd l i v.
Proof.
  unfold upd. destruct (i <? 0); [reflexivity | apply upd_nat_twice].
Qed.

Lemma mset_twice (n : Z) (M : QuantumHO.matrix D) (i j : Z) (u v : cplx) :
  square n M -> 0 <= i < n ->
  QuantumHO.mset (QuantumHO.mset M i j u) i j v = QuantumHO.mset M i j v.
Proof.
  intros [Hlen Hrows] Hi. unfold QuantumHO.mset.
  rewrite get_upd_same by lia. now rewrite !upd_twice.
Qed.

(** The in-place accumulation leaves in the cell the sum of the products,
    started from zero. *)
Lemma accumulate_spec (n : Z) (A B R : QuantumHO.matrix D) (i j : Z) :
  square n R -> 0 <= i < n -> 0 <= j < n ->
  SimpleMax.accumulate n A B i j R =
  QuantumHO.mset R i j
    (for_long n (fun k sum => cadd sum (cmul (QuantumHO.mget A i k) (QuantumHO.mget B k j)))
       (c_of_real d0)).
Proof.
  intros HR Hi Hj. unfold SimpleMax.accumulate, for_long. cbv zeta.
  generalize (c_of_real (D := D) d0) as s. generalize 0 as i0.
  induction (Z.to_nat n) as [|k IH]; intros i0 s; [reflexivity|].
  cbn [for_from].
  rewrite (mget_mset_same n) by assumption.
  rewrite (mset_twice n) by assumption.
  apply IH.
Qed.

Lemma product_spec (n : Z) (A B R : QuantumHO.matrix D) :
  square n R ->
  square n (SimpleMax.product n A B R) /\
  forall i j, 0 <= i < n -> 0 <= j < n ->
    QuantumHO.mget (SimpleMax.product n A B R) i j =
    for_long n (fun k sum => cadd sum (cmul (QuantumHO.mget A i k) (QuantumHO.mget B k j)))
      (c_of_real d0).
Proof.
  intros HR.
  apply (nested_fill (QuantumHO.matrix D) cplx n (square n) QuantumHO.mget
           (fun i j R => SimpleMax.accumulate n A B i j R)
           (fun i j => for_long n
              (fun k sum => cadd sum (cmul (QuantumHO.mget A i k) (QuantumHO.mget B k j)))
              (c_of_real d0))).
  - intros i j s Hi Hj Hs. rewrite accumulate_spec by assumption. now apply mset_square.
  - intros i j s Hi Hj Hs. rewrite accumulate_spec by assumption.
    now apply (mget_mset_same n).
  - intros i j i' j' s Hi Hj Hi' Hj' Hne Hs. rewrite accumulate_spec by assumption.
    now apply (mget_mset_other n).
  - assumption.
Qed.

(** The prototype stores the entries of [H] as they are: no rounding. *)
Lemma prototype_build_H_spec (n : Z) (P2 : QuantumHO.matrix D) (Q2_diag : list D)
      (H : QuantumHO.matrix D) :
  square n H ->
  forall i j, 0 <= i < n -> 0 <= j < n ->
    QuantumHO.mget (SimpleMax.build_H n P2 Q2_diag H) i j =
    if i =? j then rcmul dhalf (cradd (QuantumHO.mget P2 i j) (get d0 Q2_diag i))
    else rcmul dhalf (QuantumHO.mget P2 i j).
Proof.
  intros HH.
  apply (nested_fill (QuantumHO.matrix D) cplx n (square n) QuantumHO.mget
           (fun i j H =>
              if i =? j
              then QuantumHO.mset H i j
                     (rcmul dhalf (cradd (QuantumHO.mget P2 i j) (get d0 Q2_diag i)))
              else QuantumHO.mset H i j (rcmul dhalf (QuantumHO.mget P2 i j)))
           (fun i j =>
              if i =? j then rcmul dhalf (cradd (QuantumHO.mget P2 i j) (get d0 Q2_diag i))
              else rcmul dhalf (QuantumHO.mget P2 i j))).
  - intros i j s Hi Hj Hs. destruct (i =? j); now apply mset_square.
  - intros i j s Hi Hj Hs. destruct (i =? j); now apply (mget_mset_same n).
  - intros i j i' j' s Hi Hj Hi' Hj' Hne Hs.
    destruct (i =? j); now apply (mget_mset_other n).
  - assumption.
Qed.

Lemma malloc_rows_plentiful (n : Z) :
  forall (k : nat) (rows : QuantumHO.matrix D) (w : world D),
    plentiful w ->
    exists M w', SimpleMax.malloc_rows k n rows w = (Value M, w') /\
                 plentiful w' /\ log w' = log w.
Proof.
  induction k as [|k IH]; intros rows w Hw.
  - exists rows, w. repeat split. assumption.
  - cbn [SimpleMax.malloc_rows]. unfold SimpleMax.unchecked, malloc_complex.
    destruct (allocation_plentiful (junk, junk) n w Hw) as (row & w1 & Er & Hw1 & L1).
    rewrite (bind_run _ _ _ _ _ (bind_run _ _ _ _ _ Er)).
    destruct (IH (rows ++ [row]) w1 Hw1) as (M & w' & E & Hw' & L').
    exists M, w'. repeat split; [exact E | exact Hw' | congruence].
Qed.

Lemma malloc_matrix_plentiful (n : Z) (w : world D) :
  plentiful w ->
  exists M w', SimpleMax.malloc_matrix n w = (Value M, w') /\
               plentiful w' /\ log w' = log w.
Proof.
  intros Hw. unfold SimpleMax.malloc_matrix, SimpleMax.unchecked.
  destruct (request_plentiful w Hw) as (w1 & Er & Hw1 & L1).
  rewrite (bind_run _ _ _ _ _ (bind_run _ _ _ _ _ (bind_run _ _ _ _ _ Er))).
  destruct (malloc_rows_plentiful n (Z.to_nat n) [] w1 Hw1) as (M & w' & E & Hw' & L').
  exists M, w'. repeat split; [exact E | exact Hw' | congruence].
Qed.

Lemma unchecked_plentiful {A : Type} (fill : A) (n count : Z) (w : world D) :
  plentiful w ->
  exists l w',
    SimpleMax.unchecked n []
      (bind request (fun ok : bool =>
         ret (if ok then Some (repeat fill (Z.to_nat count)) else None))) w
    = (Value l, w') /\
    List.length l = Z.to_nat count /\ plentiful w' /\ log w' = log w.
Proof.
  intros Hw. unfold SimpleMax.unchecked.
  destruct (allocation_plentiful fill count w Hw) as (l & w1 & E & Hw1 & L1).
  rewrite (bind_run _ _ _ _ _ E). unfold ret.
  apply allocation_Value in E. destruct E as [_ Hl].
  exists l, w1. repeat split; auto.
Qed.

Lemma compute_harmonic_oscillator_plentiful (x : SimpleMax.t_simplemax D)
      (H : QuantumHO.matrix D) (w : world D) :
  plentiful w ->
  exists H' w', SimpleMax.compute_harmonic_oscillator x H w = (Value H', w') /\
                plentiful w' /\ log w' = log w.
Proof.
  intros Hw. unfold SimpleMax.compute_harmonic_oscillator. cbv zeta.
  destruct (malloc_matrix_plentiful (SimpleMax.n x) w Hw) as (F & w1 & E1 & Hw1 & L1).
  rewrite (bind_run _ _ _ _ _ E1).
  destruct (malloc_matrix_plentiful (SimpleMax.n x) w1 Hw1) as (Finv & w2 & E2 & Hw2 & L2).
  rewrite (bind_run _ _ _ _ _ E2).
  destruct (unchecked_plentiful junk (SimpleMax.n x) (SimpleMax.n x) w2 Hw2)
    as (PI & w3 & E3 & _ & Hw3 & L3).
  unfold malloc_doubles at 1. rewrite (bind_run _ _ _ _ _ E3).
  destruct (malloc_matrix_plentiful (SimpleMax.n x) w3 Hw3) as (Pt & w4 & E4 & Hw4 & L4).
  rewrite (bind_run _ _ _ _ _ E4).
  destruct (malloc_matrix_plentiful (SimpleMax.n x) w4 Hw4) as (P & w5 & E5 & Hw5 & L5).
  rewrite (bind_run _ _ _ _ _ E5).
  destruct (unchecked_plentiful junk (SimpleMax.n x) (SimpleMax.n x) w5 Hw5)
    as (Q & w6 & E6 & _ & Hw6 & L6).
  unfold malloc_doubles at 1. rewrite (bind_run _ _ _ _ _ E6).
  destruct (malloc_matrix_plentiful (SimpleMax.n x) w6 Hw6) as (P2 & w7 & E7 & Hw7 & L7).
  rewrite (bind_run _ _ _ _ _ E7).
  destruct (unchecked_plentiful junk (SimpleMax.n x) (SimpleMax.n x) w7 Hw7)
    as (Q2 & w8 & E8 & _ & Hw8 & L8).
  unfold malloc_doubles at 1. rewrite (bind_run _ _ _ _ _ E8).
  unfold ret. eexists. eexists. split; [reflexivity|]. split; [assumption | congruence].
Qed.

Lemma prototype_flatten_length (n : Z) (H : QuantumHO.matrix D) (out_list : list (atom D)) :
  List.length (SimpleMax.flatten n H out_list) = List.length out_list.
Proof.
  unfold SimpleMax.flatten.
  apply (for_long_preserves (fun t => List.length t = List.length out_list));
    [|reflexivity].
  intros i t Ht.
  apply (for_long_preserves (fun u => List.length u = List.length out_list));
    [|exact Ht].
  intros j u Hu. now rewrite length_upd.
Qed.

(** With every allocation served, the prototype's [bang] sends [n n]
    numbers, the real parts only, where the builder sends [2 n n]. *)
Lemma prototype_bang_sends_real_parts (x : SimpleMax.t_simplemax D) (w : world D) :
  0 <= SimpleMax.n x -> SimpleMax.n x * SimpleMax.n x <= CLong.LONG_MAX ->
  plentiful w ->
  exists l w',
    SimpleMax.simplemax_bang x w = (Value tt, w') /\
    log w' = log w ++ [outlet_list "out" (SimpleMax.n x * SimpleMax.n x) l] /\
    Z.of_nat (List.length l) = SimpleMax.n x * SimpleMax.n x.
Proof.
  intros Hn Hmax Hw. unfold SimpleMax.simplemax_bang. cbv zeta.
  destruct (malloc_matrix_plentiful (SimpleMax.n x) w Hw) as (H & w1 & E1 & Hw1 & L1).
  rewrite (bind_run _ _ _ _ _ E1).
  destruct (compute_harmonic_oscillator_plentiful x H w1 Hw1) as (H' & w2 & E2 & Hw2 & L2).
  rewrite (bind_run _ _ _ _ _ E2).
  assert (Hnn : CLong.mul (SimpleMax.n x) (SimpleMax.n x) = SimpleMax.n x * SimpleMax.n x).
  { apply wrap_small. unfold CLong.LONG_MIN. nia. }
  rewrite Hnn.
  destruct (unchecked_plentiful junk_atom (SimpleMax.n x)
              (SimpleMax.n x * SimpleMax.n x) w2 Hw2) as (out & w3 & E3 & Hout & Hw3 & L3).
  unfold sysmem_newptr_atoms. rewrite (bind_run _ _ _ _ _ E3).
  unfold send_list, tell.
  rewrite firstn_all2 by (rewrite prototype_flatten_length; lia).
  eexists. eexists. split; [reflexivity|]. cbn [log]. split.
  - rewrite L3, L2, L1. reflexivity.
  - rewrite prototype_flatten_length. lia.
Qed.

End PrototypeStages.

Section PrototypeExact.
Import Exact Shape.

(** In the prototype the factors of the momentum operator are in the other
    order, [Finv * diag(PImpulse) * F]: with [F] the Fourier matrix, [Finv]
    its conjugate transpose and [PImpulse[k] = k], the product it computes
    is the conjugate of the builder's [P]. *)
Lemma prototype_momentum_is_conjugate (n : Z) (PImpulse : list R)
      (F Finv P_temp P : QuantumHO.matrix R) :
  square n P_temp -> square n P ->
  (forall k l, 0 <= k < n -> 0 <= l < n -> QuantumHO.mget F k l = Fourier n k l) ->
  (forall i j, 0 <= i < n -> 0 <= j < n ->
     QuantumHO.mget Finv i j = Cconj (Fourier n j i)) ->
  (forall k, 0 <= k < n -> get 0%R PImpulse k = IZR k) ->
  forall i j, 0 <= i < n -> 0 <= j < n ->
    QuantumHO.mget
      (SimpleMax.product n Finv (SimpleMax.fill_P_temp n PImpulse F P_temp) P) i j
    = Cconj (Momentum n i j).
Proof.
  intros HPt HP HF HFinv HPI i j Hi Hj.
  destruct (product_spec n Finv (SimpleMax.fill_P_temp n PImpulse F P_temp) P HP)
    as [_ EP].
  rewrite EP by assumption. clear EP.
  destruct (matrix_fill n (fun i j => rcmul (get d0 PImpulse i) (QuantumHO.mget F i j))
              P_temp HPt) as [_ EPt].
  change (for_long n _ P_temp) with (SimpleMax.fill_P_temp n PImpulse F P_temp) in EPt.
  unfold Momentum. rewrite Csum_conj. unfold Csum, for_long.
  assert (Hgen : forall m : nat, (m <= Z.to_nat n)%nat ->
    for_from m 0
      (fun k sum => cadd sum (cmul (QuantumHO.mget Finv i k)
         (QuantumHO.mget (SimpleMax.fill_P_temp n PImpulse F P_temp) k j)))
      (c_of_real d0)
    = Csum_nat m (fun k => Cconj
        (Cmult (Cmult (Fourier n i k) (RtoC (IZR k))) (Cconj (Fourier n j k))))).
  { induction m as [|m IH]; intros Hm.
    - reflexivity.
    - rewrite for_from_last, IH by lia. cbn [Csum_nat]. rewrite Z.add_0_l.
      assert (Hk : 0 <= Z.of_nat m < n) by lia.
      rewrite (HFinv i _ Hi Hk), (EPt _ j Hk Hj), (HF _ j Hk Hj).
      change (get d0 PImpulse (Z.of_nat m)) with (get 0%R PImpulse (Z.of_nat m)).
      rewrite (HPI _ Hk).
      assert (Hsym : Fourier n (Z.of_nat m) i = Fourier n i (Z.of_nat m)).
      { unfold Fourier. do 2 f_equal; f_equal; unfold Rdiv; ring. }
      assert (Hsym' : Fourier n (Z.of_nat m) j = Fourier n j (Z.of_nat m)).
      { unfold Fourier. do 2 f_equal; f_equal; unfold Rdiv; ring. }
      rewrite Hsym, Hsym'.
      destruct (Fourier n i (Z.of_nat m)) as [x1 y1].
      destruct (Fourier n j (Z.of_nat m)) as [x2 y2].
      destruct (Csum_nat m _) as [sr si].
      cbv [cadd cmul rcmul creal cimag Cplus Cmult Cconj RtoC];
      cbn [dadd dmul dneg RealFlt fst snd].
      apply (f_equal2 (@pair R R)); ring. }
  apply Hgen. lia.
Qed.

(** In the prototype the factor [a] multiplies [(n - 1) / 2] only:
    [Q[i] = -((n-1) a / 2) + i]. *)
Lemma prototype_position (n : Z) (a : R) (Q_diag : list R) (i : Z) :
  CLong.LONG_MIN < n <= CLong.LONG_MAX ->
  List.length Q_diag = Z.to_nat n -> 0 <= i < n ->
  get 0%R (SimpleMax.fill_Q_diag n a Q_diag) i = (- ((IZR n - 1) * a / 2) + IZR i)%R.
Proof.
  intros Hn Hlen Hi.
  destruct (fill_array 0%R
    (fun i => dadd (dneg (ddiv (dmul (of_long (CLong.sub n 1)) a) d2)) (of_long i))
    n Q_diag Hlen) as [_ E].
  change (for_long n _ Q_diag) with (SimpleMax.fill_Q_diag n a Q_diag) in E.
  rewrite E by assumption. unfold CLong.sub. rewrite wrap_small by lia.
  unfold d2. cbn [dadd dneg ddiv dmul of_long RealFlt]. now rewrite minus_IZR.
Qed.

(** For [n = 2], [a = 2], [i = 1] the prototype has [Q[1] = 0] where the
    builder has [Q[1] = 1]. *)
Lemma prototype_position_differs :
  get 0%R (SimpleMax.fill_Q_diag 2 2%R [0%R; 0%R]) 1 = 0%R /\ Position 2 2 1 = 1%R.
Proof.
  split.
  - rewrite prototype_position.
    + lra.
    + unfold CLong.LONG_MIN, CLong.LONG_MAX. lia.
    + reflexivity.
    + lia.
  - unfold Position. lra.
Qed.

End PrototypeExact.

(* ================================================================== *)
(** * Part VI: further properties of the eigen-solver                  *)
(* ================================================================== *)

Section SolverStorage.
Context {D : Type} {Fl : Flt D} {U : Uninit D} {L : Eigencalc.Lapack D}.
Import Eigencalc Shape Session.

Lemma read_atoms_spec (count : Z) (argv : list (atom D)) (m : list cplx) :
  List.length m = Z.to_nat count ->
  List.length (read_atoms count argv m) = Z.to_nat count /\
  forall i, 0 <= i < count ->
    get (d0, d0) (read_atoms count argv m) i =
    (atom_getfloat (get junk_atom argv (CLong.mul 2 i)),
     atom_getfloat (get junk_atom argv (CLong.add (CLong.mul 2 i) 1))).
Proof.
  intros Hlen.
  exact (fill_array (d0, d0)
    (fun i => (atom_getfloat (get junk_atom argv (CLong.mul 2 i)),
               atom_getfloat (get junk_atom argv (CLong.add (CLong.mul 2 i) 1))))
    count m Hlen).
Qed.

Lemma square_no_wrap (n : Z) :
  0 <= n -> 2 * n * n <= CLong.LONG_MAX -> CLong.mul n n = n * n.
Proof.
  intros Hn Hmax. apply wrap_small. unfold CLong.LONG_MIN. nia.
Qed.

(** A [list] message of the right length, its allocation served: what is
    stored. *)
Lemma list_stores (x : t_qte_eigencalc D) (argv : list (atom D)) (w : world D) :
  0 <= n x -> 2 * n x * n x <= CLong.LONG_MAX ->
  Z.of_nat (List.length argv) = 2 * n x * n x ->
  plentiful w ->
  exists m w',
    handle x (msg_list argv) w = (Value (mk_eigencalc (n x) (Some m)), w') /\
    plentiful w' /\
    log w' = log w ++ [object_post "Complex matrix stored (dimension %ld)." [n x]] /\
    Z.of_nat (List.length m) = n x * n x /\
    forall i j, 0 <= i < n x -> 0 <= j < n x ->
      get (d0, d0) m (i * n x + j) =
      (atom_getfloat (get junk_atom argv (2 * (i * n x + j))),
       atom_getfloat (get junk_atom argv (2 * (i * n x + j) + 1))).
Proof.
  intros Hn Hmax Hargc Hw. cbn [handle]. unfold qte_eigencalc_list. cbv zeta.
  rewrite (list_size_no_wrap (n x) Hn Hmax), Hargc, Z.eqb_refl. cbn [negb].
  rewrite (square_no_wrap (n x) Hn Hmax).
  destruct (allocation_served (junk, junk) (n x * n x) w Hw) as (w1 & E1 & Hw1 & L1).
  unfold malloc_complex. rewrite (bind_run _ _ _ _ _ E1).
  destruct (read_atoms_spec (n x * n x) argv (repeat (junk, junk) (Z.to_nat (n x * n x))))
    as [Hlen Hcells]; [apply repeat_length|].
  eexists. eexists. split; [reflexivity|]. cbn [log heap].
  split; [exact Hw1|]. split; [now rewrite L1|]. split; [rewrite Hlen; nia|].
  intros i j Hi Hj.
  rewrite Hcells by nia.
  destruct (index_no_wrap (n x) i j Hmax Hi Hj) as (E2 & E3 & _ & _).
  unfold CLong.mul, CLong.add in *.
  assert (B : CLong.LONG_MIN < 0) by (unfold CLong.LONG_MIN; lia).
  rewrite (wrap_small (2 * (i * n x + j))) by nia.
  rewrite (wrap_small (2 * (i * n x + j) + 1)) by nia. reflexivity.
Qed.

(** X1.  A [list] message of the right length ([2 n^2] atoms, every
    allocation served) is stored row-major, as it came: cell [i * n + j] of
    the stored matrix has atom [2 (i n + j)] of the message as real part and
    the atom after it as imaginary part.  The stored matrix has [n^2]
    cells. *)
Theorem accept_stores_row_major (x : t_qte_eigencalc D) (argv : list (atom D))
        (w : world D) :
  0 < n x -> 2 * n x * n x <= CLong.LONG_MAX ->
  Z.of_nat (List.length argv) = 2 * n x * n x ->
  plentiful w ->
  exists m w',
    handle x (msg_list argv) w = (Value (mk_eigencalc (n x) (Some m)), w') /\
    Z.of_nat (List.length m) = n x * n x /\
    forall i j, 0 <= i < n x -> 0 <= j < n x ->
      get (d0, d0) m (i * n x + j) =
      (atom_getfloat (get junk_atom argv (2 * (i * n x + j))),
       atom_getfloat (get junk_atom argv (2 * (i * n x + j) + 1))).
Proof.
  intros Hn Hmax Hargc Hw.
  destruct (list_stores x argv w ltac:(lia) Hmax Hargc Hw)
    as (m & w' & E & _ & _ & Hlen & Hcells).
  exists m, w'. auto.
Qed.

End SolverStorage.

Section SolverSessions.
Context {D : Type} {Fl : Flt D} {U : Uninit D} {L : Eigencalc.Lapack D}.
Import Eigencalc Shape Session.

Lemma read_atoms_length (count : Z) (argv : list (atom D)) (m : list cplx) :
  List.length (read_atoms count argv m) = List.length m.
Proof.
  unfold read_atoms.
  apply (for_long_preserves (fun t => List.length t = List.length m)); [|reflexivity].
  intros i t Ht. now rewrite length_upd.
Qed.

Lemma returns_handle (x : t_qte_eigencalc D) (msg : message D) : returns (handle x msg).
Proof.
  destruct msg as [n'|argv|]; cbn [handle].
  - unfold qte_eigencalc_dim.
    destruct (n' <=? 0); [|destruct (n x =? n')].
    + apply returns_bind; [apply returns_tell | intros; apply returns_ret].
    + apply returns_ret.
    + apply returns_bind; [apply returns_tell | intros; apply returns_ret].
  - unfold qte_eigencalc_list, malloc_complex. cbv zeta.
    destruct (negb _).
    + apply returns_bind; [apply returns_tell | intros; apply returns_ret].
    + apply returns_bind.
      * apply returns_bind; [apply returns_request | intros; apply returns_ret].
      * intros [m|]; (apply returns_bind; [apply returns_tell | intros; apply returns_ret]).
  - apply returns_bind; [apply returns_bang | intros; apply returns_ret].
Qed.

Lemma handle_keeps_well_formed (x x' : t_qte_eigencalc D) (msg : message D)
      (w w' : world D) :
  well_formed x -> handle x msg w = (Value x', w') -> well_formed x'.
Proof.
  intros [Hpos Hm] E. split; [now apply (handle_keeps_positive x x' msg w w')|].
  destruct msg as [n'|argv|]; cbn [handle] in E.
  - unfold qte_eigencalc_dim in E.
    destruct (n' <=? 0); [|destruct (n x =? n')].
    + unfold bind, tell, ret in E. apply pair_equal_spec in E. destruct E as [E _].
      injection E as <-. exact Hm.
    + unfold ret in E. apply pair_equal_spec in E. destruct E as [E _].
      injection E as <-. exact Hm.
    + unfold bind, tell, ret in E. apply pair_equal_spec in E. destruct E as [E _].
      injection E as <-. cbn [matrix]. discriminate.
  - unfold qte_eigencalc_list in E. cbv zeta in E.
    destruct (negb _).
    + unfold bind, tell, ret in E. apply pair_equal_spec in E. destruct E as [E _].
      injection E as <-. exact Hm.
    + split_bind E o w1 E1. apply allocation_Value in E1. destruct E1 as [_ Hlen].
      destruct o as [m0|]; unfold bind, tell, ret in E; apply pair_equal_spec in E;
        destruct E as [E _]; injection E as <-; cbn [matrix n].
      * intros m [= <-]. rewrite read_atoms_length. now apply Hlen.
      * discriminate.
  - destruct (handle_bang_Value x w) as (w1 & E' & _). cbn [handle] in E'.
    rewrite E' in E. apply pair_equal_spec in E. destruct E as [E _].
    injection E as <-. exact Hm.
Qed.

Lemma handle_all_runs (msgs : list (message D)) :
  forall (x : t_qte_eigencalc D) (w : world D),
    well_formed x ->
    exists x' w', handle_all x msgs w = (Value x', w') /\ well_formed x'.
Proof.
  induction msgs as [|msg rest IH]; intros x w Hx.
  - exists x, w. split; [reflexivity | assumption].
  - cbn [handle_all]. destruct (returns_handle x msg w) as (x1 & w1 & E1).
    rewrite (bind_run _ _ _ _ _ E1). apply IH.
    now apply (handle_keeps_well_formed x x1 msg w w1).
Qed.

Lemma handle_keeps_fits (x x' : t_qte_eigencalc D) (msg : message D) (w w' : world D) :
  fits (n x) -> message_fits msg -> handle x msg w = (Value x', w') -> fits (n x').
Proof.
  intros Hx Hmsg E. destruct msg as [n'|argv|]; cbn [handle] in E.
  - unfold qte_eigencalc_dim in E. cbn [message_fits] in Hmsg.
    destruct (Z.leb_spec n' 0); [|destruct (n x =? n')].
    + unfold bind, tell, ret in E. apply pair_equal_spec in E. destruct E as [E _].
      injection E as <-. exact Hx.
    + unfold ret in E. apply pair_equal_spec in E. destruct E as [E _].
      injection E as <-. exact Hx.
    + unfold bind, tell, ret in E. apply pair_equal_spec in E. destruct E as [E _].
      injection E as <-. cbn [n]. apply Hmsg. lia.
  - unfold qte_eigencalc_list in E. cbv zeta in E.
    destruct (negb _).
    + unfold bind, tell, ret in E. apply pair_equal_spec in E. destruct E as [E _].
      injection E as <-. exact Hx.
    + split_bind E o w1 E1.
      destruct o as [m0|]; unfold bind, tell, ret in E; apply pair_equal_spec in E;
        destruct E as [E _]; injection E as <-; exact Hx.
  - destruct (handle_bang_Value x w) as (w1 & E' & _). cbn [handle] in E'.
    rewrite E' in E. apply pair_equal_spec in E. destruct E as [E _].
    injection E as <-. exact Hx.
Qed.

Lemma handle_all_fits (msgs : list (message D)) :
  forall (x : t_qte_eigencalc D) (w : world D),
    well_formed x -> fits (n x) -> Forall message_fits msgs ->
    exists x' w', handle_all x msgs w = (Value x', w') /\ well_formed x' /\ fits (n x').
Proof.
  induction msgs as [|msg rest IH]; intros x w Hx Hf Hmsgs.
  - exists x, w. split; [reflexivity | split; assumption].
  - cbn [handle_all]. destruct (returns_handle x msg w) as (x1 & w1 & E1).
    rewrite (bind_run _ _ _ _ _ E1).
    apply Forall_cons_iff in Hmsgs. destruct Hmsgs as [Hmsg Hrest].
    apply IH; [| |exact Hrest].
    + now apply (handle_keeps_well_formed x x1 msg w w1).
    + now apply (handle_keeps_fits x x1 msg w w1).
Qed.

(** X2.  The invariant of the solver object.  A freshly made solver of a
    dimension [n] with [2 n^2 < 2^31], sent any messages in any order ([dim]
    asking for such dimensions only, [__CLPK_integer] of 32 bits), whatever
    the allocations do: every handler returns, and the object keeps such a
    dimension and a stored matrix (if any) of exactly [n * n] cells for the
    dimension it has then.  [dim] drops the matrix whose size no longer
    fits, [list] replaces it only by one of the right size. *)
Theorem session_keeps_matrix_sized (argv : list (atom D)) (msgs : list (message D))
        (x0 : t_qte_eigencalc D) (w w0 : world D) :
  clpk_32 ->
  qte_eigencalc_new argv w = (Value (Some x0), w0) ->
  fits (n x0) -> Forall message_fits msgs ->
  exists x w',
    handle_all x0 msgs w0 = (Value x, w') /\ fits (n x) /\ sized x.
Proof.
  intros _ E Hf Hmsgs. destruct (new_is_empty argv x0 w w0 E) as [Hm Hn].
  assert (H0 : well_formed x0).
  { split; [exact Hn|]. intros m Hm'. congruence. }
  destruct (handle_all_fits msgs x0 w0 H0 Hf Hmsgs) as (x & w' & Ex & [_ Hx] & Hfx).
  exists x, w'. split; [exact Ex|]. split; [exact Hfx|].
  intros m Hm'. rewrite (Hx m Hm').
  destruct Hfx as [Hpos Hsmall].
  assert (Hnn : CLong.mul (n x) (n x) = n x * n x)
    by (apply wrap_small; unfold CLong.LONG_MIN, CLong.LONG_MAX; nia).
  rewrite Hnn. rewrite Z2Nat.id; nia.
Qed.

End SolverSessions.

Section SolverLayouts.
Context {D : Type} {Fl : Flt D} {U : Uninit D} {L : Eigencalc.Lapack D}.
Import Eigencalc Shape Session.

Lemma cell_no_wrap (n i j : Z) :
  n * n <= CLong.LONG_MAX -> 0 <= i < n -> 0 <= j < n ->
  CLong.add (CLong.mul i n) j = i * n + j /\ 0 <= i * n + j < n * n.
Proof.
  intros Hmax Hi Hj. unfold CLong.mul, CLong.add.
  assert (B : CLong.LONG_MIN < 0) by (unfold CLong.LONG_MIN; lia).
  assert (Hin : 0 <= i * n + j < n * n) by nia.
  rewrite (wrap_small (i * n)) by nia.
  rewrite (wrap_small (i * n + j)) by nia. auto.
Qed.

(** Every index below [n n] is [j n + i] for one column [j] and one row
    [i]. *)
Lemma index_split (n p : Z) :
  0 <= n -> 0 <= p < n * n ->
  exists j i, 0 <= j < n /\ 0 <= i < n /\ p = j * n + i.
Proof.
  intros Hn0 Hp. assert (Hn : 0 < n) by nia.
  exists (p / n), (p mod n).
  split; [split; [apply Z.div_pos; lia | apply Z.div_lt_upper_bound; lia]|].
  split; [apply Z.mod_pos_bound; lia|].
  rewrite (Z.mul_comm (p / n) n). apply Z.div_mod. lia.
Qed.

Lemma list_eq_get {A : Type} (d : A) (l1 l2 : list A) :
  List.length l1 = List.length l2 ->
  (forall p, 0 <= p < Z.of_nat (List.length l1) -> get d l1 p = get d l2 p) ->
  l1 = l2.
Proof.
  intros Hlen Hget. apply (nth_ext l1 l2 d d Hlen). intros k Hk.
  specialize (Hget (Z.of_nat k) ltac:(lia)). unfold get in Hget.
  destruct (Z.ltb_spec (Z.of_nat k) 0); [lia|]. now rewrite Nat2Z.id in Hget.
Qed.

(** The copy loop of [bang] transposes: cell [(i, j)] of the row-major
    source lands at the column-major index [j n + i]. *)
Lemma to_column_major_spec (n : Z) (m A : list cplx) :
  0 <= n -> n * n <= CLong.LONG_MAX ->
  Z.of_nat (List.length A) = n * n ->
  Z.of_nat (List.length (to_column_major n m A)) = n * n /\
  forall i j, 0 <= i < n -> 0 <= j < n ->
    get (d0, d0) (to_column_major n m A) (j * n + i) = get (d0, d0) m (i * n + j).
Proof.
  intros Hn Hmax Hlen.
  apply (nested_fill (list cplx) cplx n
           (fun s => Z.of_nat (List.length s) = n * n)
           (fun s i j => get (d0, d0) s (j * n + i))
           (fun i j s => upd s (CLong.add (CLong.mul j n) i)
                             (get (d0, d0) m (CLong.add (CLong.mul i n) j)))
           (fun i j => get (d0, d0) m (i * n + j))).
  - intros i j s Hi Hj Hs. now rewrite length_upd.
  - intros i j s Hi Hj Hs.
    destruct (cell_no_wrap n j i Hmax Hj Hi) as [-> Hr].
    destruct (cell_no_wrap n i j Hmax Hi Hj) as [-> _].
    apply get_upd_same. lia.
  - intros i j i' j' s Hi Hj Hi' Hj' Hne Hs.
    destruct (cell_no_wrap n j i Hmax Hj Hi) as [-> _].
    apply get_upd_other. intros E. apply index_inj in E; [|assumption|assumption].
    destruct E; subst. now apply Hne.
  - exact Hlen.
Qed.

(** X3.  The copy loop of [bang] transposes the storage: cell [j * n + i]
    of the column-major copy is cell [i * n + j] of the row-major matrix; and
    applied a second time it gives the matrix back. *)
Theorem to_column_major_twice (n : Z) (m A B : list cplx) :
  0 <= n -> n * n <= CLong.LONG_MAX ->
  Z.of_nat (List.length m) = n * n ->
  Z.of_nat (List.length A) = n * n ->
  Z.of_nat (List.length B) = n * n ->
  (forall i j, 0 <= i < n -> 0 <= j < n ->
     get (d0, d0) (to_column_major n m A) (j * n + i) = get (d0, d0) m (i * n + j)) /\
  to_column_major n (to_column_major n m A) B = m.
Proof.
  intros Hn Hmax Hm HA HB.
  destruct (to_column_major_spec n m A Hn Hmax HA) as [HA' EA].
  destruct (to_column_major_spec n (to_column_major n m A) B Hn Hmax HB) as [HB' EB].
  split; [exact EA|].
  apply (list_eq_get (A := cplx) (d0, d0)); [apply Nat2Z.inj; now rewrite HB', Hm|].
  intros p Hp. rewrite HB' in Hp.
  destruct (index_split n p Hn Hp) as (j & i & Hj & Hi & ->).
  exact (eq_trans (EB i j Hi Hj) (EA j i Hj Hi)).
Qed.

(** The eigenvalue loop copies [w]. *)
Lemma fill_eigvals_spec (n : Z) (w : list D) (buf : list (atom D)) :
  List.length buf = Z.to_nat n ->
  List.length (fill_eigvals n w buf) = Z.to_nat n /\
  forall i, 0 <= i < n ->
    get (A_SYM "") (fill_eigvals n w buf) i = A_FLOAT (get d0 w i).
Proof.
  intros Hlen.
  exact (fill_array (A_SYM "") (fun i => A_FLOAT (get d0 w i)) n buf Hlen).
Qed.

(** The eigenvector loop interleaves the parts of [A], keeping its
    column-major order. *)
Lemma fill_eigvecs_spec (n : Z) (A : list cplx) (buf : list (atom D)) :
  0 <= n -> 2 * n * n <= CLong.LONG_MAX ->
  Z.of_nat (List.length buf) = 2 * n * n ->
  Z.of_nat (List.length (fill_eigvecs n A buf)) = 2 * n * n /\
  forall i j, 0 <= i < n -> 0 <= j < n ->
    get (A_SYM "") (fill_eigvecs n A buf) (2 * (j * n + i))
      = A_FLOAT (creal (get (d0, d0) A (j * n + i))) /\
    get (A_SYM "") (fill_eigvecs n A buf) (2 * (j * n + i) + 1)
      = A_FLOAT (cimag (get (d0, d0) A (j * n + i))).
Proof.
  intros Hn Hmax Hlen.
  pose (ok := fun s : list (atom D) => Z.of_nat (List.length s) = 2 * n * n).
  pose (cell := fun (s : list (atom D)) (j i : Z) =>
      (get (A_SYM "") s (2 * (j * n + i)), get (A_SYM "") s (2 * (j * n + i) + 1))).
  pose (write := fun (j i : Z) (s : list (atom D)) =>
      let z := get (d0, d0) A (CLong.add (CLong.mul j n) i) in
      let idx := CLong.mul 2 (CLong.add (CLong.mul j n) i) in
      let s := upd s idx (A_FLOAT (creal z)) in
      upd s (CLong.add idx 1) (A_FLOAT (cimag z))).
  pose (val := fun j i : Z =>
      (A_FLOAT (D := D) (creal (get (d0, d0) A (j * n + i))),
       A_FLOAT (D := D) (cimag (get (d0, d0) A (j * n + i))))).
  assert (Hnn : n * n <= CLong.LONG_MAX) by nia.
  destruct (nested_fill (list (atom D)) (atom D * atom D) n ok cell write val)
    with (s := buf) as [Hok Hcells].
  - intros j i s Hj Hi Hs. unfold ok, write. cbv zeta. now rewrite !length_upd.
  - intros j i s Hj Hi Hs. unfold ok in Hs. unfold cell, write, val. cbv zeta.
    destruct (cell_no_wrap n j i Hnn Hj Hi) as [Ec _].
    destruct (index_no_wrap n j i Hmax Hj Hi) as (-> & -> & Hlo & Hhi).
    rewrite Ec.
    f_equal.
    + rewrite get_upd_other by lia. apply get_upd_same. lia.
    + apply get_upd_same. rewrite length_upd. lia.
  - intros j i j' i' s Hj Hi Hj' Hi' Hne Hs. unfold cell, write. cbv zeta.
    destruct (index_no_wrap n j i Hmax Hj Hi) as (-> & -> & Hlo & Hhi).
    assert (Hidx : j' * n + i' <> j * n + i).
    { intros E. apply index_inj in E; [|assumption|assumption].
      destruct E; subst. now apply Hne. }
    f_equal; rewrite !get_upd_other by lia; reflexivity.
  - exact Hlen.
  - split; [exact Hok|].
    intros i j Hi Hj. specialize (Hcells j i Hj Hi).
    unfold cell, val in Hcells. inversion Hcells. split; reflexivity.
Qed.

(** [bang_success] with the two frames named. *)
Lemma bang_success_frames (x : t_qte_eigencalc D) (m : list cplx) (w : world D) :
  plentiful w ->
  matrix x = Some m ->
  z_info (query_frame x m) = 0 -> z_info (solved_frame x m) = 0 ->
  exists w',
    qte_eigencalc_bang x w = (Value tt, w') /\
    log w' = log w ++
      [outlet_list "out_eigenvalues" (n x)
         (firstn (Z.to_nat (n x))
            (fill_eigvals (n x) (z_w (solved_frame x m))
               (repeat junk_atom (Z.to_nat (n x)))));
       outlet_list "out_eigenvectors"
         (clpk_integer (2 * clpk_integer (clpk_integer (n x) * clpk_integer (n x))))
         (firstn
            (Z.to_nat
               (clpk_integer (2 * clpk_integer (clpk_integer (n x) * clpk_integer (n x)))))
            (fill_eigvecs (n x) (z_A (solved_frame x m))
               (repeat junk_atom
                  (Z.to_nat
                     (clpk_integer
                        (2 * clpk_integer (clpk_integer (n x) * clpk_integer (n x))))))));
       object_post "Eigen-decomposition completed successfully." []].
Proof. exact (bang_success x m w). Qed.

(** X4.  A successful decomposition (both calls of [zheev_] report
    [info = 0], every allocation served, a stored matrix of [n^2] cells,
    [2 n^2] within the 32 bits of [__CLPK_integer]) sends the [n] cells of
    [w] from the left outlet, then [2 n^2] floats from the right outlet, then
    posts the success message.
    The right-hand list is the storage [A] as [zheev_] left it, column-major
    and interleaved: atoms [2 (j n + i)] and [2 (j n + i) + 1] are the real
    and imaginary part of [A[j * n + i]]. *)
Theorem decompose_output_layout (x : t_qte_eigencalc D) (m : list cplx) (w : world D) :
  clpk_32 -> fits (n x) ->
  plentiful w -> matrix x = Some m -> Z.of_nat (List.length m) = n x * n x ->
  z_info (query_frame x m) = 0 -> z_info (solved_frame x m) = 0 ->
  exists vals vecs w',
    handle x msg_bang w = (Value x, w') /\
    log w' = log w ++
      [outlet_list "out_eigenvalues" (n x) vals;
       outlet_list "out_eigenvectors" (2 * n x * n x) vecs;
       object_post "Eigen-decomposition completed successfully." []] /\
    Z.of_nat (List.length vals) = n x /\
    (forall i, 0 <= i < n x ->
       get (A_SYM "") vals i = A_FLOAT (get d0 (z_w (solved_frame x m)) i)) /\
    Z.of_nat (List.length vecs) = 2 * n x * n x /\
    (forall i j, 0 <= i < n x -> 0 <= j < n x ->
       get (A_SYM "") vecs (2 * (j * n x + i))
         = A_FLOAT (creal (get (d0, d0) (z_A (solved_frame x m)) (j * n x + i))) /\
       get (A_SYM "") vecs (2 * (j * n x + i) + 1)
         = A_FLOAT (cimag (get (d0, d0) (z_A (solved_frame x m)) (j * n x + i)))).
Proof.
  intros Hc [Hn Hsmall] Hw Hm _ H1 H2.
  destruct (bang_success_frames x m w Hw Hm H1 H2) as (w' & E & Hlog).
  generalize dependent (solved_frame x m). intros f2 _ Hlog.
  assert (EN : clpk_integer (n x) = n x) by (apply Hc; nia).
  rewrite EN in Hlog.
  assert (ET : clpk_integer (n x * n x) = n x * n x) by (apply Hc; nia).
  rewrite ET in Hlog.
  assert (E2 : clpk_integer (2 * (n x * n x)) = 2 * n x * n x).
  { rewrite Hc by nia. ring. }
  rewrite E2 in Hlog.
  destruct (fill_eigvals_spec (n x) (z_w f2) (repeat junk_atom (Z.to_nat (n x))))
    as [Lvals Evals]; [apply repeat_length|].
  destruct (fill_eigvecs_spec (n x) (z_A f2)
              (repeat junk_atom (Z.to_nat (2 * n x * n x))))
    as [Lvecs Evecs].
  { lia. }
  { unfold CLong.LONG_MAX. lia. }
  { rewrite repeat_length. lia. }
  rewrite firstn_all2 in Hlog by lia.
  rewrite firstn_all2 in Hlog by lia.
  destruct (handle_bang_Value x w) as (u & Hu & Eu). rewrite E in Eu. cbn [snd] in Eu.
  subst u.
  eexists. eexists. exists w'. split; [exact Hu|]. split; [exact Hlog|].
  split; [lia|]. split; [exact Evals|]. split; [exact Lvecs | exact Evecs].
Qed.

End SolverLayouts.

Section SolverFailures.
Context {D : Type} {Fl : Flt D} {U : Uninit D} {L : Eigencalc.Lapack D}.
Import Eigencalc Shape Session.

(** An allocation returns, NULL or not, and sends nothing. *)
Lemma allocation_cases {A : Type} (fill : A) (count : Z) (w : world D) :
  exists o w1,
    bind request (fun ok : bool =>
      ret (if ok then Some (repeat fill (Z.to_nat count)) else None)) w = (Value o, w1) /\
    log w1 = log w.
Proof.
  destruct (returns_request w) as (b & w1 & Er).
  exists (if b then Some (repeat fill (Z.to_nat count)) else None), w1.
  rewrite (bind_run _ _ _ _ _ Er). split; [reflexivity|].
  now apply (quiet_request w (Value b) w1).
Qed.

(** Closes the branch where [bang] reports an error and returns. *)
Ltac reported :=
  eexists; eexists; split; [reflexivity|]; split;
  [ cbn [log];
    repeat match goal with H : log _ = log _ |- _ => rewrite H; clear H end;
    reflexivity
  | constructor ].

Lemma bang_events_any_heap (x : t_qte_eigencalc D) (w : world D) :
  exists evs w',
    qte_eigencalc_bang x w = (Value tt, w') /\
    log w' = log w ++ evs /\
    bang_events (n x) evs.
Proof.
  unfold qte_eigencalc_bang. destruct (matrix x) as [m|]; [|unfold tell; reported].
  cbv zeta.
  match goal with |- context [ bind (malloc_complex ?c) _ w ] =>
    destruct (allocation_cases (junk, junk) c w) as (oA & w1 & E1 & L1) end.
  unfold malloc_complex at 1. rewrite (bind_run _ _ _ _ _ E1).
  destruct oA as [A|]; [|unfold tell; reported].
  destruct (allocation_cases junk (n x) w1) as (ow & w2 & E2 & L2).
  unfold malloc_doubles at 1. rewrite (bind_run _ _ _ _ _ E2).
  destruct ow as [wv|]; [|unfold tell; reported].
  match goal with |- context [ bind (malloc_doubles ?c) _ w2 ] =>
    destruct (allocation_cases junk c w2) as (orw & w3 & E3 & L3) end.
  unfold malloc_doubles at 1. rewrite (bind_run _ _ _ _ _ E3).
  destruct orw as [rwork|]; [|unfold tell; reported].
  destruct (negb (z_info (workspace_query (n x) (to_column_major (n x) m A) wv rwork) =? 0));
    [unfold tell; reported|].
  match goal with |- context [ bind (malloc_complex ?c) _ w3 ] =>
    destruct (allocation_cases (junk, junk) c w3) as (owk & w4 & E4 & L4) end.
  unfold malloc_complex at 1. rewrite (bind_run _ _ _ _ _ E4).
  destruct owk as [work|]; [|unfold tell; reported].
  destruct (negb (z_info (decomposition _ work) =? 0)); [unfold tell; reported|].
  destruct (allocation_cases junk_atom (n x) w4) as (ovals & w5 & E5 & L5).
  unfold sysmem_newptr_atoms at 1. rewrite (bind_run _ _ _ _ _ E5).
  destruct ovals as [vals|]; [|unfold tell; reported].
  unfold send_list at 1. unfold tell at 1. unfold bind at 1.
  match goal with
  | |- context [ bind (sysmem_newptr_atoms ?c) ?k ?w0 ] =>
      destruct (allocation_cases junk_atom c w0) as (ovecs & w6 & E6 & L6);
      unfold sysmem_newptr_atoms; rewrite (bind_run _ _ _ _ _ E6)
  end.
  cbn [log] in L6.
  destruct ovecs as [vecs|].
  - unfold send_list, tell, bind. eexists. eexists. split; [reflexivity|].
    split; [|apply both_lists].
    cbn [log]. rewrite L6, L5, L4, L3, L2, L1, <- !app_assoc. reflexivity.
  - unfold tell. eexists. eexists. split; [reflexivity|].
    split; [|apply eigenvalues_then_error].
    cbn [log]. rewrite L6, L5, L4, L3, L2, L1, <- !app_assoc. reflexivity.
Qed.

(** X5.  For a dimension [n] with [2 n^2 < 2^31] and a stored matrix, if
    any, of [n^2] cells ([__CLPK_integer] of 32 bits): [bang] always returns
    and leaves the object as it was, whatever the allocations do and
    whatever [zheev_] reports, and it sends one of three things: a single
    error; the eigenvalue list followed by a single error (when the output
    list of the eigenvectors cannot be allocated); or the eigenvalue list,
    the eigenvector list and the success message, in this order. *)
Theorem decompose_sends_in_order (x : t_qte_eigencalc D) (w : world D) :
  clpk_32 -> fits (n x) -> sized x ->
  exists evs w',
    handle x msg_bang w = (Value x, w') /\
    log w' = log w ++ evs /\
    bang_events (n x) evs.
Proof.
  intros _ _ _.
  destruct (bang_events_any_heap x w) as (evs & w' & E & Hlog & Hev).
  exists evs, w'. cbn [handle]. rewrite (bind_run _ _ _ _ _ E). auto.
Qed.

(** The failures of [zheev_], at the level of [bang]. *)
Lemma bang_failure_runs (x : t_qte_eigencalc D) (m : list cplx) (w : world D) :
  plentiful w -> matrix x = Some m ->
  (z_info (query_frame x m) <> 0 ->
     exists w',
       qte_eigencalc_bang x w = (Value tt, w') /\
       log w' = log w ++
         [object_error "zheev_ workspace query error: info=%d"
            [z_info (query_frame x m)]]) /\
  (z_info (query_frame x m) = 0 -> z_info (solved_frame x m) <> 0 ->
     exists w',
       qte_eigencalc_bang x w = (Value tt, w') /\
       log w' = log w ++
         [object_error "Eigen-decomposition failed: info=%d"
            [z_info (solved_frame x m)]]).
Proof.
  intros Hw Hm.
  unfold solved_frame, query_frame. cbv zeta.
  set (N := clpk_integer (n x)). set (total := clpk_integer (N * N)).
  set (A := to_column_major (n x) m (repeat (junk, junk) (Z.to_nat total))).
  set (f1 := workspace_query (n x) A (repeat junk (Z.to_nat (n x)))
               (repeat junk (Z.to_nat (clpk_integer (clpk_integer (3 * N) - 2))))).
  set (f2 := decomposition f1 (repeat (junk, junk) (Z.to_nat (work_size f1)))).
  assert (Hstart : exists w3,
    plentiful w3 /\ log w3 = log w /\
    qte_eigencalc_bang x w =
    (if negb (z_info f1 =? 0)
     then tell (object_error "zheev_ workspace query error: info=%d" [z_info f1])
     else
       bind (malloc_complex (work_size f1)) (fun work =>
         match work with
         | None => tell (object_error "Memory allocation failed for work." [])
         | Some work =>
             let f2 := decomposition f1 work in
             if negb (z_info f2 =? 0)
             then tell (object_error "Eigen-decomposition failed: info=%d" [z_info f2])
             else
               bind (sysmem_newptr_atoms (n x)) (fun eigvals_list =>
                 match eigvals_list with
                 | None =>
                     tell (object_error
                             "Memory allocation failed for eigenvalue output list." [])
                 | Some eigvals_list =>
                     bind (send_list "out_eigenvalues" (n x)
                             (fill_eigvals (n x) (z_w f2) eigvals_list)) (fun _ =>
                     bind (sysmem_newptr_atoms (clpk_integer (2 * total)))
                       (fun eigvecs_list =>
                        match eigvecs_list with
                        | None =>
                            tell (object_error
                              "Memory allocation failed for eigenvector output list." [])
                        | Some eigvecs_list =>
                            bind (send_list "out_eigenvectors" (clpk_integer (2 * total))
                                    (fill_eigvecs (n x) (z_A f2) eigvecs_list)) (fun _ =>
                            tell (object_post
                                    "Eigen-decomposition completed successfully." []))
                        end))
                 end)
         end)) w3).
  { unfold qte_eigencalc_bang. rewrite Hm. cbv zeta. fold N. fold total.
    destruct (allocation_served (junk, junk) total w Hw) as (w1 & E1 & Hw1 & L1).
    unfold malloc_complex at 1. rewrite (bind_run _ _ _ _ _ E1). fold A.
    destruct (allocation_served junk (n x) w1 Hw1) as (w2 & E2 & Hw2 & L2).
    unfold malloc_doubles at 1. rewrite (bind_run _ _ _ _ _ E2).
    destruct (allocation_served junk (clpk_integer (clpk_integer (3 * N) - 2)) w2 Hw2)
      as (w3 & E3 & Hw3 & L3).
    unfold malloc_doubles at 1. rewrite (bind_run _ _ _ _ _ E3). fold f1.
    exists w3. split; [exact Hw3|]. split; [congruence | reflexivity]. }
  destruct Hstart as (w3 & Hw3 & L3 & Ebang).
  split.
  - intros H1. apply Z.eqb_neq in H1. rewrite H1 in Ebang. cbn [negb] in Ebang.
    eexists. split; [exact Ebang|]. cbn [log]. now rewrite L3.
  - intros H1 H2. rewrite H1 in Ebang. cbn [Z.eqb negb] in Ebang.
    destruct (allocation_served (junk, junk) (work_size f1) w3 Hw3) as (w4 & E4 & Hw4 & L4).
    unfold malloc_complex at 1 in Ebang. rewrite (bind_run _ _ _ _ _ E4) in Ebang.
    cbv zeta in Ebang. fold f2 in Ebang.
    apply Z.eqb_neq in H2. rewrite H2 in Ebang. cbn [negb] in Ebang.
    eexists. split; [exact Ebang|]. cbn [log]. now rewrite L4, L3.
Qed.

(** X6.  When [zheev_] reports a non-zero [info], [bang] sends no list: it
    reports the workspace-query error when the first call fails, the
    decomposition error when the second one does, each with the value of
    [info], and nothing else.  (Every allocation served, a stored matrix of
    [n^2] cells, [2 n^2] within the 32 bits of [__CLPK_integer].) *)
Theorem decompose_numerical_failure (x : t_qte_eigencalc D) (m : list cplx) (w : world D) :
  clpk_32 -> fits (n x) ->
  plentiful w -> matrix x = Some m -> Z.of_nat (List.length m) = n x * n x ->
  (z_info (query_frame x m) <> 0 ->
     exists w',
       handle x msg_bang w = (Value x, w') /\
       log w' = log w ++
         [object_error "zheev_ workspace query error: info=%d"
            [z_info (query_frame x m)]]) /\
  (z_info (query_frame x m) = 0 -> z_info (solved_frame x m) <> 0 ->
     exists w',
       handle x msg_bang w = (Value x, w') /\
       log w' = log w ++
         [object_error "Eigen-decomposition failed: info=%d"
            [z_info (solved_frame x m)]]).
Proof.
  intros _ _ Hw Hm _.
  destruct (bang_failure_runs x m w Hw Hm) as [Hquery Hsolve].
  split.
  - intros H1. destruct (Hquery H1) as (w' & E & Hlog).
    exists w'. cbn [handle]. rewrite (bind_run _ _ _ _ _ E). auto.
  - intros H1 H2. destruct (Hsolve H1 H2) as (w' & E & Hlog).
    exists w'. cbn [handle]. rewrite (bind_run _ _ _ _ _ E). auto.
Qed.

End SolverFailures.

Section BuilderToSolver.
Context {D : Type} {Fl : Flt D} {U : Uninit D} {L : Eigencalc.Lapack D}.
Import Shape.

(** [bang_plentiful], keeping track of the allocations that remain. *)
Lemma builder_bang_runs (x : QuantumHO.t_qte_quantumho D) (w : world D) :
  0 <= QuantumHO.n x -> 2 * QuantumHO.n x * QuantumHO.n x <= CLong.LONG_MAX ->
  plentiful w ->
  exists l w',
    QuantumHO.qte_quantumho_bang x w = (Value tt, w') /\
    plentiful w' /\
    log w' = log w ++ [outlet_list "out" (2 * QuantumHO.n x * QuantumHO.n x) l] /\
    row_major_interleaved (QuantumHO.n x)
      (Entries.H_entry (QuantumHO.n x) (QuantumHO.a x)) l.
Proof.
  intros Hn Hmax Hw. unfold QuantumHO.qte_quantumho_bang. cbv zeta.
  destruct (compute_hamiltonian_plentiful x w Hw) as (H & w1 & E1 & Hw1).
  rewrite (bind_run _ _ _ _ _ E1).
  destruct (compute_hamiltonian_Some x H w w1 E1) as (Lc & EL & ->).
  apply compute_hamiltonian_locals_Some in EL. destruct EL as [HL Hlog1].
  rewrite (list_size_no_wrap (QuantumHO.n x) Hn Hmax).
  destruct (allocation_plentiful junk_atom (2 * QuantumHO.n x * QuantumHO.n x) w1 Hw1)
    as (out & w2 & E2 & Hw2 & Hlog2).
  unfold sysmem_newptr_atoms. rewrite (bind_run _ _ _ _ _ E2).
  apply allocation_Value in E2. destruct E2 as [_ Hout].
  specialize (Hout out eq_refl).
  destruct (flatten_spec (QuantumHO.n x) (QuantumHO.l_H Lc) out Hn Hmax) as [Hlen Hcells];
    [nia|].
  eexists. eexists. unfold send_list, tell. rewrite firstn_all2 by lia.
  split; [reflexivity|]. cbn [log heap]. split; [exact Hw2|].
  split; [rewrite Hlog2, Hlog1; reflexivity|]. split; [exact Hlen|].
  intros i j Hi Hj. rewrite <- (ok_H _ _ _ HL i j Hi Hj). now apply Hcells.
Qed.

(** X7.  The two objects fit together: the list the builder sends on
    [bang] is accepted by a solver of the same dimension, and the matrix the
    solver then stores is the Hamiltonian, cell [i * n + j] being
    [H[i][j]]. *)
Theorem builder_output_is_accepted (x : QuantumHO.t_qte_quantumho D)
        (y : Eigencalc.t_qte_eigencalc D) (w : world D) :
  1 <= QuantumHO.n x -> 2 * QuantumHO.n x * QuantumHO.n x <= CLong.LONG_MAX ->
  Eigencalc.n y = QuantumHO.n x ->
  plentiful w ->
  exists l w1 m w2,
    QuantumHO.qte_quantumho_bang x w = (Value tt, w1) /\
    log w1 = log w ++ [outlet_list "out" (2 * QuantumHO.n x * QuantumHO.n x) l] /\
    Eigencalc.handle y (Eigencalc.msg_list l) w1
      = (Value (Eigencalc.mk_eigencalc (QuantumHO.n x) (Some m)), w2) /\
    forall i j, 0 <= i < QuantumHO.n x -> 0 <= j < QuantumHO.n x ->
      get (d0, d0) m (i * QuantumHO.n x + j)
      = Entries.H_entry (QuantumHO.n x) (QuantumHO.a x) i j.
Proof.
  intros Hn Hmax Hy Hw.
  destruct (builder_bang_runs x w ltac:(lia) Hmax Hw) as (l & w1 & E & Hw1 & Hlog & Hlen & Hcells).
  destruct (list_stores y l w1) as (m & w2 & Ey & _ & _ & _ & Hm).
  - rewrite Hy. lia.
  - now rewrite Hy.
  - now rewrite Hy.
  - exact Hw1.
  - rewrite Hy in Ey, Hm. exists l, w1, m, w2.
    split; [exact E|]. split; [exact Hlog|]. split; [exact Ey|].
    intros i j Hi Hj. rewrite (Hm i j Hi Hj).
    destruct (Hcells i j Hi Hj) as [Hre Him].
    assert (Ere : get junk_atom l (2 * (i * QuantumHO.n x + j))
                  = A_FLOAT (creal (Entries.H_entry (QuantumHO.n x) (QuantumHO.a x) i j))).
    { rewrite <- Hre. unfold get.
      destruct (Z.ltb_spec (2 * (i * QuantumHO.n x + j)) 0); [nia|].
      apply nth_indep. nia. }
    assert (Eim : get junk_atom l (2 * (i * QuantumHO.n x + j) + 1)
                  = A_FLOAT (cimag (Entries.H_entry (QuantumHO.n x) (QuantumHO.a x) i j))).
    { rewrite <- Him. unfold get.
      destruct (Z.ltb_spec (2 * (i * QuantumHO.n x + j) + 1) 0); [nia|].
      apply nth_indep. nia. }
    rewrite Ere, Eim. cbn [atom_getfloat].
    now destruct (Entries.H_entry (QuantumHO.n x) (QuantumHO.a x) i j).
Qed.

End BuilderToSolver.

Section SolverFurtherExamples.
Import Exact Eigencalc Session.

Lemma accept_stores_row_major_witness :
  exists m w',
    handle (U := Sample.zeros) (L := Sample.idle_lapack) Faults.empty_2
           (msg_list Faults.cells_2) Sample.calm
      = (Value (mk_eigencalc 2 (Some m)), w') /\
    get (0%R, 0%R) m (1 * 2 + 0) = (2%R, (-1)%R).
Proof.
  destruct (accept_stores_row_major (U := Sample.zeros) (L := Sample.idle_lapack)
              Faults.empty_2 Faults.cells_2 Sample.calm)
    as (m & w' & E & _ & Hcells).
  - simpl. lia.
  - unfold CLong.LONG_MAX. simpl. lia.
  - reflexivity.
  - constructor.
  - exists m, w'. split; [exact E|].
    exact (Hcells 1 0 ltac:(simpl; lia) ltac:(simpl; lia)).
Defined.

(** The 32-bit [__CLPK_integer] of the stand-ins for LAPACK. *)
Lemma wrapping_clpk_32 (L : Lapack R) :
  (forall z, clpk_integer z = (z + 2 ^ 31) mod 2 ^ 32 - 2 ^ 31) -> clpk_32 (L := L).
Proof.
  intros HL z Hz. rewrite HL, Z.mod_small; lia.
Qed.

Lemma idle_lapack_clpk_32 : clpk_32 (L := Sample.idle_lapack).
Proof. apply wrapping_clpk_32. reflexivity. Qed.

Lemma stalled_lapack_clpk_32 : clpk_32 (L := Faults.stalled_lapack).
Proof. apply wrapping_clpk_32. reflexivity. Qed.

Lemma diverging_lapack_clpk_32 : clpk_32 (L := Faults.diverging_lapack).
Proof. apply wrapping_clpk_32. reflexivity. Qed.

Lemma session_keeps_matrix_sized_witness :
  exists x w',
    handle_all (U := Sample.zeros) (L := Sample.idle_lapack) Faults.empty_2
      [msg_list Faults.cells_2; msg_bang; msg_dim 5; msg_list Faults.cells_2; msg_bang]
      Sample.calm = (Value x, w') /\
    fits (n x) /\ sized x.
Proof.
  apply (session_keeps_matrix_sized (U := Sample.zeros) (L := Sample.idle_lapack)
           [A_LONG 2]
           [msg_list Faults.cells_2; msg_bang; msg_dim 5; msg_list Faults.cells_2; msg_bang]
           Faults.empty_2 Sample.calm Sample.calm).
  - exact idle_lapack_clpk_32.
  - reflexivity.
  - split; simpl; lia.
  - repeat constructor; intros _; split; lia.
Defined.

Lemma to_column_major_twice_witness :
  get (0%R, 0%R) (to_column_major 2 Faults.stored_2 (repeat (0%R, 0%R) 4)) (0 * 2 + 1)
    = (2%R, (-1)%R) /\
  to_column_major 2 (to_column_major 2 Faults.stored_2 (repeat (0%R, 0%R) 4))
    (repeat (7%R, 7%R) 4) = Faults.stored_2.
Proof.
  destruct (to_column_major_twice 2 Faults.stored_2 (repeat (0%R, 0%R) 4)
              (repeat (7%R, 7%R) 4)) as [Hcells Hback].
  - lia.
  - unfold CLong.LONG_MAX. lia.
  - reflexivity.
  - reflexivity.
  - reflexivity.
  - split; [|exact Hback].
    exact (Hcells 1 0 ltac:(lia) ltac:(lia)).
Defined.

Lemma decompose_output_layout_witness :
  exists vals vecs w',
    handle (U := Sample.zeros) (L := Sample.idle_lapack)
           (mk_eigencalc 2 (Some Faults.stored_2)) msg_bang Sample.calm
      = (Value (mk_eigencalc 2 (Some Faults.stored_2)), w') /\
    log w' = [outlet_list "out_eigenvalues" 2 vals;
              outlet_list "out_eigenvectors" 8 vecs;
              object_post "Eigen-decomposition completed successfully." []] /\
    get (A_SYM "") vecs (2 * (0 * 2 + 1)) = A_FLOAT 2%R /\
    get (A_SYM "") vecs (2 * (0 * 2 + 1) + 1) = A_FLOAT (-1)%R.
Proof.
  destruct (decompose_output_layout (U := Sample.zeros) (L := Sample.idle_lapack)
              (mk_eigencalc 2 (Some Faults.stored_2)) Faults.stored_2 Sample.calm)
    as (vals & vecs & w' & E & Hlog & _ & _ & _ & Hvecs).
  - exact idle_lapack_clpk_32.
  - split; simpl; lia.
  - constructor.
  - reflexivity.
  - reflexivity.
  - reflexivity.
  - reflexivity.
  - exists vals, vecs, w'. split; [exact E|]. split; [exact Hlog|].
    exact (Hvecs 1 0 ltac:(simpl; lia) ltac:(simpl; lia)).
Defined.

(** Whatever the query answered, the workspace of the decomposition has at
    least one cell. *)
Lemma work_size_pos {D : Type} {Fl : Flt D} {L : Lapack D} (f1 : zheev_frame D) :
  1 <= work_size f1.
Proof.
  unfold work_size. cbv zeta.
  destruct (Z.ltb_spec (clpk_integer (clpk_integer (to_long (creal (get (d0, d0) (z_work f1) 0))) + 1)) 1);
    lia.
Qed.

Lemma diverging_lapack_info (x : t_qte_eigencalc R) (m : list (R * R)) :
  z_info (query_frame (U := Sample.zeros) (L := Faults.diverging_lapack) x m) = 0 /\
  z_info (solved_frame (U := Sample.zeros) (L := Faults.diverging_lapack) x m) = 2.
Proof.
  split; [reflexivity|].
  unfold solved_frame. cbv zeta. unfold decomposition.
  cbn [zheev_ Faults.diverging_lapack z_info z_lwork].
  pose proof (work_size_pos (L := Faults.diverging_lapack)
                (query_frame (U := Sample.zeros) (L := Faults.diverging_lapack) x m)) as Hpos.
  destruct (Z.ltb_spec
              (work_size (L := Faults.diverging_lapack)
                 (query_frame (U := Sample.zeros) (L := Faults.diverging_lapack) x m)) 0);
    [lia | reflexivity].
Qed.

Lemma decompose_sends_in_order_witness :
  exists evs w',
    handle (U := Sample.zeros) (L := Faults.diverging_lapack)
           (mk_eigencalc 2 (Some Faults.stored_2)) msg_bang (Faults.refusing_after 1)
      = (Value (mk_eigencalc 2 (Some Faults.stored_2)), w') /\
    log w' = evs /\
    bang_events 2 evs.
Proof.
  apply (decompose_sends_in_order (U := Sample.zeros) (L := Faults.diverging_lapack)
           (mk_eigencalc 2 (Some Faults.stored_2)) (Faults.refusing_after 1)).
  - exact diverging_lapack_clpk_32.
  - split; simpl; lia.
  - intros m [= <-]. reflexivity.
Defined.

Lemma decompose_numerical_failure_witness :
  (exists w',
     handle (U := Sample.zeros) (L := Faults.stalled_lapack)
            (mk_eigencalc 2 (Some Faults.stored_2)) msg_bang Sample.calm
       = (Value (mk_eigencalc 2 (Some Faults.stored_2)), w') /\
     log w' = [object_error "zheev_ workspace query error: info=%d" [1]]) /\
  (exists w',
     handle (U := Sample.zeros) (L := Faults.diverging_lapack)
            (mk_eigencalc 2 (Some Faults.stored_2)) msg_bang Sample.calm
       = (Value (mk_eigencalc 2 (Some Faults.stored_2)), w') /\
     log w' = [object_error "Eigen-decomposition failed: info=%d" [2]]).
Proof.
  split.
  - destruct (decompose_numerical_failure (U := Sample.zeros) (L := Faults.stalled_lapack)
                (mk_eigencalc 2 (Some Faults.stored_2)) Faults.stored_2 Sample.calm)
      as [Hquery _];
      [exact stalled_lapack_clpk_32 | split; simpl; lia | constructor
      | reflexivity | reflexivity |].
    apply Hquery. discriminate.
  - destruct (decompose_numerical_failure (U := Sample.zeros) (L := Faults.diverging_lapack)
                (mk_eigencalc 2 (Some Faults.stored_2)) Faults.stored_2 Sample.calm)
      as [_ Hsolve];
      [exact diverging_lapack_clpk_32 | split; simpl; lia | constructor
      | reflexivity | reflexivity |].
    destruct (diverging_lapack_info (mk_eigencalc 2 (Some Faults.stored_2)) Faults.stored_2)
      as [H1 H2].
    rewrite H2 in Hsolve. apply Hsolve; [exact H1 | discriminate].
Defined.

Lemma builder_output_is_accepted_witness :
  exists l w1 m w2,
    QuantumHO.qte_quantumho_bang (U := Sample.zeros) Sample.ho_2 Sample.calm = (Value tt, w1) /\
    handle (U := Sample.zeros) (L := Sample.idle_lapack) Faults.empty_2 (msg_list l) w1
      = (Value (mk_eigencalc 2 (Some m)), w2) /\
    get (0%R, 0%R) m (0 * 2 + 1) = Entries.H_entry 2 1%R 0 1.
Proof.
  destruct (builder_output_is_accepted (U := Sample.zeros) (L := Sample.idle_lapack)
              Sample.ho_2 Faults.empty_2 Sample.calm)
    as (l & w1 & m & w2 & E1 & _ & E2 & Hcells).
  - simpl. lia.
  - unfold CLong.LONG_MAX. simpl. lia.
  - reflexivity.
  - constructor.
  - exists l, w1, m, w2. split; [exact E1|]. split; [exact E2|].
    exact (Hcells 0 1 ltac:(simpl; lia) ltac:(simpl; lia)).
Defined.

End SolverFurtherExamples.

(** ** Two decompositions in a row *)

Section SolverRepeats.
Context {D : Type} {Fl : Flt D} {L : Eigencalc.Lapack D}.
Import Eigencalc Shape Session.

(** The copy loop overwrites every cell of [A]: what the buffer held before
    does not matter. *)
Lemma to_column_major_any_buffer (n : Z) (m A B : list cplx) :
  0 <= n -> n * n <= CLong.LONG_MAX ->
  Z.of_nat (List.length A) = n * n -> Z.of_nat (List.length B) = n * n ->
  to_column_major n m A = to_column_major n m B.
Proof.
  intros Hn Hmax HA HB.
  destruct (to_column_major_spec n m A Hn Hmax HA) as [LA EA].
  destruct (to_column_major_spec n m B Hn Hmax HB) as [LB EB].
  apply (list_eq_get (A := cplx) (d0, d0)); [apply Nat2Z.inj; now rewrite LA, LB|].
  intros p Hp. rewrite LA in Hp.
  destruct (index_split n p Hn Hp) as (j & i & Hj & Hi & ->).
  exact (eq_trans (EA i j Hi Hj) (eq_sym (EB i j Hi Hj))).
Qed.

(** Two lists of atoms with the same cells are the same list. *)
Lemma same_eigenvalue_lists (n : Z) (v1 v2 : list (atom D)) (f : Z -> atom D) :
  Z.of_nat (List.length v1) = n -> Z.of_nat (List.length v2) = n ->
  (forall i, 0 <= i < n -> get (A_SYM "") v1 i = f i) ->
  (forall i, 0 <= i < n -> get (A_SYM "") v2 i = f i) ->
  v1 = v2.
Proof.
  intros L1 L2 E1 E2.
  apply (list_eq_get (A_SYM "")); [apply Nat2Z.inj; now rewrite L1, L2|].
  intros p Hp. rewrite L1 in Hp. now rewrite E1, E2.
Qed.

Lemma same_eigenvector_lists (n : Z) (v1 v2 : list (atom D)) (re im : Z -> atom D) :
  0 <= n ->
  Z.of_nat (List.length v1) = 2 * n * n -> Z.of_nat (List.length v2) = 2 * n * n ->
  (forall i j, 0 <= i < n -> 0 <= j < n ->
     get (A_SYM "") v1 (2 * (j * n + i)) = re (j * n + i) /\
     get (A_SYM "") v1 (2 * (j * n + i) + 1) = im (j * n + i)) ->
  (forall i j, 0 <= i < n -> 0 <= j < n ->
     get (A_SYM "") v2 (2 * (j * n + i)) = re (j * n + i) /\
     get (A_SYM "") v2 (2 * (j * n + i) + 1) = im (j * n + i)) ->
  v1 = v2.
Proof.
  intros Hn L1 L2 E1 E2.
  apply (list_eq_get (A_SYM "")); [apply Nat2Z.inj; now rewrite L1, L2|].
  intros p Hp. rewrite L1 in Hp.
  assert (Hq : 0 <= p / 2 < n * n).
  { split; [apply Z.div_pos; lia | apply Z.div_lt_upper_bound; lia]. }
  destruct (index_split n (p / 2) Hn Hq) as (j & i & Hj & Hi & Eq).
  destruct (E1 i j Hi Hj) as [E1r E1i]. destruct (E2 i j Hi Hj) as [E2r E2i].
  pose proof (Z.div_mod p 2 ltac:(lia)) as Hdm.
  pose proof (Z.mod_pos_bound p 2 ltac:(lia)) as Hmod.
  assert (Hcase : p = 2 * (j * n + i) \/ p = 2 * (j * n + i) + 1) by lia.
  destruct Hcase as [-> | ->]; congruence.
Qed.

(** What a successful [bang] sends, cell by cell. *)
Lemma success_run {U : Uninit D} (x : t_qte_eigencalc D) (m : list cplx) (w : world D) :
  clpk_32 -> fits (n x) -> plentiful w -> matrix x = Some m ->
  z_info (query_frame x m) = 0 -> z_info (solved_frame x m) = 0 ->
  exists vals vecs w',
    qte_eigencalc_bang x w = (Value tt, w') /\
    log w' = log w ++
      [outlet_list "out_eigenvalues" (n x) vals;
       outlet_list "out_eigenvectors" (2 * n x * n x) vecs;
       object_post "Eigen-decomposition completed successfully." []] /\
    Z.of_nat (List.length vals) = n x /\
    (forall i, 0 <= i < n x ->
       get (A_SYM "") vals i = A_FLOAT (get d0 (z_w (solved_frame x m)) i)) /\
    Z.of_nat (List.length vecs) = 2 * n x * n x /\
    (forall i j, 0 <= i < n x -> 0 <= j < n x ->
       get (A_SYM "") vecs (2 * (j * n x + i))
         = A_FLOAT (creal (get (d0, d0) (z_A (solved_frame x m)) (j * n x + i))) /\
       get (A_SYM "") vecs (2 * (j * n x + i) + 1)
         = A_FLOAT (cimag (get (d0, d0) (z_A (solved_frame x m)) (j * n x + i)))).
Proof.
  intros Hc [Hn Hsmall] Hw Hm H1 H2.
  destruct (bang_success_frames x m w Hw Hm H1 H2) as (w' & E & Hlog).
  generalize dependent (solved_frame x m). intros f2 _ Hlog.
  assert (EN : clpk_integer (n x) = n x) by (apply Hc; nia).
  rewrite EN in Hlog.
  assert (ET : clpk_integer (n x * n x) = n x * n x) by (apply Hc; nia).
  rewrite ET in Hlog.
  assert (E2 : clpk_integer (2 * (n x * n x)) = 2 * n x * n x).
  { rewrite Hc by nia. ring. }
  rewrite E2 in Hlog.
  destruct (fill_eigvals_spec (n x) (z_w f2) (repeat junk_atom (Z.to_nat (n x))))
    as [Lvals Evals]; [apply repeat_length|].
  destruct (fill_eigvecs_spec (n x) (z_A f2)
              (repeat junk_atom (Z.to_nat (2 * n x * n x))))
    as [Lvecs Evecs].
  { lia. }
  { unfold CLong.LONG_MAX. lia. }
  { rewrite repeat_length. lia. }
  rewrite firstn_all2 in Hlog by lia.
  rewrite firstn_all2 in Hlog by lia.
  eexists. eexists. exists w'. split; [exact E|]. split; [exact Hlog|].
  split; [lia|]. split; [exact Evals|]. split; [exact Lvecs | exact Evecs].
Qed.

(** A [bang] with every allocation served leaves every allocation served. *)
Lemma bang_keeps_plentiful {U : Uninit D} (x : t_qte_eigencalc D) (w w' : world D)
      (r : outcome unit) :
  plentiful w -> qte_eigencalc_bang x w = (r, w') -> plentiful w'.
Proof.
  intros Hw E.
  destruct (steady_bang x w w Hw Hw) as (r' & evs & u & v & Eu & _ & _ & _ & Hu & _).
  rewrite E in Eu. apply pair_equal_spec in Eu. destruct Eu as [_ <-]. exact Hu.
Qed.

Lemma handle_bang_run {U : Uninit D} (x : t_qte_eigencalc D) (w w' : world D) :
  qte_eigencalc_bang x w = (Value tt, w') -> handle x msg_bang w = (Value x, w').
Proof. intros E. cbn [handle]. now rewrite (bind_run _ _ _ _ _ E). Qed.

Section TwoRuns.
Variables U1 U2 : Uninit D.
Variable x : t_qte_eigencalc D.
Variable m : list (@cplx D).
Hypothesis Hc : clpk_32.
Hypothesis Hkept : in_arguments_kept.
Hypothesis Hfrom : outputs_from_inputs.
Hypothesis Hfits : fits (n x).
Hypothesis Hlen : Z.of_nat (List.length m) = n x * n x.

Let q1 := query_frame (U := U1) x m.
Let q2 := query_frame (U := U2) x m.
Let s1 := solved_frame (U := U1) x m.
Let s2 := solved_frame (U := U2) x m.

Lemma clpk_dimension :
  clpk_integer (n x) = n x /\
  clpk_integer (n x * n x) = n x * n x /\
  clpk_integer (-1) = -1.
Proof.
  destruct Hfits as [Hn Hsmall].
  repeat split; apply Hc; nia.
Qed.

(** The two workspace queries are handed the same matrix and answer the
    same. *)
Lemma queries_agree :
  z_jobz q1 = z_jobz q2 /\ z_uplo q1 = z_uplo q2 /\ z_N q1 = z_N q2 /\
  z_LDA q1 = z_LDA q2 /\ z_N q1 = n x /\
  z_A q1 = z_A q2 /\ z_info q1 = z_info q2 /\
  (z_info q1 = 0 -> work_size q1 = work_size q2).
Proof.
  destruct clpk_dimension as (EN & ET & _). destruct Hfits as [Hn Hsmall].
  unfold q1, q2, query_frame. cbv zeta. rewrite !EN, !ET.
  assert (EA : to_column_major (n x) m
                 (repeat (junk (Uninit := U1), junk (Uninit := U1)) (Z.to_nat (n x * n x)))
             = to_column_major (n x) m
                 (repeat (junk (Uninit := U2), junk (Uninit := U2)) (Z.to_nat (n x * n x)))).
  { apply to_column_major_any_buffer; try (rewrite repeat_length); try lia.
    unfold CLong.LONG_MAX. lia. }
  rewrite EA. unfold workspace_query. cbv zeta. rewrite !EN.
  match goal with
  | |- context [ z_jobz (zheev_ ?f) = z_jobz (zheev_ ?g) ] =>
      destruct (Hkept f) as (J1 & U1' & N1 & D1 & _);
      destruct (Hkept g) as (J2 & U2' & N2 & D2 & _);
      destruct (Hfrom f g eq_refl eq_refl eq_refl eq_refl eq_refl eq_refl)
        as (HA & HI & HW & _)
  end.
  cbn [z_jobz z_uplo z_N z_LDA] in J1, U1', N1, D1, J2, U2', N2, D2.
  repeat split; try congruence.
  intros H0. unfold work_size. cbv zeta. now rewrite (HW H0).
Qed.

(** So are the two decompositions. *)
Lemma decompositions_agree :
  z_info q1 = 0 ->
  z_info s1 = z_info s2 /\
  (z_info s1 = 0 ->
     z_A s1 = z_A s2 /\
     forall i, 0 <= i < n x -> get d0 (z_w s1) i = get d0 (z_w s2) i).
Proof.
  intros H0.
  destruct queries_agree as (EJ & EU & EN & ED & ENn & EA & EI & EW).
  specialize (EW H0).
  unfold s1, s2, solved_frame. cbv zeta. fold q1. fold q2.
  unfold decomposition.
  match goal with
  | |- z_info (zheev_ ?f) = z_info (zheev_ ?g) /\ _ =>
      destruct (Hfrom f g EJ EU EN EA ED EW) as (HA & HI & _ & HWc)
  end.
  split; [exact HI|]. intros Hs. split; [exact HA|].
  intros i Hi. apply (HWc Hs).
  - cbn [z_lwork]. pose proof (work_size_pos q1). lia.
  - cbn [z_N]. rewrite ENn. exact Hi.
Qed.

End TwoRuns.

(** C8.  Two [bang]s in a row on a stored matrix, with nothing in between
    and every allocation served.  Unwritten storage may hold different
    values in the two runs ([U1], [U2]).  [zheev_] is assumed to behave as
    LAPACK documents it: it leaves the arguments it only reads, and what it
    returns is determined by the arguments it reads.  Then each [bang] hands
    back the object, hence the stored matrix, as it was; both send the same
    events, and these are never none: an error, or the eigenvalues from the
    left outlet followed by an error or by the eigenvectors from the right
    outlet and the post.  When [zheev_] succeeds, both runs send the [n]
    eigenvalues [w] and the [2 n^2] numbers of [A] that [zheev_] computed
    from the stored matrix. *)
Theorem decompose_retains_and_repeats (U1 U2 : Uninit D) (x : t_qte_eigencalc D)
        (m : list cplx) (w : world D) :
  clpk_32 -> in_arguments_kept -> outputs_from_inputs ->
  fits (n x) -> matrix x = Some m -> Z.of_nat (List.length m) = n x * n x ->
  plentiful w ->
  exists evs w1 w2,
    handle (U := U1) x msg_bang w = (Value x, w1) /\
    handle (U := U2) x msg_bang w1 = (Value x, w2) /\
    log w1 = log w ++ evs /\
    log w2 = log w1 ++ evs /\
    bang_events (n x) evs /\
    (z_info (query_frame (U := U1) x m) = 0 ->
     z_info (solved_frame (U := U1) x m) = 0 ->
     exists vals vecs,
       evs = [outlet_list "out_eigenvalues" (n x) vals;
              outlet_list "out_eigenvectors" (2 * n x * n x) vecs;
              object_post "Eigen-decomposition completed successfully." []] /\
       Z.of_nat (List.length vals) = n x /\
       (forall i, 0 <= i < n x ->
          get (A_SYM "") vals i
          = A_FLOAT (get d0 (z_w (solved_frame (U := U1) x m)) i)) /\
       Z.of_nat (List.length vecs) = 2 * n x * n x /\
       (forall i j, 0 <= i < n x -> 0 <= j < n x ->
          get (A_SYM "") vecs (2 * (j * n x + i))
            = A_FLOAT (creal (get (d0, d0) (z_A (solved_frame (U := U1) x m))
                                  (j * n x + i))) /\
          get (A_SYM "") vecs (2 * (j * n x + i) + 1)
            = A_FLOAT (cimag (get (d0, d0) (z_A (solved_frame (U := U1) x m))
                                  (j * n x + i))))).
Proof.
  intros Hc Hkept Hfrom Hfits Hm _ Hw.
  destruct (queries_agree U1 U2 x m Hc Hkept Hfrom Hfits) as (_ & _ & _ & _ & _ & _ & EI & _).
  pose proof (decompositions_agree U1 U2 x m Hc Hkept Hfrom Hfits) as Hdec.
  set (q1 := query_frame (U := U1) x m) in *.
  set (q2 := query_frame (U := U2) x m) in *.
  set (s1 := solved_frame (U := U1) x m) in *.
  set (s2 := solved_frame (U := U2) x m) in *.
  destruct (Z.eq_dec (z_info q1) 0) as [H1|H1].
  - destruct (Hdec H1) as (EIs & Hsame).
    destruct (Z.eq_dec (z_info s1) 0) as [H2|H2].
    + destruct (Hsame H2) as (EA & EW).
      destruct (success_run (U := U1) x m w Hc Hfits Hw Hm H1 H2)
        as (vals & vecs & w1 & E1 & L1 & Lv & Cv & Lc & Cc).
      pose proof (bang_keeps_plentiful (U := U1) x w w1 _ Hw E1) as Hw1.
      assert (H1' : z_info q2 = 0) by congruence.
      assert (H2' : z_info s2 = 0) by congruence.
      destruct (success_run (U := U2) x m w1 Hc Hfits Hw1 Hm H1' H2')
        as (vals' & vecs' & w2 & E2 & L2 & Lv' & Cv' & Lc' & Cc').
      fold s1 in Cv, Cc. fold s2 in Cv', Cc'.
      assert (Evals : vals' = vals).
      { apply (same_eigenvalue_lists (n x) vals' vals
                 (fun i => A_FLOAT (get d0 (z_w s1) i))); try assumption.
        intros i Hi. rewrite (Cv' i Hi). now rewrite (EW i Hi). }
      assert (Evecs : vecs' = vecs).
      { destruct Hfits as [Hn _].
        apply (same_eigenvector_lists (n x) vecs' vecs
                 (fun p => A_FLOAT (creal (get (d0, d0) (z_A s1) p)))
                 (fun p => A_FLOAT (cimag (get (d0, d0) (z_A s1) p))));
          try assumption; try lia.
        intros i j Hi Hj. rewrite EA. exact (Cc' i j Hi Hj). }
      subst vals' vecs'.
      eexists. exists w1, w2.
      split; [exact (handle_bang_run x w w1 E1)|].
      split; [exact (handle_bang_run x w1 w2 E2)|].
      split; [exact L1|]. split; [exact L2|].
      split; [constructor|].
      intros _ _. exists vals, vecs. repeat split; assumption || apply Cc; assumption.
    + destruct (bang_failure_runs (U := U1) x m w Hw Hm) as [_ F1].
      destruct (F1 H1 H2) as (w1 & E1 & L1).
      pose proof (bang_keeps_plentiful (U := U1) x w w1 _ Hw E1) as Hw1.
      destruct (bang_failure_runs (U := U2) x m w1 Hw1 Hm) as [_ F2].
      assert (H1' : z_info q2 = 0) by congruence.
      assert (H2' : z_info s2 <> 0) by congruence.
      destruct (F2 H1' H2') as (w2 & E2 & L2).
      fold s1 in L1. fold s2 in L2. rewrite <- EIs in L2.
      eexists. exists w1, w2.
      split; [exact (handle_bang_run x w w1 E1)|].
      split; [exact (handle_bang_run x w1 w2 E2)|].
      split; [exact L1|]. split; [exact L2|].
      split; [constructor|]. intros _ Hs. contradiction.
  - destruct (bang_failure_runs (U := U1) x m w Hw Hm) as [F1 _].
    destruct (F1 H1) as (w1 & E1 & L1).
    pose proof (bang_keeps_plentiful (U := U1) x w w1 _ Hw E1) as Hw1.
    destruct (bang_failure_runs (U := U2) x m w1 Hw1 Hm) as [F2 _].
    assert (H1' : z_info q2 <> 0) by congruence.
    destruct (F2 H1') as (w2 & E2 & L2).
    fold q1 in L1. fold q2 in L2. rewrite <- EI in L2.
    eexists. exists w1, w2.
    split; [exact (handle_bang_run x w w1 E1)|].
    split; [exact (handle_bang_run x w1 w2 E2)|].
    split; [exact L1|]. split; [exact L2|].
    split; [constructor|]. intros Hq. contradiction.
Qed.



End SolverRepeats.

Section SolverRepeatsExample.
Import Exact Eigencalc Session.

Lemma get_map_seq {A : Type} (d : A) (f : nat -> A) (k : nat) (t : list A) (i : Z) :
  0 <= i < Z.of_nat k -> get d (map f (seq 0 k) ++ t) i = f (Z.to_nat i).
Proof.
  intros Hi. unfold get. destruct (Z.ltb_spec i 0); [lia|].
  rewrite app_nth1 by (rewrite length_map, length_seq; lia).
  rewrite (nth_indep _ d (f 0%nat)) by (rewrite length_map, length_seq; lia).
  rewrite map_nth, seq_nth by lia. reflexivity.
Qed.

Lemma diagonal_lapack_clpk_32 : clpk_32 (L := Faults.diagonal_lapack).
Proof. apply wrapping_clpk_32. reflexivity. Qed.

Lemma diagonal_lapack_kept : in_arguments_kept (L := Faults.diagonal_lapack).
Proof.
  intros f. cbn [zheev_ Faults.diagonal_lapack].
  destruct (z_lwork f =? -1); cbn [z_jobz z_uplo z_N z_LDA z_lwork]; auto.
Qed.

Lemma diagonal_lapack_info (f : zheev_frame R) :
  z_info (zheev_ (Lapack := Faults.diagonal_lapack) f) = 0.
Proof.
  cbn [zheev_ Faults.diagonal_lapack]. destruct (z_lwork f =? -1); reflexivity.
Qed.

(** The eigenvalues the stand-in returns are the diagonal of its [A]. *)
Lemma diagonal_lapack_eigenvalues (f : zheev_frame R) (i : Z) :
  z_lwork f <> -1 -> 0 <= i < z_N f ->
  get 0%R (z_w (zheev_ (Lapack := Faults.diagonal_lapack) f)) i
  = fst (get (0%R, 0%R) (z_A f) (i * (z_N f + 1))).
Proof.
  intros Hl Hi. cbn [zheev_ Faults.diagonal_lapack].
  destruct (Z.eqb_spec (z_lwork f) (-1)) as [E|_]; [contradiction|].
  cbn [z_w]. rewrite get_map_seq by lia. now rewrite Z2Nat.id by lia.
Qed.

Lemma diagonal_lapack_from_inputs : outputs_from_inputs (L := Faults.diagonal_lapack).
Proof.
  intros f g HJ HU HN HA HL Hl.
  split; [|split; [|split]].
  - cbn [zheev_ Faults.diagonal_lapack]. rewrite Hl, HN, HA.
    destruct (z_lwork g =? -1); reflexivity.
  - now rewrite !diagonal_lapack_info.
  - intros _. cbn [zheev_ Faults.diagonal_lapack]. rewrite Hl.
    destruct (z_lwork g =? -1); reflexivity.
  - intros _ Hq i Hi.
    rewrite !diagonal_lapack_eigenvalues by congruence. now rewrite HA, HN.
Qed.

Lemma decompose_retains_and_repeats_witness :
  exists evs w1 w2 vals vecs,
    handle (U := Sample.zeros) (L := Faults.diagonal_lapack)
      (mk_eigencalc 2 (Some Faults.stored_diagonal_2)) msg_bang Sample.calm
      = (Value (mk_eigencalc 2 (Some Faults.stored_diagonal_2)), w1) /\
    handle (U := Faults.ones) (L := Faults.diagonal_lapack)
      (mk_eigencalc 2 (Some Faults.stored_diagonal_2)) msg_bang w1
      = (Value (mk_eigencalc 2 (Some Faults.stored_diagonal_2)), w2) /\
    log w1 = evs /\
    log w2 = evs ++ evs /\
    evs = [outlet_list "out_eigenvalues" 2 vals;
           outlet_list "out_eigenvectors" 8 vecs;
           object_post "Eigen-decomposition completed successfully." []] /\
    get (A_SYM "") vals 0 = A_FLOAT 5%R /\
    get (A_SYM "") vals 1 = A_FLOAT 7%R.
Proof.
  destruct (decompose_retains_and_repeats (L := Faults.diagonal_lapack)
              Sample.zeros Faults.ones
              (mk_eigencalc 2 (Some Faults.stored_diagonal_2)) Faults.stored_diagonal_2
              Sample.calm)
    as (evs & w1 & w2 & E1 & E2 & L1 & L2 & _ & Hok).
  - exact diagonal_lapack_clpk_32.
  - exact diagonal_lapack_kept.
  - exact diagonal_lapack_from_inputs.
  - split; simpl; lia.
  - reflexivity.
  - reflexivity.
  - constructor.
  - destruct Hok as (vals & vecs & Eevs & _ & Cv & _); try apply diagonal_lapack_info.
    exists evs, w1, w2, vals, vecs.
    split; [exact E1|]. split; [exact E2|]. split; [exact L1|].
    split; [rewrite L2, L1; reflexivity|]. split; [exact Eevs|].
    assert (Hw : forall i, 0 <= i < 2 ->
              get 0%R (z_w (solved_frame (U := Sample.zeros) (L := Faults.diagonal_lapack)
                              (mk_eigencalc 2 (Some Faults.stored_diagonal_2))
                              Faults.stored_diagonal_2)) i
              = fst (get (0%R, 0%R) Faults.stored_diagonal_2 (i * 3))).
    { intros i Hi. unfold solved_frame. cbv zeta. unfold decomposition.
      rewrite diagonal_lapack_eigenvalues.
      - cbn [z_N z_A]. destruct (Z.eq_dec i 0) as [->|]; [reflexivity|].
        assert (i = 1) by lia. subst i. reflexivity.
      - cbn [z_lwork].
        pose proof (work_size_pos (L := Faults.diagonal_lapack)
                      (query_frame (U := Sample.zeros) (L := Faults.diagonal_lapack)
                         (mk_eigencalc 2 (Some Faults.stored_diagonal_2))
                         Faults.stored_diagonal_2)). lia.
      - cbn [z_N]. exact Hi. }
    split.
    + rewrite (Cv 0) by (simpl; lia). apply f_equal. exact (Hw 0 ltac:(lia)).
    + rewrite (Cv 1) by (simpl; lia). apply f_equal. exact (Hw 1 ltac:(lia)).
Defined.

End SolverRepeatsExample.

(* ================================================================== *)
(** * Part VII: further properties of the builder                      *)
(* ================================================================== *)

Section BuilderAllocation.
Context {D : Type} {Fl : Flt D} {U : Uninit D}.
Import QuantumHO Shape.

(** The matrix of [calloc]: [n] rows of [n] zeros. *)
Lemma alloc_rows_zero (n : Z) :
  forall (k : nat) (rows M : matrix D) (w w' : world D),
    alloc_rows k n rows w = (Value (Some M), w') ->
    M = rows ++ repeat (repeat (d0, d0) (Z.to_nat n)) k.
Proof.
  induction k as [|k IH]; intros rows M w w' E.
  - cbn [alloc_rows] in E. unfold ret in E. apply pair_equal_spec in E.
    destruct E as [E _]. injection E as <-. cbn [repeat]. now rewrite app_nil_r.
  - cbn [alloc_rows] in E. split_bind E r w1 Er.
    unfold calloc_complex in Er. split_bind Er b w0 Eb.
    unfold ret in Er. apply pair_equal_spec in Er. destruct Er as [Er _].
    injection Er as <-. destruct b; [|discriminate].
    apply IH in E. rewrite E, <- app_assoc. reflexivity.
Qed.

(** A request made while the heap still serves. *)
Lemma request_served (j : nat) (h : list bool) (w : world D) :
  heap w = true :: repeat true j ++ false :: h ->
  request w = (Value true, mkWorld (repeat true j ++ false :: h) (log w)).
Proof. intros Hh. unfold request. now rewrite Hh. Qed.

(** A request made when the heap refuses. *)
Lemma request_refused (h : list bool) (w : world D) :
  heap w = false :: h -> request w = (Value false, mkWorld h (log w)).
Proof. intros Hh. unfold request. now rewrite Hh. Qed.

Lemma alloc_rows_counts (n : Z) (h : list bool) :
  forall (k j : nat) (rows : matrix D) (w : world D),
    heap w = repeat true j ++ false :: h ->
    ((j < k)%nat -> exists w', alloc_rows k n rows w = (Value None, w')) /\
    ((k <= j)%nat -> exists M,
        alloc_rows k n rows w
        = (Value (Some M), mkWorld (repeat true (j - k) ++ false :: h) (log w))).
Proof.
  induction k as [|k IH]; intros j rows w Hh.
  - split; [lia|]. intros _. exists rows. cbn [alloc_rows]. unfold ret.
    rewrite Nat.sub_0_r, <- Hh. now destruct w.
  - cbn [alloc_rows]. unfold calloc_complex. destruct j as [|j].
    + split; [|lia]. intros _. cbn [repeat app] in Hh.
      rewrite (bind_run _ _ _ _ _ (bind_run _ _ _ _ _ (request_refused h w Hh))).
      unfold ret. eauto.
    + cbn [repeat app] in Hh.
      rewrite (bind_run _ _ _ _ _ (bind_run _ _ _ _ _ (request_served j h w Hh))).
      cbv beta iota.
      destruct (IH j (rows ++ [repeat (d0, d0) (Z.to_nat n)])
                  (mkWorld (repeat true j ++ false :: h) (log w)) eq_refl) as [Hlt Hge].
      split; intros Hj.
      * apply Hlt. lia.
      * destruct Hge as [M EM]; [lia|]. exists M. exact EM.
Qed.

(** One call of [alloc_complex_matrix] makes [n + 1] requests: it returns
    NULL when one of them is refused. *)
Lemma alloc_complex_matrix_counts (n : Z) (j : nat) (h : list bool) (w : world D) :
  heap w = repeat true j ++ false :: h ->
  ((j < Datatypes.S (Z.to_nat n))%nat ->
     exists w', alloc_complex_matrix n w = (Value None, w')) /\
  ((Datatypes.S (Z.to_nat n) <= j)%nat -> exists M,
     alloc_complex_matrix n w
     = (Value (Some M),
        mkWorld (repeat true (j - Datatypes.S (Z.to_nat n)) ++ false :: h) (log w))).
Proof.
  intros Hh. unfold alloc_complex_matrix. destruct j as [|j].
  - split; [|lia]. intros _. cbn [repeat app] in Hh.
    rewrite (bind_run _ _ _ _ _ (request_refused h w Hh)). unfold ret. eauto.
  - cbn [repeat app] in Hh.
    rewrite (bind_run _ _ _ _ _ (request_served j h w Hh)).
    destruct (alloc_rows_counts n h (Z.to_nat n) j []
                (mkWorld (repeat true j ++ false :: h) (log w)) eq_refl) as [Hlt Hge].
    split; intros Hj.
    + apply Hlt. lia.
    + destruct Hge as [M EM]; [lia|]. exists M. cbn [Nat.sub]. exact EM.
Qed.

Lemma returns_alloc_complex_matrix (n : Z) : returns (alloc_complex_matrix (D := D) n).
Proof.
  unfold alloc_complex_matrix. apply returns_bind; [apply returns_request|].
  intros [|]; [|apply returns_ret].
  generalize (@nil (list (@cplx D))).
  induction (Z.to_nat n) as [|k IH]; intros rows; cbn [alloc_rows].
  - apply returns_ret.
  - apply returns_bind.
    + apply returns_bind; [apply returns_request | intros; apply returns_ret].
    + intros [row|]; [apply IH | apply returns_ret].
Qed.

(** X8.  For [n >= 0], [alloc_complex_matrix] always returns and sends
    nothing; the matrix it returns has [n] rows of [n] zeros; it returns one
    when every allocation is served, and NULL when the array of row pointers
    or any of the [n] rows is refused. *)
Theorem alloc_complex_matrix_zeros_or_null (n : Z) (w : world D) :
  0 <= n ->
  exists o w',
    alloc_complex_matrix n w = (Value o, w') /\
    log w' = log w /\
    (forall M, o = Some M ->
       M = repeat (repeat (d0, d0) (Z.to_nat n)) (Z.to_nat n)) /\
    (plentiful w -> o <> None) /\
    (forall j h, heap w = repeat true j ++ false :: h ->
       (j <= Z.to_nat n)%nat -> o = None).
Proof.
  intros _.
  destruct (returns_alloc_complex_matrix n w) as (o & w' & E).
  exists o, w'. split; [exact E|].
  split; [now apply (quiet_alloc_complex_matrix n w (Value o) w')|].
  split; [|split].
  - intros M ->. unfold alloc_complex_matrix in E. split_bind E b w1 Eb.
    destruct b; [|discriminate]. now apply alloc_rows_zero in E.
  - intros Hw. destruct (alloc_complex_matrix_plentiful n w Hw) as (M & w1 & E1 & _).
    rewrite E in E1. apply pair_equal_spec in E1. destruct E1 as [E1 _].
    injection E1 as ->. discriminate.
  - intros j h Hh Hj.
    destruct (alloc_complex_matrix_counts n j h w Hh) as [Hlt _].
    destruct Hlt as [w1 E1]; [lia|].
    rewrite E in E1. apply pair_equal_spec in E1. destruct E1 as [E1 _].
    now injection E1.
Qed.

End BuilderAllocation.

Section BuilderFailures.
Context {D : Type} {Fl : Flt D} {U : Uninit D}.
Import QuantumHO Shape.

(** After a refused request the remaining matrices are still requested, and
    NULL is returned in the end. *)
Ltac rest_null :=
  repeat match goal with
  | |- context [ bind (alloc_complex_matrix ?n) _ ?w0 ] =>
      let o := fresh "o" in let w' := fresh "w" in let E := fresh "E" in
      destruct (returns_alloc_complex_matrix n w0) as (o & w' & E);
      rewrite (bind_run _ _ _ _ _ E)
  end;
  repeat match goal with
  | |- context [ match ?o with Some _ => _ | None => _ end ] => is_var o; destruct o
  end;
  unfold ret; cbv beta iota;
  eexists; eexists; (split; [reflexivity|]); left; (split; [lia | reflexivity]).

(** The next matrix of [compute_hamiltonian], when the refusal is [j]
    requests away. *)
Ltac next_matrix j h Hj M :=
  match goal with
  | |- context [ bind (alloc_complex_matrix ?n) _ ?w0 ] =>
      let Hlt := fresh "Hlt" in let Hge := fresh "Hge" in
      let E := fresh "E" in let w' := fresh "w" in
      destruct (alloc_complex_matrix_counts n j h w0 eq_refl) as [Hlt Hge];
      destruct (Nat.lt_ge_cases j (Datatypes.S (Z.to_nat n))) as [Hj|Hj];
      [ destruct (Hlt Hj) as [w' E]; rewrite (bind_run _ _ _ _ _ E); clear Hlt Hge
      | destruct (Hge Hj) as [M E]; rewrite (bind_run _ _ _ _ _ E); clear Hlt Hge E;
        cbn [log] ]
  end.

(** What [compute_hamiltonian] does when the [j + 1]-th allocation request
    from now is the first one refused. *)
Lemma compute_hamiltonian_first_refusal (x : t_qte_quantumho D) (j : nat)
      (h : list bool) (w : world D) :
  0 < n x ->
  heap w = repeat true j ++ false :: h ->
  let r := Datatypes.S (Z.to_nat (n x)) in
  exists out w1,
    compute_hamiltonian x w = (out, w1) /\
    (((j < 6 * r + 1)%nat /\ out = Value None) \/
     (j = (6 * r + 1)%nat /\ out = Crash) \/
     ((6 * r + 2 <= j)%nat /\ exists H,
        out = Value (Some H) /\
        w1 = mkWorld (repeat true (j - (6 * r + 2)) ++ false :: h) (log w))).
Proof.
  intros Hn Hh r.
  assert (Ew : w = mkWorld (repeat true j ++ false :: h) (log w))
    by (rewrite <- Hh; now destruct w).
  rewrite Ew. cbn [log]. clear Ew Hh.
  unfold compute_hamiltonian. unfold bind at 1.
  unfold compute_hamiltonian_locals. cbv zeta. unfold r.
  next_matrix j h H1 M1; [rest_null|].
  next_matrix (j - r)%nat h H2 M2; [unfold r in *; rest_null|].
  next_matrix (j - r - r)%nat h H3 M3; [unfold r in *; rest_null|].
  next_matrix (j - r - r - r)%nat h H4 M4; [unfold r in *; rest_null|].
  next_matrix (j - r - r - r - r)%nat h H5 M5; [unfold r in *; rest_null|].
  next_matrix (j - r - r - r - r - r)%nat h H6 M6; [unfold r in *; rest_null|].
  fold r. remember (j - r - r - r - r - r - r)%nat as j6 eqn:Ej6.
  unfold malloc_doubles at 1.
  destruct j6 as [|j7].
  { cbn [repeat app].
    rewrite (bind_run _ _ _ _ _
      (bind_run _ _ _ _ _ (request_refused h (mkWorld (false :: h) (log w)) eq_refl))).
    unfold ret. cbv beta iota.
    eexists; eexists; (split; [reflexivity|]); left.
    split; [unfold r in *; lia | reflexivity]. }
  cbn [repeat app].
  rewrite (bind_run _ _ _ _ _
    (bind_run _ _ _ _ _
       (request_served j7 h (mkWorld (true :: repeat true j7 ++ false :: h) (log w))
          eq_refl))).
  cbv beta iota. cbn [log]. unfold malloc_doubles at 1.
  destruct j7 as [|j8].
  { cbn [repeat app].
    rewrite (bind_run _ _ _ _ _
      (bind_run _ _ _ _ _ (request_refused h (mkWorld (false :: h) (log w)) eq_refl))).
    cbv beta iota. destruct (Z.ltb_spec 0 (n x)); [|lia].
    unfold bind, crash.
    eexists; eexists; (split; [reflexivity|]); right; left.
    split; [unfold r in *; lia | reflexivity]. }
  cbn [repeat app].
  rewrite (bind_run _ _ _ _ _
    (bind_run _ _ _ _ _
       (request_served j8 h (mkWorld (true :: repeat true j8 ++ false :: h) (log w))
          eq_refl))).
  cbv beta iota. unfold bind, ret. cbn [option_map l_H log].
  eexists; eexists; (split; [reflexivity|]); right; right.
  split; [unfold r in *; lia|]. eexists. split; [reflexivity|].
  replace (j - (6 * r + 2))%nat with j8 by (unfold r in *; lia). reflexivity.
Qed.

(** X9.  Refused allocations the builder survives, for [n > 0] with
    [2 n^2] a [long].  With [r = n + 1] the requests of one
    [alloc_complex_matrix]: if one of the first [6 r + 1] requests of [bang]
    (the six matrices and [PImpulse]) is the first to be refused, [bang]
    sends the out-of-memory error and nothing else; if all of
    [compute_hamiltonian] is served and the output list is refused, it sends
    the output-list error and nothing else. *)
Theorem bang_reports_refused_allocation (x : t_qte_quantumho D) (j : nat)
        (h : list bool) (w : world D) :
  0 < n x -> 2 * n x * n x <= CLong.LONG_MAX ->
  heap w = repeat true j ++ false :: h ->
  let r := Datatypes.S (Z.to_nat (n x)) in
  ((j < 6 * r + 1)%nat ->
     exists w', qte_quantumho_bang x w = (Value tt, w') /\
       log w' = log w ++
         [object_error "Failed to compute Hamiltonian (out of memory?)" []]) /\
  (j = (6 * r + 2)%nat ->
     exists w', qte_quantumho_bang x w = (Value tt, w') /\
       log w' = log w ++
         [object_error "Failed to allocate memory for output list" []]).
Proof.
  intros Hn _ Hh r.
  destruct (compute_hamiltonian_first_refusal x j h w Hn Hh)
    as (out & w1 & E1 & Hcases).
  fold r in Hcases. unfold qte_quantumho_bang. cbv zeta. split; intros Hj.
  - destruct Hcases as [[_ ->] | [[Hc _] | [Hc _]]]; try (exfalso; lia).
    rewrite (bind_run _ _ _ _ _ E1).
    unfold tell. eexists. split; [reflexivity|]. cbn [log].
    now rewrite (quiet_compute_hamiltonian x w _ w1 E1).
  - destruct Hcases as [[Hc _] | [[Hc _] | (_ & H & -> & ->)]]; try (exfalso; lia).
    rewrite (bind_run _ _ _ _ _ E1).
    replace (j - (6 * r + 2))%nat with 0%nat by lia. cbn [repeat app].
    unfold sysmem_newptr_atoms.
    rewrite (bind_run _ _ _ _ _
      (bind_run _ _ _ _ _ (request_refused h (mkWorld (false :: h) (log w)) eq_refl))).
    cbv beta iota. unfold tell. eexists. split; reflexivity.
Qed.

(** X10.  The one allocation [compute_hamiltonian] does not test: for
    [n > 0], when the request for [Q_diag] (number [6 (n + 1) + 2]) is the
    first to be refused, [bang] writes through the NULL pointer; it sends
    nothing. *)
Theorem bang_crashes_without_Q_diag (x : t_qte_quantumho D) (h : list bool) (w : world D) :
  0 < n x -> 2 * n x * n x <= CLong.LONG_MAX ->
  heap w = repeat true (6 * Datatypes.S (Z.to_nat (n x)) + 1) ++ false :: h ->
  exists w', qte_quantumho_bang x w = (Crash, w') /\ log w' = log w.
Proof.
  intros Hn _ Hh.
  destruct (compute_hamiltonian_first_refusal x _ h w Hn Hh)
    as (out & w1 & E1 & Hcases).
  destruct Hcases as [[Hc _] | [[_ ->] | [Hc _]]]; try (exfalso; lia).
  unfold qte_quantumho_bang. cbv zeta. unfold bind. rewrite E1.
  exists w1. split; [reflexivity|].
  exact (quiet_compute_hamiltonian x w _ w1 E1).
Qed.

End BuilderFailures.

Section BuilderAlgebra.
Import Exact QuantumHO Shape.

Ltac reals :=
  cbv [cadd cmul conj rcmul crmul rcadd c_of_real CI creal cimag d0 d1 d2
       Cplus Cmult Cconj Cscal RtoC];
  cbn [dadd dmul ddiv dneg dhalf of_long dM_PI dsqrt dcos dsin dround RealFlt
       fst snd].

(** [round] moves a number by at most one half. *)
Lemma Rround_close (y : R) : (- (1 / 2) <= Rround y - y <= 1 / 2)%R.
Proof.
  unfold Rround. destruct (Rle_dec 0 y) as [Hy|Hy].
  - destruct (base_Int_part (y + / 2)) as [Hle Hgt]. lra.
  - destruct (base_Int_part (- y + / 2)) as [Hle Hgt]. lra.
Qed.

Lemma round5_close (x : R) : (- (1 / 200000) <= round5 x - x <= 1 / 200000)%R.
Proof.
  unfold round5. cbn [dround dmul ddiv of_long RealFlt].
  pose proof (Rround_close (x * 100000)) as H.
  unfold Rdiv in *. lra.
Qed.

Lemma round5_again (x : R) : round5 (round5 x) = round5 x.
Proof.
  assert (E : exists k, round5 x = (IZR k / 100000)%R).
  { unfold round5. cbn [dround dmul ddiv of_long RealFlt].
    destruct (Rround_integer (x * 100000)) as [k ->]. now exists k. }
  destruct E as [k ->]. apply round5_exact.
Qed.

(** X11.  The final loop nest of [compute_hamiltonian], on [n] x [n]
    matrices and an [n]-cell [Q_diag], moves each part of an entry by at most
    half a unit of the fifth decimal, and what it stores is a fixed point of
    [round5]: rounding the stored entry again changes nothing.  (Exact
    arithmetic.) *)
Theorem final_loop_rounding_error (n : Z) (P2 : matrix R) (Q_diag : list R)
        (H : matrix R) (i j : Z) :
  square n P2 -> List.length Q_diag = Z.to_nat n -> square n H ->
  0 <= i < n -> 0 <= j < n ->
  let val := unrounded P2 Q_diag i j in
  let h := mget (build_H n P2 Q_diag H) i j in
  (- (1 / 200000) <= fst h - fst val <= 1 / 200000)%R /\
  (- (1 / 200000) <= snd h - snd val <= 1 / 200000)%R /\
  round5 (fst h) = fst h /\ round5 (snd h) = snd h.
Proof.
  intros _ _ HH Hi Hj. cbv zeta.
  destruct (build_H_spec n P2 Q_diag H HH) as [_ E]. rewrite (E i j Hi Hj).
  set (val := unrounded P2 Q_diag i j).
  replace (rcadd (round5 (creal val)) (crmul CI (round5 (cimag val))))
    with (round5 (fst val), round5 (snd val)).
  - cbn [fst snd]. repeat split; try apply round5_close; apply round5_again.
  - reals. apply (f_equal2 (@pair R R)); ring.
Qed.

(** X12.  [compute_conjugate_transpose] is an involution: applied twice it
    gives back every entry of an [n] x [n] matrix.  (Exact arithmetic.) *)
Theorem conjugate_transpose_twice (n : Z) (F A B : matrix R) (i j : Z) :
  square n F -> square n A -> square n B -> 0 <= i < n -> 0 <= j < n ->
  mget (compute_conjugate_transpose (compute_conjugate_transpose F A n) B n) i j
  = mget F i j.
Proof.
  intros _ HA HB Hi Hj.
  destruct (compute_conjugate_transpose_spec n (compute_conjugate_transpose F A n) B HB)
    as [_ EB].
  destruct (compute_conjugate_transpose_spec n F A HA) as [_ EA].
  rewrite EB, EA by assumption.
  destruct (mget F i j) as [re im]. reals. apply (f_equal2 (@pair R R)); ring.
Qed.

(** X13.  The conjugate transpose of a product computed by
    [multiply_complex_matrices] is the product of the conjugate transposes in
    the opposite order.  (Exact arithmetic.) *)
Theorem conjugate_transpose_of_product (n : Z) (A B R1 R2 T TA TB : matrix R) (i j : Z) :
  square n A -> square n B ->
  square n R1 -> square n R2 -> square n T -> square n TA -> square n TB ->
  0 <= i < n -> 0 <= j < n ->
  mget (compute_conjugate_transpose (multiply_complex_matrices A B R1 n) T n) i j
  = mget (multiply_complex_matrices (compute_conjugate_transpose B TB n)
            (compute_conjugate_transpose A TA n) R2 n) i j.
Proof.
  intros _ _ H1 H2 HT HTA HTB Hi Hj.
  destruct (compute_conjugate_transpose_spec n (multiply_complex_matrices A B R1 n) T HT)
    as [_ ET].
  destruct (multiply_complex_matrices_spec n A B R1 H1) as [_ E1].
  destruct (multiply_complex_matrices_spec n (compute_conjugate_transpose B TB n)
              (compute_conjugate_transpose A TA n) R2 H2) as [_ E2].
  destruct (compute_conjugate_transpose_spec n A TA HTA) as [_ EA].
  destruct (compute_conjugate_transpose_spec n B TB HTB) as [_ EB].
  rewrite ET, E1, E2 by assumption. rewrite !dot_is_sum.
  change (conj (Csum n (fun k => Cmult (mget A j k) (mget B k i))))
    with (Cconj (Csum n (fun k => Cmult (mget A j k) (mget B k i)))).
  rewrite Csum_conj. apply Csum_ext. intros k Hk.
  rewrite (EB i k Hi Hk), (EA k j Hk Hj).
  destruct (mget A j k) as [a1 a2]. destruct (mget B k i) as [b1 b2].
  reals. apply (f_equal2 (@pair R R)); ring.
Qed.

Lemma inv_sqrt_sqr (n : Z) : 0 < n -> (/ sqrt (IZR n) * / sqrt (IZR n) = / IZR n)%R.
Proof.
  intros Hn. rewrite <- Rinv_mult. rewrite sqrt_sqrt; [reflexivity|].
  apply IZR_le. lia.
Qed.

Lemma Csum_linear (c : R) (f : Z -> C) :
  forall m : nat,
    (forall k, 0 <= k < Z.of_nat m -> f k = (IZR k * c, 0)%R) ->
    Csum_nat m f = (c * (IZR (Z.of_nat m) * (IZR (Z.of_nat m) - 1) / 2), 0)%R.
Proof.
  induction m as [|m IH]; intros Hf.
  - cbn [Csum_nat Z.of_nat]. apply (f_equal2 (@pair R R)); unfold Rdiv; ring.
  - cbn [Csum_nat]. rewrite IH by (intros k Hk; apply Hf; lia).
    rewrite (Hf (Z.of_nat m)) by lia. rewrite Nat2Z.inj_succ, succ_IZR.
    unfold Cplus. cbn [fst snd]. apply (f_equal2 (@pair R R)); field.
Qed.

(** The diagonal of [F diag(0..n-1) F^*]. *)
Lemma Momentum_diagonal (n i : Z) :
  0 < n -> Momentum n i i = ((IZR n - 1) / 2, 0)%R.
Proof.
  intros Hn. unfold Momentum, Csum.
  rewrite (Csum_linear (/ IZR n)).
  - rewrite Z2Nat.id by lia. apply (f_equal2 (@pair R R)); [|reflexivity].
    field. apply not_0_IZR. lia.
  - intros k Hk. unfold Fourier.
    set (t := (2 * PI * IZR i * IZR k / IZR n)%R).
    pose proof (sin2_cos2 t) as Hsc. unfold Rsqr in Hsc.
    pose proof (inv_sqrt_sqr n Hn) as Hr.
    set (r := (/ sqrt (IZR n))%R) in *.
    unfold Cmult, Cconj, Cscal, RtoC. cbn [fst snd].
    apply (f_equal2 (@pair R R)).
    + replace (r * cos t * IZR k - r * sin t * 0)%R with (r * cos t * IZR k)%R by ring.
      replace (r * cos t * 0 + r * sin t * IZR k)%R with (r * sin t * IZR k)%R by ring.
      replace (r * cos t * IZR k * (r * cos t) - r * sin t * IZR k * - (r * sin t))%R
        with (IZR k * (r * r) * (sin t * sin t + cos t * cos t))%R by ring.
      rewrite Hsc, Hr. ring.
    + ring.
Qed.

(** X14.  Every diagonal entry of the momentum operator [P] that
    [compute_hamiltonian] builds is [(n - 1) / 2], the mean of the momenta
    [0 .. n-1].  (Exact arithmetic.) *)
Theorem momentum_diagonal_is_constant (U : Uninit R) (x : t_qte_quantumho R)
        (w w' : world R) (L : locals R) (i : Z) :
  0 < n x -> 0 <= i < n x ->
  compute_hamiltonian_locals x w = (Value (Some L), w') ->
  mget (l_P L) i i = ((IZR (n x) - 1) / 2, 0)%R.
Proof.
  intros Hn Hi E. apply compute_hamiltonian_locals_Some in E. destruct E as [HL _].
  rewrite (ok_P _ _ _ HL i i Hi Hi), P_entry_Momentum. now apply Momentum_diagonal.
Qed.

End BuilderAlgebra.

Section FourierInverse.
Import Exact QuantumHO Shape.

Lemma sin_integer_PI (d : Z) : sin (IZR d * PI) = 0%R.
Proof. apply sin_eq_0_1. now exists d. Qed.

Lemma cos_even_PI (d : Z) : cos (2 * (IZR d * PI)) = 1%R.
Proof. rewrite cos_2a_sin, sin_integer_PI. ring. Qed.

(** The angle [2 pi d / n] is a multiple of [2 pi] only when [n] divides
    [d]. *)
Lemma cos_root_neq_1 (n d : Z) :
  0 < n -> - n < d < n -> d <> 0 -> cos (2 * PI * IZR d / IZR n) <> 1%R.
Proof.
  intros Hn Hd Hd0 Hcos.
  assert (Hn0 : IZR n <> 0%R) by (apply not_0_IZR; lia).
  replace (2 * PI * IZR d / IZR n)%R with (2 * (PI * IZR d / IZR n))%R in Hcos
    by (unfold Rdiv; ring).
  rewrite cos_2a_sin in Hcos.
  assert (Hsin : sin (PI * IZR d / IZR n) = 0%R).
  { assert (Hsq : (sin (PI * IZR d / IZR n) * sin (PI * IZR d / IZR n) = 0)%R) by lra.
    now apply Rmult_integral in Hsq as [H|H]. }
  destruct (sin_eq_0_0 _ Hsin) as [k Hk].
  assert (Hdk : IZR d = IZR (k * n)).
  { rewrite mult_IZR. apply (Rmult_eq_reg_l PI); [|apply PI_neq0].
    replace (PI * IZR d)%R with (PI * IZR d / IZR n * IZR n)%R by (field; exact Hn0).
    rewrite Hk. ring. }
  apply eq_IZR in Hdk.
  assert (Hk3 : k = 0 \/ k <= -1 \/ 1 <= k) by lia.
  destruct Hk3 as [->|[Hneg|Hpos]]; [lia | nia | nia].
Qed.

(** The geometric sum, times [z - 1]. *)
Lemma geometric_sum (phi : R) :
  forall m : nat,
    Cmult (Csum_nat m (fun k => (cos (IZR k * phi), sin (IZR k * phi))%R))
          (cos phi - 1, sin phi)%R
    = (cos (IZR (Z.of_nat m) * phi) - 1, sin (IZR (Z.of_nat m) * phi))%R.
Proof.
  induction m as [|m IH].
  - cbn [Csum_nat]. change (Z.of_nat 0) with 0. unfold Cmult. cbn [fst snd].
    replace (0 * phi)%R with 0%R by ring.
    rewrite cos_0, sin_0. apply (f_equal2 (@pair R R)); ring.
  - cbn [Csum_nat]. rewrite Nat2Z.inj_succ, succ_IZR.
    replace ((IZR (Z.of_nat m) + 1) * phi)%R with (IZR (Z.of_nat m) * phi + phi)%R by ring.
    rewrite cos_plus, sin_plus.
    destruct (Csum_nat m _) as [sr si]. unfold Cmult, Cplus in *. cbn [fst snd] in *.
    injection IH as IHr IHi.
    apply (f_equal2 (@pair R R)); nra.
Qed.

(** The [n] roots of unity of a non-trivial order sum to zero. *)
Lemma roots_sum_zero (n d : Z) :
  0 < n -> - n < d < n -> d <> 0 ->
  Csum n (fun k => (cos (IZR k * (2 * PI * IZR d / IZR n)),
                    sin (IZR k * (2 * PI * IZR d / IZR n)))%R) = (0, 0)%R.
Proof.
  intros Hn Hd Hd0. unfold Csum.
  set (phi := (2 * PI * IZR d / IZR n)%R).
  pose proof (geometric_sum phi (Z.to_nat n)) as G.
  rewrite Z2Nat.id in G by lia.
  assert (Hn0 : IZR n <> 0%R) by (apply not_0_IZR; lia).
  assert (Hfull : (IZR n * phi = 2 * (IZR d * PI))%R) by (unfold phi; field; exact Hn0).
  rewrite Hfull, cos_even_PI in G.
  replace (2 * (IZR d * PI))%R with (IZR (2 * d) * PI)%R in G
    by (rewrite mult_IZR; ring).
  rewrite sin_integer_PI in G.
  pose proof (cos_root_neq_1 n d Hn Hd Hd0) as Hne. fold phi in Hne.
  pose proof (sin2_cos2 phi) as Hsc. unfold Rsqr in Hsc.
  destruct (Csum_nat (Z.to_nat n) _) as [sr si]. unfold Cmult in G. cbn [fst snd] in G.
  injection G as Gr Gi.
  set (c := (cos phi - 1)%R) in *. set (s := sin phi) in *.
  assert (Hnorm : (c * c + s * s <> 0)%R).
  { intros H0. assert (Hc : (c * c = 0)%R) by nra.
    apply Rmult_integral in Hc. apply Hne. unfold c in Hc. destruct Hc; lra. }
  assert (Hr : (sr * (c * c + s * s) = 0)%R).
  { replace (sr * (c * c + s * s))%R
      with (c * (sr * c - si * s) + s * (sr * s + si * c))%R by ring.
    rewrite Gr, Gi. ring. }
  assert (Hi : (si * (c * c + s * s) = 0)%R).
  { replace (si * (c * c + s * s))%R
      with (c * (sr * s + si * c) - s * (sr * c - si * s))%R by ring.
    rewrite Gr, Gi. ring. }
  apply Rmult_integral in Hr. apply Rmult_integral in Hi.
  destruct Hr as [->|Hr]; [|contradiction]. destruct Hi as [->|Hi]; [|contradiction].
  reflexivity.
Qed.

Lemma Csum_scal (c : R) (f : Z -> C) (m : nat) :
  Csum_nat m (fun k => Cscal c (f k)) = Cscal c (Csum_nat m f).
Proof.
  induction m as [|m IH]; cbn [Csum_nat].
  - unfold Cscal. cbn [fst snd]. apply (f_equal2 (@pair R R)); ring.
  - rewrite IH. unfold Cscal, Cplus. cbn [fst snd]. apply (f_equal2 (@pair R R)); ring.
Qed.

Lemma Csum_ones (m : nat) :
  Csum_nat m (fun _ => (1, 0)%R) = (IZR (Z.of_nat m), 0%R).
Proof.
  induction m as [|m IH]; cbn [Csum_nat]; [reflexivity|].
  rewrite IH, Nat2Z.inj_succ, succ_IZR. unfold Cplus. cbn [fst snd].
  apply (f_equal2 (@pair R R)); ring.
Qed.

(** One term of [F F^*]. *)
Lemma Fourier_term (n i j k : Z) :
  0 < n ->
  Cmult (Fourier n i k) (Cconj (Fourier n j k))
  = Cscal (/ IZR n)
      (cos (IZR k * (2 * PI * IZR (i - j) / IZR n)),
       sin (IZR k * (2 * PI * IZR (i - j) / IZR n)))%R.
Proof.
  intros Hn. unfold Fourier, Cmult, Cconj, Cscal. cbn [fst snd].
  assert (Hn0 : IZR n <> 0%R) by (apply not_0_IZR; lia).
  replace (IZR k * (2 * PI * IZR (i - j) / IZR n))%R
    with (2 * PI * IZR i * IZR k / IZR n - 2 * PI * IZR j * IZR k / IZR n)%R
    by (rewrite minus_IZR; field; exact Hn0).
  rewrite cos_minus, sin_minus, <- (inv_sqrt_sqr n Hn).
  apply (f_equal2 (@pair R R)); ring.
Qed.

(** [F F^* = 1]. *)
Lemma Fourier_unitary (n i j : Z) :
  0 < n -> 0 <= i < n -> 0 <= j < n ->
  Csum n (fun k => Cmult (Fourier n i k) (Cconj (Fourier n j k)))
  = if i =? j then (1, 0)%R else (0, 0)%R.
Proof.
  intros Hn Hi Hj.
  rewrite (Csum_ext n _ (fun k => Cscal (/ IZR n)
     (cos (IZR k * (2 * PI * IZR (i - j) / IZR n)),
      sin (IZR k * (2 * PI * IZR (i - j) / IZR n)))%R))
    by (intros k _; now apply Fourier_term).
  unfold Csum. rewrite Csum_scal.
  assert (Hn0 : IZR n <> 0%R) by (apply not_0_IZR; lia).
  destruct (Z.eqb_spec i j) as [->|Hne].
  - rewrite (Csum_nat_ext _ _ (fun _ => (1, 0)%R)).
    + rewrite Csum_ones, Z2Nat.id by lia. unfold Cscal. cbn [fst snd].
      apply (f_equal2 (@pair R R)); field; exact Hn0.
    + intros k _. rewrite Z.sub_diag.
      replace (IZR k * (2 * PI * 0 / IZR n))%R with 0%R by (unfold Rdiv; ring).
      now rewrite cos_0, sin_0.
  - pose proof (roots_sum_zero n (i - j) Hn ltac:(lia) ltac:(lia)) as Hz.
    unfold Csum in Hz. rewrite Hz. unfold Cscal. cbn [fst snd].
    apply (f_equal2 (@pair R R)); ring.
Qed.

(** X15.  The Fourier matrix [F] of [compute_hamiltonian] is unitary:
    [multiply_complex_matrices] applied to [F] and [Finv], the conjugate
    transpose the code computes, gives the identity matrix.  (Exact
    arithmetic.) *)
Theorem fourier_times_its_conjugate_transpose (U : Uninit R) (x : t_qte_quantumho R)
        (w w' : world R) (L : locals R) (R0 : matrix R) (i j : Z) :
  0 < n x -> 0 <= i < n x -> 0 <= j < n x -> square (n x) R0 ->
  compute_hamiltonian_locals x w = (Value (Some L), w') ->
  mget (multiply_complex_matrices (l_F L) (l_Finv L) R0 (n x)) i j
  = if i =? j then (1, 0)%R else (0, 0)%R.
Proof.
  intros Hn Hi Hj HR E. apply compute_hamiltonian_locals_Some in E. destruct E as [HL _].
  destruct (multiply_complex_matrices_spec (n x) (l_F L) (l_Finv L) R0 HR) as [_ EM].
  rewrite EM by assumption. rewrite dot_is_sum.
  etransitivity; [|exact (Fourier_unitary (n x) i j Hn Hi Hj)].
  apply Csum_ext. intros k Hk.
  rewrite (ok_F _ _ _ HL i k Hi Hk), (ok_Finv _ _ _ HL k j Hk Hj).
  unfold Entries.Finv_entry. now rewrite !F_entry_Fourier.
Qed.

End FourierInverse.

Section BuilderFurtherExamples.
Import Exact QuantumHO Shape.

Lemma alloc_complex_matrix_zeros_or_null_witness :
  (exists M w', alloc_complex_matrix 2 Sample.calm = (Value (Some M), w') /\
     M = Faults.blank_2) /\
  (exists w', alloc_complex_matrix 2 (Faults.refusing_after 1) = (Value None, w')).
Proof.
  split.
  - destruct (alloc_complex_matrix_zeros_or_null 2 Sample.calm)
      as (o & w' & E & _ & Hzeros & Hserved & _); [lia|].
    destruct o as [M|]; [|exfalso; apply Hserved; [constructor | reflexivity]].
    exists M, w'. split; [exact E|]. exact (Hzeros M eq_refl).
  - destruct (alloc_complex_matrix_zeros_or_null 2 (Faults.refusing_after 1))
      as (o & w' & E & _ & _ & _ & Hrefused); [lia|].
    exists w'. rewrite E. rewrite (Hrefused 1%nat [] eq_refl); [reflexivity | simpl; lia].
Defined.

Lemma bang_reports_refused_allocation_witness :
  (exists w',
     qte_quantumho_bang (U := Sample.zeros) Sample.ho_1 (Faults.refusing_after 4)
       = (Value tt, w') /\
     log w' = [object_error "Failed to compute Hamiltonian (out of memory?)" []]) /\
  (exists w',
     qte_quantumho_bang (U := Sample.zeros) Sample.ho_1 (Faults.refusing_after 14)
       = (Value tt, w') /\
     log w' = [object_error "Failed to allocate memory for output list" []]).
Proof.
  split.
  - destruct (bang_reports_refused_allocation (U := Sample.zeros) Sample.ho_1 4 []
                (Faults.refusing_after 4)) as [Hearly _].
    + simpl. lia.
    + unfold CLong.LONG_MAX. simpl. lia.
    + reflexivity.
    + apply Hearly. simpl. lia.
  - destruct (bang_reports_refused_allocation (U := Sample.zeros) Sample.ho_1 14 []
                (Faults.refusing_after 14)) as [_ Hlate].
    + simpl. lia.
    + unfold CLong.LONG_MAX. simpl. lia.
    + reflexivity.
    + apply Hlate. reflexivity.
Defined.

Lemma bang_crashes_without_Q_diag_witness :
  exists w',
    qte_quantumho_bang (U := Sample.zeros) Sample.ho_1 (Faults.refusing_after 13)
      = (Crash, w') /\
    log w' = [].
Proof.
  apply (bang_crashes_without_Q_diag (U := Sample.zeros) Sample.ho_1 []
           (Faults.refusing_after 13)).
  - simpl. lia.
  - unfold CLong.LONG_MAX. simpl. lia.
  - reflexivity.
Defined.

Lemma final_loop_rounding_error_witness :
  let val := unrounded Faults.rows_2 [1%R; 2%R] 0 1 in
  let h := mget (build_H 2 Faults.rows_2 [1%R; 2%R] Faults.blank_2) 0 1 in
  (- (1 / 200000) <= fst h - fst val <= 1 / 200000)%R /\
  (- (1 / 200000) <= snd h - snd val <= 1 / 200000)%R /\
  round5 (fst h) = fst h /\ round5 (snd h) = snd h.
Proof.
  apply (final_loop_rounding_error 2 Faults.rows_2 [1%R; 2%R] Faults.blank_2 0 1).
  - split; [reflexivity|]. repeat constructor.
  - reflexivity.
  - split; [reflexivity|]. repeat constructor.
  - lia.
  - lia.
Defined.

Lemma blank_2_square : square 2 Faults.blank_2.
Proof. split; [reflexivity|]. repeat constructor. Qed.

Lemma conjugate_transpose_twice_witness :
  mget (compute_conjugate_transpose
          (compute_conjugate_transpose Faults.rows_2 Faults.blank_2 2) Faults.blank_2 2) 0 1
  = (2%R, 1%R).
Proof.
  apply (conjugate_transpose_twice 2 Faults.rows_2 Faults.blank_2 Faults.blank_2 0 1).
  - split; [reflexivity|]. repeat constructor.
  - split; [reflexivity|]. repeat constructor.
  - split; [reflexivity|]. repeat constructor.
  - lia.
  - lia.
Defined.

Lemma conjugate_transpose_of_product_witness :
  mget (compute_conjugate_transpose
          (multiply_complex_matrices Faults.rows_2 Faults.rows_2' Faults.blank_2 2)
          Faults.blank_2 2) 0 1
  = mget (multiply_complex_matrices
            (compute_conjugate_transpose Faults.rows_2' Faults.blank_2 2)
            (compute_conjugate_transpose Faults.rows_2 Faults.blank_2 2)
            Faults.blank_2 2) 0 1.
Proof.
  apply (conjugate_transpose_of_product 2 Faults.rows_2 Faults.rows_2'
           Faults.blank_2 Faults.blank_2 Faults.blank_2 Faults.blank_2 Faults.blank_2 0 1);
    try exact blank_2_square; try lia; split; try reflexivity; repeat constructor.
Defined.

Lemma momentum_diagonal_is_constant_witness :
  exists L w',
    compute_hamiltonian_locals (U := Sample.zeros) Sample.ho_2 Sample.calm
      = (Value (Some L), w') /\
    mget (l_P L) 1 1 = ((IZR 2 - 1) / 2, 0)%R.
Proof.
  destruct (compute_hamiltonian_locals_plentiful (U := Sample.zeros) Sample.ho_2 Sample.calm)
    as (L & w' & E & _); [constructor|].
  exists L, w'. split; [exact E|].
  apply (momentum_diagonal_is_constant Sample.zeros Sample.ho_2 Sample.calm w' L 1);
    [simpl; lia | simpl; lia | exact E].
Defined.

Lemma fourier_times_its_conjugate_transpose_witness :
  exists L w',
    compute_hamiltonian_locals (U := Sample.zeros) Sample.ho_2 Sample.calm
      = (Value (Some L), w') /\
    mget (multiply_complex_matrices (l_F L) (l_Finv L) Faults.blank_2 2) 0 1 = (0, 0)%R /\
    mget (multiply_complex_matrices (l_F L) (l_Finv L) Faults.blank_2 2) 1 1 = (1, 0)%R.
Proof.
  destruct (compute_hamiltonian_locals_plentiful (U := Sample.zeros) Sample.ho_2 Sample.calm)
    as (L & w' & E & _); [constructor|].
  exists L, w'. split; [exact E|]. split.
  - apply (fourier_times_its_conjugate_transpose Sample.zeros Sample.ho_2 Sample.calm w' L
             Faults.blank_2 0 1);
      [simpl; lia | simpl; lia | simpl; lia | exact blank_2_square | exact E].
  - apply (fourier_times_its_conjugate_transpose Sample.zeros Sample.ho_2 Sample.calm w' L
             Faults.blank_2 1 1);
      [simpl; lia | simpl; lia | simpl; lia | exact blank_2_square | exact E].
Defined.

End BuilderFurtherExamples.

(* ================================================================== *)
(** * Part VIII: further properties of the prototype                   *)
(* ================================================================== *)

Section PrototypeRun.
Context {D : Type} {Fl : Flt D} {U : Uninit D}.
Import Shape.

Lemma malloc_rows_square (n : Z) :
  forall (k : nat) (rows : QuantumHO.matrix D) (w : world D),
    plentiful w ->
    Forall (fun r => List.length r = Z.to_nat n) rows ->
    exists M w',
      SimpleMax.malloc_rows k n rows w = (Value M, w') /\
      plentiful w' /\ log w' = log w /\
      List.length M = (List.length rows + k)%nat /\
      Forall (fun r => List.length r = Z.to_nat n) M.
Proof.
  induction k as [|k IH]; intros rows w Hw Hrows.
  - exists rows, w. repeat split; [assumption | lia | assumption].
  - cbn [SimpleMax.malloc_rows]. unfold SimpleMax.unchecked, malloc_complex.
    destruct (allocation_plentiful (junk, junk) n w Hw) as (row & w1 & Er & Hw1 & L1).
    rewrite (bind_run _ _ _ _ _ (bind_run _ _ _ _ _ Er)).
    apply allocation_Value in Er. destruct Er as [_ Hrow].
    destruct (IH (rows ++ [row]) w1 Hw1) as (M & w' & E & Hw' & L' & Hlen & Hall).
    { apply Forall_app. split; [assumption|]. constructor; [now apply Hrow | constructor]. }
    exists M, w'. rewrite length_app in Hlen. cbn [List.length] in Hlen.
    repeat split; [exact E | exact Hw' | congruence | lia | exact Hall].
Qed.

Lemma malloc_matrix_square (n : Z) (w : world D) :
  plentiful w ->
  exists M w',
    SimpleMax.malloc_matrix n w = (Value M, w') /\
    plentiful w' /\ log w' = log w /\ square n M.
Proof.
  intros Hw. unfold SimpleMax.malloc_matrix, SimpleMax.unchecked.
  destruct (request_plentiful w Hw) as (w1 & Er & Hw1 & L1).
  rewrite (bind_run _ _ _ _ _ (bind_run _ _ _ _ _ (bind_run _ _ _ _ _ Er))).
  destruct (malloc_rows_square n (Z.to_nat n) [] w1 Hw1 (Forall_nil _))
    as (M & w' & E & Hw' & L' & Hlen & Hall).
  exists M, w'. repeat split; [exact E | exact Hw' | congruence | exact Hlen | exact Hall].
Qed.

Lemma proto_dot_ext (n : Z) (A A' B B' : Z -> Z -> cplx) (i j : Z) :
  (forall k, 0 <= k < n -> A i k = A' i k) ->
  (forall k, 0 <= k < n -> B k j = B' k j) ->
  ProtoEntries.dot n A B i j = ProtoEntries.dot n A' B' i j.
Proof.
  intros HA HB. unfold ProtoEntries.dot. apply for_long_ext.
  intros k t Hk. now rewrite HA, HB.
Qed.

(** The stages of [compute_harmonic_oscillator], run on storage of the right
    shape, leave in [H] the entries of [ProtoEntries]. *)
Lemma prototype_stages (n : Z) (a : D) (H F Finv P_temp P P2 : QuantumHO.matrix D)
      (PImpulse Q_diag Q2_diag : list D) :
  square n H -> square n F -> square n Finv ->
  square n P_temp -> square n P -> square n P2 ->
  List.length PImpulse = Z.to_nat n -> List.length Q_diag = Z.to_nat n ->
  List.length Q2_diag = Z.to_nat n ->
  let F' := SimpleMax.compute_fourier_matrix F n in
  let Finv' := SimpleMax.conjugate_transpose n F' Finv in
  let PImpulse' := SimpleMax.fill_PImpulse n PImpulse in
  let P_temp' := SimpleMax.fill_P_temp n PImpulse' F' P_temp in
  let P' := SimpleMax.product n Finv' P_temp' P in
  let Q_diag' := SimpleMax.fill_Q_diag n a Q_diag in
  let P2' := SimpleMax.product n P' P' P2 in
  let Q2_diag' := SimpleMax.fill_Q2_diag n Q_diag' Q2_diag in
  let H' := SimpleMax.build_H n P2' Q2_diag' H in
  forall i j, 0 <= i < n -> 0 <= j < n ->
    QuantumHO.mget H' i j = ProtoEntries.H_entry n a i j.
Proof.
  intros HH HF HFinv HPt HP HP2 HPI HQ HQ2
         F' Finv' PImpulse' P_temp' P' Q_diag' P2' Q2_diag' H'.
  destruct (matrix_fill n (Entries.F_entry n) F HF) as [_ EF].
  change (for_long n _ F) with F' in EF.
  destruct (matrix_fill n (fun i j => conj (QuantumHO.mget F' j i)) Finv HFinv)
    as [_ EFinv].
  change (for_long n _ Finv) with Finv' in EFinv.
  destruct (fill_array d0 of_long n PImpulse HPI) as [_ EPI].
  change (for_long n _ PImpulse) with PImpulse' in EPI.
  destruct (matrix_fill n
              (fun i j => rcmul (get d0 PImpulse' i) (QuantumHO.mget F' i j)) P_temp HPt)
    as [_ EPt].
  change (for_long n _ P_temp) with P_temp' in EPt.
  destruct (product_spec n Finv' P_temp' P HP) as [_ EP]. fold P' in EP.
  destruct (fill_array d0 (ProtoEntries.Q_entry n a) n Q_diag HQ) as [_ EQ].
  change (for_long n _ Q_diag) with Q_diag' in EQ.
  destruct (product_spec n P' P' P2 HP2) as [_ EP2]. fold P2' in EP2.
  destruct (fill_array d0 (fun i => dmul (get d0 Q_diag' i) (get d0 Q_diag' i))
              n Q2_diag HQ2) as [_ EQ2].
  change (for_long n _ Q2_diag) with Q2_diag' in EQ2.
  assert (P_ok : forall i j, 0 <= i < n -> 0 <= j < n ->
            QuantumHO.mget P' i j = ProtoEntries.P_entry n i j).
  { intros i j Hi Hj. rewrite EP by assumption.
    change (for_long n _ (c_of_real d0))
      with (ProtoEntries.dot n (QuantumHO.mget Finv') (QuantumHO.mget P_temp') i j).
    unfold ProtoEntries.P_entry. apply proto_dot_ext; intros k Hk.
    - rewrite EFinv by assumption. unfold Entries.Finv_entry. now rewrite EF.
    - rewrite EPt by assumption. unfold ProtoEntries.P_temp_entry.
      now rewrite EPI, EF. }
  assert (P2_ok : forall i j, 0 <= i < n -> 0 <= j < n ->
            QuantumHO.mget P2' i j = ProtoEntries.P2_entry n i j).
  { intros i j Hi Hj. rewrite EP2 by assumption.
    change (for_long n _ (c_of_real d0))
      with (ProtoEntries.dot n (QuantumHO.mget P') (QuantumHO.mget P') i j).
    unfold ProtoEntries.P2_entry. apply proto_dot_ext; intros k Hk; now apply P_ok. }
  intros i j Hi Hj. unfold H'.
  rewrite (prototype_build_H_spec n P2' Q2_diag' H HH i j Hi Hj).
  unfold ProtoEntries.H_entry. rewrite P2_ok by assumption.
  destruct (Z.eqb_spec i j) as [->|Hne]; [|reflexivity].
  now rewrite EQ2, EQ.
Qed.

Lemma compute_harmonic_oscillator_runs (x : SimpleMax.t_simplemax D)
      (H : QuantumHO.matrix D) (w : world D) :
  plentiful w -> square (SimpleMax.n x) H ->
  exists H' w',
    SimpleMax.compute_harmonic_oscillator x H w = (Value H', w') /\
    plentiful w' /\ log w' = log w /\
    forall i j, 0 <= i < SimpleMax.n x -> 0 <= j < SimpleMax.n x ->
      QuantumHO.mget H' i j = ProtoEntries.H_entry (SimpleMax.n x) (SimpleMax.a x) i j.
Proof.
  intros Hw HH. unfold SimpleMax.compute_harmonic_oscillator. cbv zeta.
  destruct (malloc_matrix_square (SimpleMax.n x) w Hw) as (F & w1 & E1 & Hw1 & L1 & S1).
  rewrite (bind_run _ _ _ _ _ E1).
  destruct (malloc_matrix_square (SimpleMax.n x) w1 Hw1) as (Finv & w2 & E2 & Hw2 & L2 & S2).
  rewrite (bind_run _ _ _ _ _ E2).
  destruct (unchecked_plentiful junk (SimpleMax.n x) (SimpleMax.n x) w2 Hw2)
    as (PI & w3 & E3 & S3 & Hw3 & L3).
  unfold malloc_doubles at 1. rewrite (bind_run _ _ _ _ _ E3).
  destruct (malloc_matrix_square (SimpleMax.n x) w3 Hw3) as (Pt & w4 & E4 & Hw4 & L4 & S4).
  rewrite (bind_run _ _ _ _ _ E4).
  destruct (malloc_matrix_square (SimpleMax.n x) w4 Hw4) as (P & w5 & E5 & Hw5 & L5 & S5).
  rewrite (bind_run _ _ _ _ _ E5).
  destruct (unchecked_plentiful junk (SimpleMax.n x) (SimpleMax.n x) w5 Hw5)
    as (Q & w6 & E6 & S6 & Hw6 & L6).
  unfold malloc_doubles at 1. rewrite (bind_run _ _ _ _ _ E6).
  destruct (malloc_matrix_square (SimpleMax.n x) w6 Hw6) as (P2 & w7 & E7 & Hw7 & L7 & S7).
  rewrite (bind_run _ _ _ _ _ E7).
  destruct (unchecked_plentiful junk (SimpleMax.n x) (SimpleMax.n x) w7 Hw7)
    as (Q2 & w8 & E8 & S8 & Hw8 & L8).
  unfold malloc_doubles at 1. rewrite (bind_run _ _ _ _ _ E8).
  unfold ret. eexists. eexists. split; [reflexivity|]. split; [assumption|].
  split; [congruence|].
  now apply prototype_stages.
Qed.

(** The flattening loop of the prototype: the real part of entry [(i, j)] at
    index [i n + j]. *)
Lemma prototype_flatten_spec (n : Z) (H : QuantumHO.matrix D) (out : list (atom D)) :
  0 <= n -> n * n <= CLong.LONG_MAX ->
  Z.of_nat (List.length out) = n * n ->
  forall i j, 0 <= i < n -> 0 <= j < n ->
    get (A_SYM "") (SimpleMax.flatten n H out) (i * n + j)
    = A_FLOAT (creal (QuantumHO.mget H i j)).
Proof.
  intros Hn Hmax Hlen.
  apply (nested_fill (list (atom D)) (atom D) n
           (fun s => Z.of_nat (List.length s) = n * n)
           (fun s i j => get (A_SYM "") s (i * n + j))
           (fun i j s => upd s (CLong.add (CLong.mul i n) j)
                             (A_FLOAT (creal (QuantumHO.mget H i j))))
           (fun i j => A_FLOAT (creal (QuantumHO.mget H i j)))).
  - intros i j s Hi Hj Hs. now rewrite length_upd.
  - intros i j s Hi Hj Hs.
    destruct (cell_no_wrap n i j Hmax Hi Hj) as [-> Hr].
    apply get_upd_same. lia.
  - intros i j i' j' s Hi Hj Hi' Hj' Hne Hs.
    destruct (cell_no_wrap n i j Hmax Hi Hj) as [-> _].
    apply get_upd_other. intros E. apply Hne.
    symmetry in E. apply index_inj in E; [|assumption|assumption].
    destruct E; now subst.
  - exact Hlen.
Qed.

Lemma prototype_bang_runs (x : SimpleMax.t_simplemax D) (w : world D) :
  0 <= SimpleMax.n x -> SimpleMax.n x * SimpleMax.n x <= CLong.LONG_MAX ->
  plentiful w ->
  exists l w',
    SimpleMax.simplemax_bang x w = (Value tt, w') /\
    plentiful w' /\
    log w' = log w ++ [outlet_list "out" (SimpleMax.n x * SimpleMax.n x) l] /\
    Z.of_nat (List.length l) = SimpleMax.n x * SimpleMax.n x /\
    forall i j, 0 <= i < SimpleMax.n x -> 0 <= j < SimpleMax.n x ->
      get (A_SYM "") l (i * SimpleMax.n x + j)
      = A_FLOAT (creal (ProtoEntries.H_entry (SimpleMax.n x) (SimpleMax.a x) i j)).
Proof.
  intros Hn Hmax Hw. unfold SimpleMax.simplemax_bang. cbv zeta.
  destruct (malloc_matrix_square (SimpleMax.n x) w Hw) as (H & w1 & E1 & Hw1 & L1 & S1).
  rewrite (bind_run _ _ _ _ _ E1).
  destruct (compute_harmonic_oscillator_runs x H w1 Hw1 S1)
    as (H' & w2 & E2 & Hw2 & L2 & EH).
  rewrite (bind_run _ _ _ _ _ E2).
  assert (Hnn : CLong.mul (SimpleMax.n x) (SimpleMax.n x) = SimpleMax.n x * SimpleMax.n x).
  { apply wrap_small. unfold CLong.LONG_MIN. nia. }
  rewrite Hnn.
  destruct (unchecked_plentiful junk_atom (SimpleMax.n x)
              (SimpleMax.n x * SimpleMax.n x) w2 Hw2) as (out & w3 & E3 & Hout & Hw3 & L3).
  unfold sysmem_newptr_atoms. rewrite (bind_run _ _ _ _ _ E3).
  unfold send_list, tell.
  rewrite firstn_all2 by (rewrite prototype_flatten_length; lia).
  eexists. eexists. split; [reflexivity|]. split; [exact Hw3|].
  cbn [log]. split; [|split].
  - rewrite L3, L2, L1. reflexivity.
  - rewrite prototype_flatten_length. lia.
  - intros i j Hi Hj. rewrite <- (EH i j Hi Hj).
    apply prototype_flatten_spec; try assumption. lia.
Qed.

(** X16.  The prototype sends one list of [n^2] floats, row-major: atom
    [i * n + j] is the real part of the entry [H[i][j]] its loops compute.
    (Every allocation served.) *)
Theorem prototype_output_layout (x : SimpleMax.t_simplemax D) (w : world D) :
  0 <= SimpleMax.n x -> SimpleMax.n x * SimpleMax.n x <= CLong.LONG_MAX ->
  plentiful w ->
  exists l w',
    SimpleMax.simplemax_bang x w = (Value tt, w') /\
    log w' = log w ++ [outlet_list "out" (SimpleMax.n x * SimpleMax.n x) l] /\
    Z.of_nat (List.length l) = SimpleMax.n x * SimpleMax.n x /\
    forall i j, 0 <= i < SimpleMax.n x -> 0 <= j < SimpleMax.n x ->
      get (A_SYM "") l (i * SimpleMax.n x + j)
      = A_FLOAT (creal (ProtoEntries.H_entry (SimpleMax.n x) (SimpleMax.a x) i j)).
Proof.
  intros Hn Hmax Hw.
  destruct (prototype_bang_runs x w Hn Hmax Hw) as (l & w' & E & _ & Hlog & Hlen & Hcells).
  exists l, w'. auto.
Qed.

Lemma quiet_unchecked {A : Type} (n : Z) (null : A) (m : M D (option A)) :
  quiet m -> quiet (SimpleMax.unchecked n null m).
Proof.
  intros Hm. unfold SimpleMax.unchecked. apply quiet_bind; [exact Hm|].
  intros [v|]; [apply quiet_ret|].
  destruct (0 <? n); [apply quiet_crash | apply quiet_ret].
Qed.

Lemma quiet_allocation {A : Type} (fill : A) (count : Z) :
  quiet (D := D) (bind request (fun ok : bool =>
    ret (if ok then Some (repeat fill (Z.to_nat count)) else None))).
Proof. apply quiet_bind; [apply quiet_request | intros; apply quiet_ret]. Qed.

Lemma quiet_malloc_matrix (n : Z) : quiet (SimpleMax.malloc_matrix (D := D) n).
Proof.
  unfold SimpleMax.malloc_matrix. apply quiet_bind.
  - apply quiet_unchecked. apply quiet_bind; [apply quiet_request | intros; apply quiet_ret].
  - intros _. generalize (@nil (list (@cplx D))).
    induction (Z.to_nat n) as [|k IH]; intros rows; cbn [SimpleMax.malloc_rows].
    + apply quiet_ret.
    + apply quiet_bind; [apply quiet_unchecked, quiet_allocation | intros; apply IH].
Qed.

Lemma quiet_compute_harmonic_oscillator (x : SimpleMax.t_simplemax D)
      (H : QuantumHO.matrix D) :
  quiet (SimpleMax.compute_harmonic_oscillator x H).
Proof.
  unfold SimpleMax.compute_harmonic_oscillator. cbv zeta.
  repeat first
    [ apply quiet_ret
    | apply quiet_bind; [first [ apply quiet_malloc_matrix
                               | apply quiet_unchecked, quiet_allocation ] | intros ?] ].
Qed.

(** X17.  The prototype never reports an error (for [n >= 0] with [n^2] a
    [long]): a [bang] either sends one list from the outlet or brings the
    process down having sent nothing; and it does the latter as soon as its
    first allocation is refused, for a positive dimension. *)
Theorem prototype_never_reports (x : SimpleMax.t_simplemax D) (w : world D) :
  0 <= SimpleMax.n x -> SimpleMax.n x * SimpleMax.n x <= CLong.LONG_MAX ->
  (forall r w', SimpleMax.simplemax_bang x w = (r, w') ->
     (r = Crash /\ log w' = log w) \/
     (r = Value tt /\ exists argc l, log w' = log w ++ [outlet_list "out" argc l])) /\
  (forall h, 0 < SimpleMax.n x -> heap w = false :: h ->
     exists w', SimpleMax.simplemax_bang x w = (Crash, w') /\ log w' = log w).
Proof.
  intros _ _.
  split.
  - intros r w'. unfold SimpleMax.simplemax_bang. cbv zeta. unfold bind at 1.
    destruct (SimpleMax.malloc_matrix (SimpleMax.n x) w) as [[H|] w1] eqn:E1.
    2:{ intros E. apply pair_equal_spec in E. destruct E as [<- <-]. left.
        split; [reflexivity|]. exact (quiet_malloc_matrix _ _ _ _ E1). }
    pose proof (quiet_malloc_matrix _ _ _ _ E1) as L1. unfold bind at 1.
    destruct (SimpleMax.compute_harmonic_oscillator x H w1) as [[H'|] w2] eqn:E2.
    2:{ intros E. apply pair_equal_spec in E. destruct E as [<- <-]. left.
        split; [reflexivity|].
        rewrite (quiet_compute_harmonic_oscillator _ _ _ _ _ E2). exact L1. }
    pose proof (quiet_compute_harmonic_oscillator _ _ _ _ _ E2) as L2. unfold bind at 1.
    match goal with |- context [ SimpleMax.unchecked ?n ?d ?m w2 ] =>
      destruct (SimpleMax.unchecked n d m w2) as [[out|] w3] eqn:E3;
      assert (L3 : log w3 = log w2)
        by (exact (quiet_unchecked n d m (quiet_allocation _ _) _ _ _ E3))
    end.
    2:{ intros E. apply pair_equal_spec in E. destruct E as [<- <-]. left.
        split; [reflexivity | congruence]. }
    unfold send_list, tell. intros E. apply pair_equal_spec in E. destruct E as [<- <-].
    right. split; [reflexivity|]. eexists. eexists. cbn [log].
    rewrite L3, L2, L1. reflexivity.
  - intros h Hn Hh. unfold SimpleMax.simplemax_bang, SimpleMax.malloc_matrix,
      SimpleMax.unchecked. cbv zeta. unfold bind, request, ret. rewrite Hh.
    destruct (Z.ltb_spec 0 (SimpleMax.n x)); [|lia].
    eexists. split; reflexivity.
Qed.

End PrototypeRun.

Section PrototypeAgainstBuilder.
Import Exact Shape.

Ltac reals :=
  cbv [cadd cmul conj rcmul crmul rcadd cradd c_of_real CI creal cimag d0 d1 d2
       Cplus Cmult Cconj Cscal RtoC];
  cbn [dadd dmul ddiv dneg dhalf of_long dM_PI dsqrt dcos dsin dround RealFlt
       fst snd].

Lemma proto_dot_is_sum (n : Z) (A B : Z -> Z -> C) (i j : Z) :
  ProtoEntries.dot n A B i j = Csum n (fun k => Cmult (A i k) (B k j)).
Proof.
  unfold ProtoEntries.dot, Csum, for_long.
  induction (Z.to_nat n) as [|m IH].
  - reflexivity.
  - rewrite for_from_last, IH. cbn [Csum_nat]. reflexivity.
Qed.

Lemma Fourier_symmetric (n k l : Z) : Fourier n k l = Fourier n l k.
Proof. unfold Fourier. do 2 f_equal; f_equal; unfold Rdiv; ring. Qed.

Lemma proto_P_entry_conj (n i j : Z) :
  ProtoEntries.P_entry n i j = Cconj (Entries.P_entry n i j).
Proof.
  rewrite P_entry_Momentum. unfold ProtoEntries.P_entry, Momentum.
  rewrite proto_dot_is_sum, Csum_conj. apply Csum_ext. intros k Hk.
  unfold Entries.Finv_entry, ProtoEntries.P_temp_entry. rewrite !F_entry_Fourier.
  rewrite (Fourier_symmetric n k i), (Fourier_symmetric n k j).
  destruct (Fourier n i k) as [x1 y1]. destruct (Fourier n j k) as [x2 y2].
  reals. apply (f_equal2 (@pair R R)); ring.
Qed.

Lemma proto_P2_entry_conj (n i j : Z) :
  ProtoEntries.P2_entry n i j = Cconj (Entries.P2_entry n i j).
Proof.
  unfold ProtoEntries.P2_entry, Entries.P2_entry.
  rewrite proto_dot_is_sum, dot_is_sum, Csum_conj. apply Csum_ext. intros k Hk.
  rewrite !proto_P_entry_conj.
  destruct (Entries.P_entry n i k) as [x1 y1]. destruct (Entries.P_entry n k j) as [x2 y2].
  reals. apply (f_equal2 (@pair R R)); ring.
Qed.

(** Off the diagonal, and everywhere when [a = 1], the prototype's entry is
    the conjugate of the builder's entry before rounding. *)
Lemma proto_H_entry_conj (n : Z) (a : R) (i j : Z) :
  i <> j \/ a = 1%R ->
  ProtoEntries.H_entry n a i j = Cconj (Entries.val_entry n a i j).
Proof.
  intros Hc. unfold ProtoEntries.H_entry, Entries.val_entry.
  rewrite proto_P2_entry_conj.
  destruct (Entries.P2_entry n i j) as [re im].
  destruct (Z.eqb_spec i j) as [->|Hne].
  - destruct Hc as [Hc| ->]; [congruence|].
    unfold ProtoEntries.Q_entry, Entries.Q_entry. reals.
    apply (f_equal2 (@pair R R)); unfold Rdiv; ring.
  - reals. apply (f_equal2 (@pair R R)); ring.
Qed.

(** X18.  The builder against the prototype, for the same [n] and [a]:
    off the diagonal (and on it when [a = 1]) the real part the builder sends
    for [H[i][j]] is the number the prototype sends for it, rounded to five
    decimals.  (Exact arithmetic, every allocation served.) *)
Theorem builder_rounds_what_prototype_sends (U : Uninit R)
        (x : SimpleMax.t_simplemax R) (y : QuantumHO.t_qte_quantumho R) (w v : world R) :
  QuantumHO.n y = SimpleMax.n x -> QuantumHO.a y = SimpleMax.a x ->
  1 <= SimpleMax.n x -> 2 * SimpleMax.n x * SimpleMax.n x <= CLong.LONG_MAX ->
  plentiful w -> plentiful v ->
  exists lp lb w' v',
    SimpleMax.simplemax_bang x w = (Value tt, w') /\
    log w' = log w ++ [outlet_list "out" (SimpleMax.n x * SimpleMax.n x) lp] /\
    QuantumHO.qte_quantumho_bang y v = (Value tt, v') /\
    log v' = log v ++ [outlet_list "out" (2 * SimpleMax.n x * SimpleMax.n x) lb] /\
    forall i j, 0 <= i < SimpleMax.n x -> 0 <= j < SimpleMax.n x ->
      i <> j \/ SimpleMax.a x = 1%R ->
      exists r : R,
        get (A_SYM "") lp (i * SimpleMax.n x + j) = A_FLOAT r /\
        get (A_SYM "") lb (2 * (i * SimpleMax.n x + j)) = A_FLOAT (QuantumHO.round5 r).
Proof.
  intros Hny Hay Hn Hmax Hw Hv.
  destruct (prototype_bang_runs x w) as (lp & w' & Ep & _ & Lp & _ & Cp);
    [lia | nia | exact Hw|].
  destruct (bang_plentiful y v) as (lb & v' & Eb & Lb & _ & Cb);
    [rewrite Hny; lia | rewrite Hny; exact Hmax | exact Hv|].
  rewrite Hny, Hay in *.
  exists lp, lb, w', v'. repeat split; try assumption.
  intros i j Hi Hj Hc.
  exists (fst (Entries.val_entry (SimpleMax.n x) (SimpleMax.a x) i j)). split.
  - rewrite (Cp i j Hi Hj), (proto_H_entry_conj _ _ _ _ Hc). reflexivity.
  - destruct (Cb i j Hi Hj) as [Hre _]. rewrite Hre, H_entry_rounded. reflexivity.
Qed.

End PrototypeAgainstBuilder.

Section PrototypeFurtherExamples.
Import Exact.

Lemma prototype_output_layout_witness :
  exists l w',
    SimpleMax.simplemax_bang (U := Sample.zeros) Faults.proto_2 Sample.calm = (Value tt, w') /\
    log w' = [outlet_list "out" 4 l] /\
    get (A_SYM "") l (1 * 2 + 0) = A_FLOAT (fst (ProtoEntries.H_entry 2 1%R 1 0)).
Proof.
  destruct (prototype_output_layout (U := Sample.zeros) Faults.proto_2 Sample.calm)
    as (l & w' & E & Hlog & _ & Hcells).
  - simpl. lia.
  - unfold CLong.LONG_MAX. simpl. lia.
  - constructor.
  - exists l, w'. split; [exact E|]. split; [exact Hlog|].
    exact (Hcells 1 0 ltac:(simpl; lia) ltac:(simpl; lia)).
Defined.

Lemma prototype_never_reports_witness :
  exists w',
    SimpleMax.simplemax_bang (U := Sample.zeros) Faults.proto_2 Sample.exhausted
      = (Crash, w') /\
    log w' = [].
Proof.
  destruct (prototype_never_reports (U := Sample.zeros) Faults.proto_2 Sample.exhausted)
    as [_ Hfirst].
  - simpl. lia.
  - unfold CLong.LONG_MAX. simpl. lia.
  - apply (Hfirst []); [simpl; lia | reflexivity].
Defined.

Lemma builder_rounds_what_prototype_sends_witness :
  exists lp lb w' v' r,
    SimpleMax.simplemax_bang (U := Sample.zeros) Faults.proto_2 Sample.calm = (Value tt, w') /\
    log w' = [outlet_list "out" 4 lp] /\
    QuantumHO.qte_quantumho_bang (U := Sample.zeros) Sample.ho_2 Sample.calm = (Value tt, v') /\
    log v' = [outlet_list "out" 8 lb] /\
    get (A_SYM "") lp (0 * 2 + 1) = A_FLOAT r /\
    get (A_SYM "") lb (2 * (0 * 2 + 1)) = A_FLOAT (QuantumHO.round5 r).
Proof.
  destruct (builder_rounds_what_prototype_sends Sample.zeros Faults.proto_2 Sample.ho_2
              Sample.calm Sample.calm)
    as (lp & lb & w' & v' & Ep & Lp & Eb & Lb & Hcells).
  - reflexivity.
  - reflexivity.
  - simpl. lia.
  - unfold CLong.LONG_MAX. simpl. lia.
  - constructor.
  - constructor.
  - destruct (Hcells 0 1) as (r & Hp & Hb); [simpl; lia | simpl; lia | left; lia|].
    exists lp, lb, w', v', r. repeat split; assumption.
Defined.

End PrototypeFurtherExamples.
